(** * Statement store of worlds-design: a shallow embedding

    The development follows [SqliteSearchStore]
    (paper/src/search-store/sqlite-search-store.ts), the schema of
    [kb_statements] with its unique constraint and its cascading trigger
    [kb_statements_ad_bn], the table [kb_chunks] with its full-text index
    (sqlite/usage.ts), the hybrid-search query of the paper (Reciprocal
    Rank Fusion), and the SDK (sdk.ts).

    - RDF/JS terms and quads are an inductive type and a record.  The
      store takes its data factory from the caller: [Module store] has the
      decoders and the lookups over any factory, which may refuse a text by
      throwing and may rewrite a language tag; [getStatements] and
      [getStatement] outside that module are the same methods on the
      factory of the data model, which refuses nothing.
    - A table is the list of its rows in rowid order, together with the
      AUTOINCREMENT counter; SQL statements are functions on that state and
      return in an error monad.
    - [js.parseInt] is the integer that [parseInt] reads, and
      [js_number.parseInt] the Number it gives for it.
    - Rank-fusion scores are exact rationals. *)

From Stdlib Require Import List String Ascii Bool ZArith QArith Lia.
From Stdlib Require Import Sorting.Sorted Sorting.Permutation.
Import ListNotations.

Local Open Scope string_scope.
Local Open Scope Z_scope.

(** ** RDF/JS data model *)

Module rdfjs.

(** The four term kinds the store handles.  A literal carries the IRI of
    the NamedNode held in its [datatype] attribute. *)
Inductive Term : Type :=
| NamedNode (value : string)
| BlankNode (value : string)
| Literal (value : string) (language : string) (datatype : string)
| DefaultGraph.

Definition termType (t : Term) : string :=
  match t with
  | NamedNode _ => "NamedNode"
  | BlankNode _ => "BlankNode"
  | Literal _ _ _ => "Literal"
  | DefaultGraph => "DefaultGraph"
  end.

Definition value (t : Term) : string :=
  match t with
  | NamedNode v | BlankNode v | Literal v _ _ => v
  | DefaultGraph => ""
  end.

(** [language] and [datatype] are read by the store on literals only. *)
Definition language (t : Term) : string :=
  match t with Literal _ l _ => l | _ => "" end.

Definition datatype (t : Term) : Term :=
  match t with Literal _ _ d => NamedNode d | _ => NamedNode "" end.

Record Quad : Type := quad {
  subject : Term;
  predicate : Term;
  object : Term;
  graph : Term
}.

Definition xsd_string : string :=
  "http://www.w3.org/2001/XMLSchema#string".
Definition rdf_langString : string :=
  "http://www.w3.org/1999/02/22-rdf-syntax-ns#langString".

(** The DataFactory of the data model: it builds the term it is asked for
    and refuses nothing.  [Module factory] has the factories that do. *)
Definition namedNode (v : string) : Term := NamedNode v.
Definition blankNode (v : string) : Term := BlankNode v.

(** [literal value languageOrDatatype]: a string argument is the language
    tag (the datatype is then rdf:langString), a NamedNode argument is the
    datatype, and without an argument the datatype is xsd:string. *)
Definition literal (v : string) (languageOrDatatype : option (string + Term))
  : Term :=
  match languageOrDatatype with
  | None => Literal v "" xsd_string
  | Some (inl lang) => Literal v lang rdf_langString
  | Some (inr dt) => Literal v "" (value dt)
  end.

Definition Term_eq_dec (a b : Term) : {a = b} + {a <> b}.
Proof. decide equality; apply string_dec. Defined.

Definition Quad_eq_dec (a b : Quad) : {a = b} + {a <> b}.
Proof. decide equality; apply Term_eq_dec. Defined.

End rdfjs.

(** ** JavaScript helpers used by the store *)

Module js.

(** [a || b] on a string [a]: the empty string is the only falsy one. *)
Definition or_else {B : Type} (a : string) (b : B) : string + B :=
  if (a =? "")%string then inr b else inl a.

(** [s.startsWith(p)] and [s.slice(n)] *)
Definition startsWith (s p : string) : bool := String.prefix p s.
Definition slice (s : string) (n : nat) : string :=
  String.substring n (String.length s - n) s.

Definition bytes (l : list nat) : string :=
  fold_right (fun n s => String (ascii_of_nat n) s) EmptyString l.

(** The white space [parseInt] skips, WhiteSpace and LineTerminator of the
    language, in UTF-8, the encoding of the strings here. *)
Definition white_space : list string :=
  map bytes
    [[9]; [10]; [11]; [12]; [13]; [32]; [194; 160] (* U+00A0 *);
     [225; 154; 128] (* U+1680 *);
     [226; 128; 128]; [226; 128; 129]; [226; 128; 130]; [226; 128; 131];
     [226; 128; 132]; [226; 128; 133]; [226; 128; 134]; [226; 128; 135];
     [226; 128; 136]; [226; 128; 137]; [226; 128; 138] (* U+2000 .. U+200A *);
     [226; 128; 168]; [226; 128; 169] (* U+2028, U+2029 *);
     [226; 128; 175] (* U+202F *); [226; 129; 159] (* U+205F *);
     [227; 128; 128] (* U+3000 *); [239; 187; 191] (* U+FEFF *)]%nat.

Fixpoint drop (n : nat) (s : string) : string :=
  match n, s with
  | S n', String _ s' => drop n' s'
  | _, _ => s
  end.

(** [s] without the white-space character it starts with, if any. *)
Definition strip_space (s : string) : option string :=
  match find (fun p => String.prefix p s) white_space with
  | Some p => Some (drop (String.length p) s)
  | None => None
  end.

Fixpoint trim_start_fuel (fuel : nat) (s : string) : string :=
  match fuel with
  | O => s
  | S fuel' =>
      match strip_space s with
      | Some s' => trim_start_fuel fuel' s'
      | None => s
      end
  end.

Definition trim_start (s : string) : string :=
  trim_start_fuel (String.length s) s.

(** The value of [c] as a digit of the given radix (10 or 16). *)
Definition digit (radix : Z) (c : ascii) : option Z :=
  let n := Z.of_nat (nat_of_ascii c) in
  let d :=
    if (48 <=? n) && (n <=? 57) then Some (n - 48)
    else if (97 <=? n) && (n <=? 102) then Some (n - 87)
    else if (65 <=? n) && (n <=? 70) then Some (n - 55)
    else None in
  match d with
  | Some k => if k <? radix then Some k else None
  | None => None
  end.

(** The longest prefix of digits, read left to right; [None] when the
    prefix is empty. *)
Fixpoint digits (radix : Z) (acc : option Z) (s : string) : option Z :=
  match s with
  | String c s' =>
      match digit radix c with
      | Some d =>
          digits radix
            (Some (match acc with Some a => a * radix + d | None => d end)) s'
      | None => acc
      end
  | EmptyString => acc
  end.

(** The integer that [parseInt(s)] reads, without a radix argument:
    leading white space is skipped, then an optional sign, then an optional
    [0x]/[0X] prefix selecting radix 16, then the longest run of digits.
    [None] is NaN.  The Number that [parseInt] gives for the integer is
    [js_number.of_integer]: the integer itself up to 2^53. *)
Definition parseInt (s : string) : option Z :=
  let s := trim_start s in
  let '(sign, s) :=
    match s with
    | String "-" s' => (-1, s')
    | String "+" s' => (1, s')
    | _ => (1, s)
    end in
  let '(radix, s) :=
    match s with
    | String "0" (String "x" s') => (16, s')
    | String "0" (String "X" s') => (16, s')
    | _ => (10, s)
    end in
  match digits radix None s with
  | Some n => Some (sign * n)
  | None => None
  end.

End js.

(** ** SQLite: errors and connection settings *)

Inductive sql_error : Type :=
| SQLITE_CONSTRAINT_UNIQUE
| SQLITE_TRIGGER_DEPTH.   (* too many levels of trigger recursion *)

Definition result (A : Type) : Type := sum sql_error A.
Definition Ok {A : Type} (a : A) : result A := inr a.
Definition Err {A : Type} (e : sql_error) : result A := inl e.

Definition bind {A B : Type} (m : result A) (k : A -> result B) : result B :=
  match m with
  | inl e => inl e
  | inr a => k a
  end.

Notation "x <- m ;; k" := (bind m (fun x => k))
  (at level 61, m at next level, right associativity).

(** What the schema asks of the connection: [PRAGMA recursive_triggers], and
    the engine's bound on nested trigger programs. *)
Record Connection : Type := {
  recursive_triggers : bool;
  max_trigger_depth : nat
}.

(** ** The table kb_statements *)

(** The seven columns a caller supplies; together they are the key of the
    unique constraint [kb_statement_unique]. *)
Record StatementValues : Type := {
  subject : string;
  predicate : string;
  object : string;
  graph : string;
  termType : string;
  objectLanguage : string;
  objectDatatype : string
}.

Record StatementRow : Type := {
  statementId : Z;
  cols : StatementValues
}.

(** The table in rowid order, and the largest rowid ever handed out
    (sqlite_sequence, for AUTOINCREMENT). *)
Record Db : Type := {
  kb_statements : list StatementRow;
  sqlite_sequence : Z
}.

Definition empty_db : Db := {| kb_statements := []; sqlite_sequence := 0 |}.

Definition values_eqb (a b : StatementValues) : bool :=
  (subject a =? subject b)%string && (predicate a =? predicate b)%string
  && (object a =? object b)%string && (graph a =? graph b)%string
  && (termType a =? termType b)%string
  && (objectLanguage a =? objectLanguage b)%string
  && (objectDatatype a =? objectDatatype b)%string.

Definition max_rowid (tbl : list StatementRow) : Z :=
  fold_right (fun r m => Z.max (statementId r) m) 0 tbl.

(** *** INSERT *)

Inductive on_conflict : Type := OnConflictAbort | OnConflictDoNothing.

(** One row of an INSERT.  The rowid is drawn before the constraints are
    checked, so a skipped row still advances the counter. *)
Definition insert_row (oc : on_conflict) (v : StatementValues) (db : Db)
  : result Db :=
  let tbl := kb_statements db in
  let id := Z.max (sqlite_sequence db) (max_rowid tbl) + 1 in
  if existsb (fun r => values_eqb (cols r) v) tbl then
    match oc with
    | OnConflictDoNothing => Ok {| kb_statements := tbl; sqlite_sequence := id |}
    | OnConflictAbort => Err SQLITE_CONSTRAINT_UNIQUE
    end
  else
    Ok {| kb_statements := tbl ++ [{| statementId := id; cols := v |}];
          sqlite_sequence := id |}.

Fixpoint insert_values (oc : on_conflict) (vs : list StatementValues) (db : Db)
  : result Db :=
  match vs with
  | [] => Ok db
  | v :: vs' => db' <- insert_row oc v db ;; insert_values oc vs' db'
  end.

(** *** DELETE and the trigger kb_statements_ad_bn *)

Definition to_lower (c : ascii) : ascii :=
  let n := nat_of_ascii c in
  if ((65 <=? n) && (n <=? 90))%nat then ascii_of_nat (n + 32) else c.

(** [s LIKE 'p%'] for a pattern [p] without wildcards: a prefix test that
    ignores the case of ASCII letters. *)
Fixpoint like_prefix (p s : string) : bool :=
  match p, s with
  | EmptyString, _ => true
  | String a p', String b s' =>
      Ascii.eqb (to_lower a) (to_lower b) && like_prefix p' s'
  | String _ _, EmptyString => false
  end.

(** The WHEN clause of the trigger. *)
Definition trigger_when (old : StatementRow) : bool :=
  (termType (cols old) =? "BlankNode")%string
  || like_prefix "urn:uuid:" (object (cols old))
  || like_prefix ".well-known/genid/" (object (cols old)).

Definition has_rowid (id : Z) (r : StatementRow) : bool := statementId r =? id.

Definition rowids_where (cond : StatementRow -> bool) (tbl : list StatementRow)
  : list Z :=
  map statementId (filter cond tbl).

Definition delete_rowid (id : Z) (tbl : list StatementRow) : list StatementRow :=
  filter (fun r => negb (has_rowid id r)) tbl.

Section DeleteLoop.

(** [after_delete old tbl]: the AFTER DELETE triggers, run on the table
    from which [old] has just been removed. *)
Variable after_delete : StatementRow -> list StatementRow
                        -> result (list StatementRow).

(** The rowids selected by the WHERE clause are visited in turn; a row
    that a trigger has already deleted is passed over. *)
Fixpoint delete_each (ids : list Z) (tbl : list StatementRow)
  : result (list StatementRow) :=
  match ids with
  | [] => Ok tbl
  | id :: ids' =>
      match find (has_rowid id) tbl with
      | None => delete_each ids' tbl
      | Some old =>
          tbl' <- after_delete old (delete_rowid id tbl) ;;
          delete_each ids' tbl'
      end
  end.

End DeleteLoop.

(** [DELETE FROM kb_statements WHERE cond], run with [depth] nested trigger
    programs still allowed.  [top] tells the statement of the caller from
    the one inside the trigger, which fires the trigger again only under
    [recursive_triggers].  The program of the trigger is entered for every
    deleted row on which the trigger fires, and entering it takes one of
    the [depth] levels; the WHEN clause is tested inside the program.  The
    table kb_statements is all there is here: the rows of kb_chunks that
    hang off a statement (ON DELETE CASCADE) and their triggers are left
    aside, and on a database that has them a DELETE needs levels of its
    own for them. *)
Fixpoint delete_from (recursive : bool) (depth : nat) (top : bool)
    (cond : StatementRow -> bool) (tbl : list StatementRow)
  : result (list StatementRow) :=
  delete_each
    (fun old tbl' =>
       if top || recursive then
         match depth with
         | O => Err SQLITE_TRIGGER_DEPTH
         | S d =>
             if trigger_when old then
               (* DELETE FROM kb_statements WHERE subject = old.object *)
               delete_from recursive d false
                 (fun r => (subject (cols r) =? object (cols old))%string) tbl'
             else Ok tbl'
         end
       else Ok tbl')
    (rowids_where cond tbl) tbl.

(** The program of the trigger, as [delete_from] runs it. *)
Definition trigger_program (recursive : bool) (depth : nat) (top : bool)
    (old : StatementRow) (tbl : list StatementRow)
  : result (list StatementRow) :=
  if top || recursive then
    match depth with
    | O => Err SQLITE_TRIGGER_DEPTH
    | S d =>
        if trigger_when old then
          delete_from recursive d false
            (fun r => (subject (cols r) =? object (cols old))%string) tbl
        else Ok tbl
    end
  else Ok tbl.

Definition delete_where (conn : Connection) (cond : StatementRow -> bool)
    (db : Db) : result Db :=
  tbl <- delete_from (recursive_triggers conn) (max_trigger_depth conn) true
           cond (kb_statements db) ;;
  Ok {| kb_statements := tbl; sqlite_sequence := sqlite_sequence db |}.

(** *** SELECT *)

(** [SELECT * FROM kb_statements WHERE cond], a scan in rowid order. *)
Definition select_where (cond : StatementRow -> bool) (db : Db)
  : list StatementRow :=
  filter cond (kb_statements db).

(** ** SqliteSearchStore *)

Definition statement_values (q : rdfjs.Quad) : StatementValues :=
  let o := rdfjs.object q in
  {| subject := rdfjs.value (rdfjs.subject q);
     predicate := rdfjs.value (rdfjs.predicate q);
     object := rdfjs.value o;
     graph := rdfjs.value (rdfjs.graph q);
     termType := rdfjs.termType o;
     objectLanguage :=
       if (rdfjs.termType o =? "Literal")%string then rdfjs.language o else "";
     objectDatatype :=
       if (rdfjs.termType o =? "Literal")%string
       then rdfjs.value (rdfjs.datatype o) else "" |}.

Definition addStatements (statements : list rdfjs.Quad) (db : Db) : result Db :=
  match statements with
  | [] => Ok db
  | _ => insert_values OnConflictDoNothing (map statement_values statements) db
  end.

Definition addStatement (statement : rdfjs.Quad) (db : Db) : result Db :=
  addStatements [statement] db.

(** The methods that read, on the data factory of the data model; on any
    factory they are [store.getStatements] and [store.getStatement]. *)

(** The row-to-quad mapping of [getStatements].  On a row of term type
    'BlankNode' the source first assigns [namedNode(row.object)] to the
    object and then overwrites it; with this factory the first call has
    no effect. *)
Definition getStatements_row (row : StatementRow) : rdfjs.Quad :=
  let c := cols row in
  let subject := rdfjs.namedNode (subject c) in
  let predicate := rdfjs.namedNode (predicate c) in
  let graph := rdfjs.namedNode (graph c) in
  let object :=
    if (termType c =? "Literal")%string then
      rdfjs.literal (object c)
        (Some (js.or_else (objectLanguage c)
                 (rdfjs.namedNode (objectDatatype c))))
    else if (termType c =? "BlankNode")%string then
      if js.startsWith (object c) "_:"
      then rdfjs.blankNode (js.slice (object c) 2)
      else rdfjs.namedNode (object c)
    else rdfjs.namedNode (object c) in
  rdfjs.quad subject predicate object graph.

Definition getStatements (graphId : string) (db : Db) : list rdfjs.Quad :=
  let rows :=
    select_where (fun r => (graph (cols r) =? graphId)%string) db in
  map getStatements_row rows.

(** The row-to-quad mapping of [getStatement]. *)
Definition getStatement_row (row : StatementRow) : rdfjs.Quad :=
  let c := cols row in
  let subject := rdfjs.namedNode (subject c) in
  let predicate := rdfjs.namedNode (predicate c) in
  let graph := rdfjs.namedNode (graph c) in
  let object :=
    if (termType c =? "Literal")%string then
      rdfjs.literal (object c)
        (Some (js.or_else (objectLanguage c)
                 (rdfjs.namedNode (objectDatatype c))))
    else rdfjs.namedNode (object c) in
  rdfjs.quad subject predicate object graph.

(** [None] is JavaScript's [null].  The id is the integer read; the source
    compares with the Number, which is that integer up to 2^53. *)
Definition getStatement (statementId : string) (db : Db) : option rdfjs.Quad :=
  match js.parseInt statementId with
  | None => None
  | Some id =>
      let rows := firstn 1 (select_where (has_rowid id) db) in
      match rows with
      | [] => None
      | row :: _ => Some (getStatement_row row)
      end
  end.

Definition removeStatements (conn : Connection) (graphId : string) (db : Db)
  : result Db :=
  delete_where conn (fun r => (graph (cols r) =? graphId)%string) db.

Definition removeStatement (conn : Connection) (statementId : string) (db : Db)
  : result Db :=
  match js.parseInt statementId with
  | None => Ok db
  | Some id => delete_where conn (has_rowid id) db
  end.

(** *** States of the store *)

(** Rowids are the primary key, and the table is kept in rowid order. *)
Definition rowid_lt (a b : StatementRow) : Prop := statementId a < statementId b.

Definition wf_db (db : Db) : Prop := StronglySorted rowid_lt (kb_statements db).

(** The unique constraint [kb_statement_unique]. *)
Definition unique_key (db : Db) : Prop := NoDup (map cols (kb_statements db)).

(** The states the store's methods produce from an empty table. *)
Inductive reachable : Db -> Prop :=
| reach_empty : reachable empty_db
| reach_addStatements : forall db qs db',
    reachable db -> addStatements qs db = Ok db' -> reachable db'
| reach_removeStatements : forall conn db g db',
    reachable db -> removeStatements conn g db = Ok db' -> reachable db'
| reach_removeStatement : forall conn db s db',
    reachable db -> removeStatement conn s db = Ok db' -> reachable db'.

Definition count_key (v : StatementValues) (db : Db) : nat :=
  List.length (filter (fun r => values_eqb (cols r) v) (kb_statements db)).

(** Quads whose term kinds the row encoding keeps: NamedNode subject,
    predicate and graph, and an object that is a NamedNode or a literal
    whose datatype is rdf:langString whenever it has a language tag. *)
Definition faithful (q : rdfjs.Quad) : bool :=
  (rdfjs.termType (rdfjs.subject q) =? "NamedNode")%string
  && (rdfjs.termType (rdfjs.predicate q) =? "NamedNode")%string
  && (rdfjs.termType (rdfjs.graph q) =? "NamedNode")%string
  && match rdfjs.object q with
     | rdfjs.NamedNode _ => true
     | rdfjs.Literal _ l d =>
         (l =? "")%string || (d =? rdfjs.rdf_langString)%string
     | _ => false
     end.

(** The decoding of a literal in the words of the specification: the
    language when it is not empty, else the datatype when it is not empty,
    else a plain string literal. *)
Definition decode_literal_spec (c : StatementValues) : rdfjs.Term :=
  if negb (objectLanguage c =? "")%string then
    rdfjs.literal (object c) (Some (inl (objectLanguage c)))
  else if negb (objectDatatype c =? "")%string then
    rdfjs.literal (object c) (Some (inr (rdfjs.namedNode (objectDatatype c))))
  else rdfjs.literal (object c) None.

(** ** Hybrid search: Reciprocal Rank Fusion *)

Module rrf.

Local Open Scope Q_scope.

(** kb_chunks as the paper's query reads it. *)
Record Chunk : Type := {
  id : Z;
  term_id : option Z;
  text : string
}.

(** A row of [combined_scores]. *)
Record ScoreRow : Type := {
  rowid : Z;
  score : Q
}.

Record RankedResult : Type := {
  r_id : Z;
  r_term_id : option Z;
  r_text : string;
  rrf_score : Q
}.

(** A rank list maps chunk ids to ranks, rank 1 being the best. *)
Definition RankList : Type := list (Z * Z).

(** [1 / (k + rank)]; the constant and the ranks of a search are positive. *)
Definition reciprocal (k rank : Z) : Q := 1 / inject_Z (k + rank).

(** Modelled from the spec: [combined_scores], which the query reads and
    the paper does not define.  Each entry of each rank list gives one row
    scored [1 / (k + rank)], the summand of the paper's formula. *)
Definition combined_scores (k : Z) (fts vec : RankList) : list ScoreRow :=
  map (fun e => {| rowid := fst e; score := reciprocal k (snd e) |})
    (fts ++ vec).

(** FROM combined_scores s JOIN kb_chunks c ON s.rowid = c.id *)
Definition join (ss : list ScoreRow) (chunks : list Chunk)
  : list (ScoreRow * Chunk) :=
  flat_map
    (fun s => map (fun c => (s, c)) (filter (fun c => id c =? rowid s)%Z chunks))
    ss.

(** GROUP BY c.id with SUM(s.score): a joined row joins the group of its
    chunk id or opens a new one. *)
Fixpoint add_to_group (sc : ScoreRow * Chunk) (groups : list RankedResult)
  : list RankedResult :=
  let (s, c) := sc in
  match groups with
  | [] => [{| r_id := id c; r_term_id := term_id c; r_text := text c;
              rrf_score := score s |}]
  | g :: gs =>
      if (r_id g =? id c)%Z
      then {| r_id := r_id g; r_term_id := r_term_id g; r_text := r_text g;
              rrf_score := rrf_score g + score s |} :: gs
      else g :: add_to_group sc gs
  end.

Definition group_by_id (joined : list (ScoreRow * Chunk)) : list RankedResult :=
  fold_left (fun groups sc => add_to_group sc groups) joined [].

Definition grouped (k : Z) (fts vec : RankList) (chunks : list Chunk)
  : list RankedResult :=
  group_by_id (join (combined_scores k fts vec) chunks).

(** ORDER BY rrf_score DESC *)
Definition score_desc (a b : RankedResult) : Prop := rrf_score b <= rrf_score a.

(** The results the query may return: the groups, in any order that is
    descending in the score.  The query orders by nothing else. *)
Definition query_result (k : Z) (fts vec : RankList) (chunks : list Chunk)
    (out : list RankedResult) : Prop :=
  Permutation (grouped k fts vec chunks) out /\ StronglySorted score_desc out.

(** One such result, by insertion. *)
Fixpoint insert_desc (r : RankedResult) (l : list RankedResult)
  : list RankedResult :=
  match l with
  | [] => [r]
  | x :: l' =>
      if Qle_bool (rrf_score x) (rrf_score r) then r :: l
      else x :: insert_desc r l'
  end.

Definition order_by_score_desc (l : list RankedResult) : list RankedResult :=
  fold_right insert_desc [] l.

Definition search (k : Z) (fts vec : RankList) (chunks : list Chunk)
  : list RankedResult :=
  order_by_score_desc (grouped k fts vec chunks).

(** What one rank list contributes to a chunk: the reciprocal of its rank,
    or nothing when the chunk is not in the list. *)
Definition contribution (k : Z) (l : RankList) (x : Z) : Q :=
  match find (fun e => fst e =? x)%Z l with
  | Some e => reciprocal k (snd e)
  | None => 0
  end.

(** The order of the specification: descending score, and ascending chunk
    id among equal scores. *)
Definition spec_order (a b : RankedResult) : Prop :=
  rrf_score b < rrf_score a \/ (rrf_score a == rrf_score b /\ (r_id a < r_id b)%Z).

End rrf.

(** *** Vocabulary of the proofs *)

Definition StatementRow_eq_dec (a b : StatementRow) : {a = b} + {a <> b}.
Proof. repeat decide equality. Defined.

Definition present (v : StatementValues) (tbl : list StatementRow) : bool :=
  existsb (fun r => values_eqb (cols r) v) tbl.

(** [out] is [tbl] with some rows deleted and the others untouched. *)
Definition sub_table (out tbl : list StatementRow) : Prop :=
  exists keep, out = filter keep tbl.

(** [r] hangs off a row that went from [tbl] to [out] and that satisfied the
    trigger's WHEN. *)
Definition caused (tbl out : list StatementRow) (r : StatementRow) : Prop :=
  exists old, In old tbl /\ ~ In old out /\ trigger_when old = true
              /\ subject (cols r) = object (cols old).

(** Nothing left in [out] hangs off such a row. *)
Definition closed (tbl out : list StatementRow) : Prop :=
  forall old, In old tbl -> ~ In old out -> trigger_when old = true ->
  forall r, In r out -> subject (cols r) <> object (cols old).

(** The sum of [f] over the elements of [l] that satisfy [p]. *)
Definition sum_if {A : Type} (p : A -> bool) (f : A -> Q) (l : list A) : Q :=
  fold_right (fun a acc => ((if p a then f a else 0) + acc)%Q) 0%Q l.

(** *** Sample data *)

Module example.

Definition conn : Connection :=
  {| recursive_triggers := true; max_trigger_depth := 1000 |}.

(** The quad of the store's test. *)
Definition test_quad : rdfjs.Quad :=
  rdfjs.quad (rdfjs.namedNode "http://example.org/s1")
    (rdfjs.namedNode "http://example.org/p1")
    (rdfjs.literal "o1" None)
    (rdfjs.namedNode "http://example.org/g1").

(** The chain (A, p, _b1), (_b1, q, _b2), (_b2, r, "leaf"). *)
Definition chain_1 : rdfjs.Quad :=
  rdfjs.quad (rdfjs.namedNode "A") (rdfjs.namedNode "p")
    (rdfjs.blankNode "b1") (rdfjs.namedNode "g").
Definition chain_2 : rdfjs.Quad :=
  rdfjs.quad (rdfjs.blankNode "b1") (rdfjs.namedNode "q")
    (rdfjs.blankNode "b2") (rdfjs.namedNode "g").
Definition chain_3 : rdfjs.Quad :=
  rdfjs.quad (rdfjs.blankNode "b2") (rdfjs.namedNode "r")
    (rdfjs.literal "leaf" None) (rdfjs.namedNode "g").

Definition row (id : Z) (q : rdfjs.Quad) : StatementRow :=
  {| statementId := id; cols := statement_values q |}.

Definition chain_db : Db :=
  {| kb_statements := [row 1 chain_1; row 2 chain_2; row 3 chain_3];
     sqlite_sequence := 3 |}.

(** Two graphs: a blank node met as an object in g1 and as a subject
    in g2. *)
Definition g1_quad : rdfjs.Quad :=
  rdfjs.quad (rdfjs.namedNode "A") (rdfjs.namedNode "p")
    (rdfjs.blankNode "b1") (rdfjs.namedNode "g1").
Definition g2_quad : rdfjs.Quad :=
  rdfjs.quad (rdfjs.blankNode "b1") (rdfjs.namedNode "q")
    (rdfjs.literal "x" None) (rdfjs.namedNode "g2").
Definition g2_other : rdfjs.Quad :=
  rdfjs.quad (rdfjs.namedNode "C") (rdfjs.namedNode "p")
    (rdfjs.literal "y" None) (rdfjs.namedNode "g2").

Definition two_graphs_db : Db :=
  {| kb_statements := [row 1 g1_quad; row 2 g2_quad; row 3 g2_other];
     sqlite_sequence := 3 |}.

(** A literal row with a datatype, and one with neither language nor
    datatype. *)
Definition typed_row : StatementRow :=
  {| statementId := 1;
     cols := {| subject := "s"; predicate := "p"; object := "42"; graph := "g";
                termType := "Literal"; objectLanguage := "";
                objectDatatype := "http://www.w3.org/2001/XMLSchema#integer" |} |}.

Definition bare_row : StatementRow :=
  {| statementId := 1;
     cols := {| subject := "s"; predicate := "p"; object := "o"; graph := "g";
                termType := "Literal"; objectLanguage := "";
                objectDatatype := "" |} |}.

(** Chunks X, Y and Z, with the rank lists {X:1, Y:2} and {Y:1, Z:2}. *)
Definition chunk_X : rrf.Chunk := {| rrf.id := 1; rrf.term_id := Some 11; rrf.text := "x" |}.
Definition chunk_Y : rrf.Chunk := {| rrf.id := 2; rrf.term_id := Some 12; rrf.text := "y" |}.
Definition chunk_Z : rrf.Chunk := {| rrf.id := 3; rrf.term_id := Some 13; rrf.text := "z" |}.
Definition fts_ranks : rrf.RankList := [(1, 1); (2, 2)].
Definition vec_ranks : rrf.RankList := [(2, 1); (3, 2)].

Definition ranked (c : rrf.Chunk) (s : Q) : rrf.RankedResult :=
  {| rrf.r_id := rrf.id c; rrf.r_term_id := rrf.term_id c;
     rrf.r_text := rrf.text c; rrf.rrf_score := s |}.

End example.

(** ** The table kb_chunks and its full-text index *)

Module chunks.

Record ChunkRow : Type := {
  chunk_id : Z;
  statement_id : option Z;
  content : option string;
  embedding : option (list Byte.byte)   (* FLOAT32(512), as stored *)
}.

(** A document of kb_chunks_fts: the rowid and the text indexed under it. *)
Definition Document : Type := (Z * option string)%type.

Record ChunkDb : Type := {
  kb_chunks : list ChunkRow;
  kb_chunks_fts : list Document;
  chunk_sequence : Z
}.

Definition empty : ChunkDb :=
  {| kb_chunks := []; kb_chunks_fts := []; chunk_sequence := 0 |}.

Definition document (r : ChunkRow) : Document := (chunk_id r, content r).

Definition document_eqb (a b : Document) : bool :=
  (fst a =? fst b)
  && match snd a, snd b with
     | Some x, Some y => (x =? y)%string
     | None, None => true
     | _, _ => false
     end.

(** INSERT INTO kb_chunks_fts(rowid, content) VALUES (rowid, content) *)
Definition fts_insert (d : Document) (idx : list Document) : list Document :=
  idx ++ [d].

(** INSERT INTO kb_chunks_fts(kb_chunks_fts, rowid, content)
    VALUES ('delete', rowid, content): the document goes out of the index;
    [None] when the index has no such document, which leaves a full-text
    index inconsistent. *)
Fixpoint fts_delete (d : Document) (idx : list Document)
  : option (list Document) :=
  match idx with
  | [] => None
  | x :: idx' =>
      if document_eqb x d then Some idx'
      else match fts_delete d idx' with
           | Some rest => Some (x :: rest)
           | None => None
           end
  end.

(** The triggers kb_chunks_ai, kb_chunks_ad and kb_chunks_au. *)
Definition kb_chunks_ai (new : ChunkRow) (idx : list Document)
  : option (list Document) :=
  Some (fts_insert (document new) idx).

Definition kb_chunks_ad (old : ChunkRow) (idx : list Document)
  : option (list Document) :=
  fts_delete (document old) idx.

Definition kb_chunks_au (old new : ChunkRow) (idx : list Document)
  : option (list Document) :=
  match fts_delete (document old) idx with
  | Some idx' => Some (fts_insert (document new) idx')
  | None => None
  end.

Definition has_id (id : Z) (r : ChunkRow) : bool := chunk_id r =? id.

Definition max_id (tbl : list ChunkRow) : Z :=
  fold_right (fun r m => Z.max (chunk_id r) m) 0 tbl.

(** The row of an INSERT that leaves chunk_id to AUTOINCREMENT, with its
    trigger. *)
Definition insert_row (sid : option Z) (c : option string)
    (e : option (list Byte.byte)) (db : ChunkDb) : option ChunkDb :=
  let id := Z.max (chunk_sequence db) (max_id (kb_chunks db)) + 1 in
  let new := {| chunk_id := id; statement_id := sid; content := c;
                embedding := e |} in
  match kb_chunks_ai new (kb_chunks_fts db) with
  | Some idx =>
      Some {| kb_chunks := kb_chunks db ++ [new]; kb_chunks_fts := idx;
              chunk_sequence := id |}
  | None => None
  end.

(** One row of a DELETE, with its trigger. *)
Definition delete_row (id : Z) (db : ChunkDb) : option ChunkDb :=
  match find (has_id id) (kb_chunks db) with
  | None => Some db
  | Some old =>
      match kb_chunks_ad old (kb_chunks_fts db) with
      | Some idx =>
          Some {| kb_chunks := filter (fun r => negb (has_id id r)) (kb_chunks db);
                  kb_chunks_fts := idx;
                  chunk_sequence := chunk_sequence db |}
      | None => None
      end
  end.

(** The SET clause of an UPDATE that does not assign chunk_id: for each
    other column, the expression assigned to it, if any. *)
Record SetClause : Type := {
  set_statement_id : option (ChunkRow -> option Z);
  set_content : option (ChunkRow -> option string);
  set_embedding : option (ChunkRow -> option (list Byte.byte))
}.

Definition assign {A : Type} (e : option (ChunkRow -> A)) (old : ChunkRow)
    (a : A) : A :=
  match e with Some f => f old | None => a end.

(** The row an UPDATE writes. *)
Definition updated (set : SetClause) (old : ChunkRow) : ChunkRow :=
  {| chunk_id := chunk_id old;
     statement_id := assign (set_statement_id set) old (statement_id old);
     content := assign (set_content set) old (content old);
     embedding := assign (set_embedding set) old (embedding old) |}.

(** One row of an UPDATE, with its trigger. *)
Definition update_row (set : SetClause) (id : Z) (db : ChunkDb)
  : option ChunkDb :=
  match find (has_id id) (kb_chunks db) with
  | None => Some db
  | Some old =>
      match kb_chunks_au old (updated set old) (kb_chunks_fts db) with
      | Some idx =>
          Some {| kb_chunks :=
                    map (fun r => if has_id id r then updated set old else r)
                      (kb_chunks db);
                  kb_chunks_fts := idx;
                  chunk_sequence := chunk_sequence db |}
      | None => None
      end
  end.

Fixpoint each_row (step : Z -> ChunkDb -> option ChunkDb) (ids : list Z)
    (db : ChunkDb) : option ChunkDb :=
  match ids with
  | [] => Some db
  | id :: ids' =>
      match step id db with
      | Some db' => each_row step ids' db'
      | None => None
      end
  end.

Definition ids_where (cond : ChunkRow -> bool) (db : ChunkDb) : list Z :=
  map chunk_id (filter cond (kb_chunks db)).

(** FOREIGN KEY(statement_id) REFERENCES kb_statements(statement_id): the
    statement ids there are, and whether the connection enforces foreign
    keys ([PRAGMA foreign_keys]). *)
Record Parent : Type := {
  foreign_keys : bool;
  statement_ids : list Z
}.

(** NULL refers to nothing and is always allowed. *)
Definition references (p : Parent) (sid : option Z) : bool :=
  negb (foreign_keys p)
  || match sid with
     | Some i => existsb (Z.eqb i) (statement_ids p)
     | None => true
     end.

Inductive error : Type :=
| SQLITE_CONSTRAINT_FOREIGNKEY
| index_inconsistent.  (* a 'delete' command for a document not indexed *)

Definition after_triggers (r : option ChunkDb) : sum error ChunkDb :=
  match r with
  | Some db' => inr db'
  | None => inl index_inconsistent
  end.

(** INSERT INTO kb_chunks (statement_id, content, embedding) VALUES (...) *)
Definition insert_chunk (p : Parent) (sid : option Z) (c : option string)
    (e : option (list Byte.byte)) (db : ChunkDb) : sum error ChunkDb :=
  if references p sid then after_triggers (insert_row sid c e db)
  else inl SQLITE_CONSTRAINT_FOREIGNKEY.

(** DELETE FROM kb_chunks WHERE cond *)
Definition delete_chunks (cond : ChunkRow -> bool) (db : ChunkDb)
  : sum error ChunkDb :=
  after_triggers (each_row delete_row (ids_where cond db) db).

(** UPDATE kb_chunks SET ... WHERE cond; the foreign key is checked on the
    rows written when the SET clause assigns statement_id. *)
Definition update_chunks (p : Parent) (cond : ChunkRow -> bool)
    (set : SetClause) (db : ChunkDb) : sum error ChunkDb :=
  let checked :=
    match set_statement_id set with
    | Some f => forallb (fun old => references p (f old))
                  (filter cond (kb_chunks db))
    | None => true
    end in
  if checked
  then after_triggers (each_row (update_row set) (ids_where cond db) db)
  else inl SQLITE_CONSTRAINT_FOREIGNKEY.

(** ON DELETE CASCADE: the chunks of the statements [deleted] go with
    them, where the connection enforces foreign keys. *)
Definition on_delete_cascade (p : Parent) (deleted : list Z) (db : ChunkDb)
  : sum error ChunkDb :=
  if foreign_keys p then
    delete_chunks
      (fun r => match statement_id r with
                | Some i => existsb (Z.eqb i) deleted
                | None => false
                end) db
  else inr db.

(** The index holds the documents of the table, each once, and the chunk
    ids are a key. *)
Definition in_sync (db : ChunkDb) : Prop :=
  Permutation (map document (kb_chunks db)) (kb_chunks_fts db)
  /\ NoDup (map chunk_id (kb_chunks db)).

(** Two chunks, indexed. *)
Definition two_chunks : ChunkDb :=
  {| kb_chunks :=
       [{| chunk_id := 1; statement_id := Some 1; content := Some "spicy";
           embedding := None |};
        {| chunk_id := 2; statement_id := None; content := None;
           embedding := None |}];
     kb_chunks_fts := [(1, Some "spicy"); (2, None)];
     chunk_sequence := 2 |}.

(** A connection that enforces foreign keys, over the statements 1 to 3. *)
Definition enforcing : Parent :=
  {| foreign_keys := true; statement_ids := [1; 2; 3] |}.

(** SET content = 'mild' *)
Definition set_mild : SetClause :=
  {| set_statement_id := None; set_content := Some (fun _ => Some "mild");
     set_embedding := None |}.

End chunks.

(** ** The SDK: the guard isAccount *)

Module sdk.

(** JavaScript values as JSON carries them, and [undefined].  The guard
    does not look into a number.  An object has its properties in the order
    in which they were written.  An array has its elements and, being an
    object, may have properties of its own beside them. *)
#[warnings="-register-all"] Inductive JsValue : Type :=
| JsUndefined
| JsNull
| JsBoolean (b : bool)
| JsNumber (n : Z)
| JsString (s : string)
| JsArray (items : list JsValue) (props : list (string * JsValue))
| JsObject (props : list (string * JsValue)).

Definition typeof (v : JsValue) : string :=
  match v with
  | JsUndefined => "undefined"
  | JsNull => "object"
  | JsBoolean _ => "boolean"
  | JsNumber _ => "number"
  | JsString _ => "string"
  | JsArray _ _ => "object"
  | JsObject _ => "object"
  end.

Definition is_null (v : JsValue) : bool :=
  match v with JsNull => true | _ => false end.

(** The property [key] among [props]: a name written again replaces what
    it had, as in an object literal, in JSON text and under the spread
    syntax. *)
Fixpoint own (key : string) (props : list (string * JsValue))
  : option JsValue :=
  match props with
  | [] => None
  | (k, v) :: props' =>
      match own key props' with
      | Some w => Some w
      | None => if (k =? key)%string then Some v else None
      end
  end.

Definition lookup (key : string) (props : list (string * JsValue)) : JsValue :=
  match own key props with
  | Some v => v
  | None => JsUndefined
  end.

(** [v.key] on an object or an array; the guard reads properties of values
    it has found to be non-null objects, and none of the names it reads is
    an index. *)
Definition get (v : JsValue) (key : string) : JsValue :=
  match v with
  | JsObject props => lookup key props
  | JsArray items props =>
      if (key =? "length")%string then JsNumber (Z.of_nat (List.length items))
      else lookup key props
  | _ => JsUndefined
  end.

(** [v !== s] for a string literal [s] *)
Definition differs_from (v : JsValue) (s : string) : bool :=
  match v with
  | JsString t => negb (t =? s)%string
  | _ => true
  end.

Definition isArray (v : JsValue) : bool :=
  match v with JsArray _ _ => true | _ => false end.

(** [v.some(p)] on an array *)
Definition some (p : JsValue -> bool) (v : JsValue) : bool :=
  match v with JsArray items _ => existsb p items | _ => false end.

Definition isAccount (obj : JsValue) : bool :=
  if negb (typeof obj =? "object")%string || is_null obj then false else
  let account := obj in
  if negb (typeof (get account "id") =? "string")%string then false else
  if negb (typeof (get account "apiKey") =? "string")%string then false else
  if negb (typeof (get account "description") =? "string")%string then false else
  if differs_from (get account "plan") "free_plan"
     && differs_from (get account "plan") "pro_plan" then false else
  if negb (typeof (get account "accessControl") =? "object")%string
     || is_null (get account "accessControl") then false else
  if negb (isArray (get (get account "accessControl") "worlds")) then false else
  if some (fun w => negb (typeof w =? "string")%string)
       (get (get account "accessControl") "worlds") then false else
  true.

(** The interface Account. *)
Inductive AccountPlan : Type := free_plan | pro_plan.

Record AccountAccessControl : Type := { worlds : list string }.

Record Account : Type := {
  id : string;
  apiKey : string;
  description : string;
  plan : AccountPlan;
  accessControl : AccountAccessControl
}.

Definition plan_name (p : AccountPlan) : string :=
  match p with free_plan => "free_plan" | pro_plan => "pro_plan" end.

(** [v] has the properties of the account [a], with their types. *)
Definition represents (v : JsValue) (a : Account) : Prop :=
  typeof v = "object" /\ v <> JsNull /\
  get v "id" = JsString (id a) /\
  get v "apiKey" = JsString (apiKey a) /\
  get v "description" = JsString (description a) /\
  get v "plan" = JsString (plan_name (plan a)) /\
  typeof (get v "accessControl") = "object" /\
  get v "accessControl" <> JsNull /\
  exists props,
    get (get v "accessControl") "worlds"
      = JsArray (map JsString (worlds (accessControl a))) props.

(** The properties of an account. *)
Definition account_props (a : Account) : list (string * JsValue) :=
  [("id", JsString (id a)); ("apiKey", JsString (apiKey a));
   ("description", JsString (description a));
   ("plan", JsString (plan_name (plan a)));
   ("accessControl",
    JsObject [("worlds", JsArray (map JsString (worlds (accessControl a))) [])])].

(** The names the interface Account declares. *)
Definition account_keys : list string :=
  ["id"; "apiKey"; "description"; "plan"; "accessControl"].

(** The object of an account, as JSON.stringify and JSON.parse pass it on,
    with the further properties [more] written after its own. *)
Definition account_object (a : Account) (more : list (string * JsValue))
  : JsValue :=
  JsObject (account_props a ++ more).

(** The account of the SDK's test. *)
Definition mock_account : Account :=
  {| id := "acc_123"; apiKey := "sk_new_key"; description := "mock account";
     plan := free_plan; accessControl := {| worlds := [] |} |}.

End sdk.

(** ** The SDK: the HTTP client *)

Module client.

Record WorldsOptions : Type := { baseUrl : string; apiKey : string }.

(** A body is absent, a text, or the text JSON.stringify gives for a
    value.  The body of a response that is JSON text is a [Json]; as the
    body of a response, a [Text] is a text that is not JSON. *)
Inductive Body : Type :=
| NoBody
| Text (s : string)
| Json (v : sdk.JsValue).

Record Request : Type := {
  url : string;
  method : option string;
  headers : list (string * string);
  body : Body
}.

Record Response : Type := { status : Z; content : Body }.

(** [fetch], a global of the runtime that the SDK's test replaces. *)
Definition Fetch : Type := Request -> Response.

(** [response.ok] *)
Definition ok (r : Response) : bool := (200 <=? status r) && (status r <=? 299).

(** How a call ends: with the body read by [text()] or by [json()], with
    [null], with nothing, with the error [HTTP error! status: <status>], or
    with the SyntaxError of [json()]. *)
Inductive Outcome : Type :=
| ResolvedText (b : Body)
| ResolvedJson (b : Body)
| ResolvedNull
| ResolvedVoid
| Thrown (status : Z)
| ThrownSyntaxError.

(** [response.json()]: the value of a body that is JSON text, which is
    [null] for the text [null]; a SyntaxError on a body that is absent or
    is not JSON text. *)
Definition json (b : Body) : Outcome :=
  match b with
  | Json _ => ResolvedJson b
  | _ => ThrownSyntaxError
  end.

Definition authorization (o : WorldsOptions) : string * string :=
  ("Authorization", "Bearer " ++ apiKey o).

(** The methods of Worlds and InternalWorlds (sdk.ts), and the
    rotateAccountKey of sdk/internal-worlds.ts. *)
Inductive Call : Type :=
| getWorld (worldId encoding : string)
| setWorld (worldId world encoding : string)
| addQuads (worldId data encoding : string)
| removeWorld (worldId : string)
| queryWorld (worldId query : string)
| updateWorld (worldId update : string)
| updateMetadata (worldId : string) (metadata : sdk.JsValue)
| createAccount (account : sdk.Account)
| getAccount (accountId : string)
| updateAccount (account : sdk.Account)
| removeAccount (accountId : string)
| getWorldsByAccount (accountId : string)
| listAccounts
| rotateAccountKey (accountId : string)
| revokeAccountKey (accountId : string)
| rotateAccountKey_internal_worlds (accountId : string).

(** The request a method passes to [fetch]. *)
Definition request (o : WorldsOptions) (c : Call) : Request :=
  match c with
  | getWorld worldId encoding =>
      {| url := baseUrl o ++ "/worlds/" ++ worldId; method := None;
         headers := [authorization o; ("Accept", encoding)]; body := NoBody |}
  | setWorld worldId world encoding =>
      {| url := baseUrl o ++ "/worlds/" ++ worldId; method := Some "PUT";
         headers := [authorization o; ("Content-Type", encoding)];
         body := Text world |}
  | addQuads worldId data encoding =>
      {| url := baseUrl o ++ "/worlds/" ++ worldId; method := Some "POST";
         headers := [authorization o; ("Content-Type", encoding)];
         body := Text data |}
  | removeWorld worldId =>
      {| url := baseUrl o ++ "/worlds/" ++ worldId; method := Some "DELETE";
         headers := [authorization o]; body := NoBody |}
  | queryWorld worldId query =>
      {| url := baseUrl o ++ "/worlds/" ++ worldId ++ "/sparql";
         method := Some "POST";
         headers := [authorization o;
                     ("Content-Type", "application/sparql-query");
                     ("Accept", "application/sparql-results+json")];
         body := Text query |}
  | updateWorld worldId update =>
      {| url := baseUrl o ++ "/worlds/" ++ worldId ++ "/sparql";
         method := Some "POST";
         headers := [authorization o;
                     ("Content-Type", "application/sparql-update")];
         body := Text update |}
  | updateMetadata worldId metadata =>
      {| url := baseUrl o ++ "/worlds/" ++ worldId; method := Some "PATCH";
         headers := [authorization o; ("Content-Type", "application/json")];
         body := Json metadata |}
  | createAccount account =>
      {| url := baseUrl o ++ "/accounts"; method := Some "POST";
         headers := [authorization o; ("Content-Type", "application/json")];
         body := Json (sdk.account_object account []) |}
  | getAccount accountId =>
      {| url := baseUrl o ++ "/accounts/" ++ accountId; method := Some "GET";
         headers := [authorization o]; body := NoBody |}
  | updateAccount account =>
      {| url := baseUrl o ++ "/accounts/" ++ sdk.id account;
         method := Some "PUT";
         headers := [authorization o; ("Content-Type", "application/json")];
         body := Json (sdk.account_object account []) |}
  | removeAccount accountId =>
      {| url := baseUrl o ++ "/accounts/" ++ accountId; method := Some "DELETE";
         headers := [authorization o]; body := NoBody |}
  | getWorldsByAccount accountId =>
      {| url := baseUrl o ++ "/accounts/" ++ accountId ++ "/worlds";
         method := None; headers := [authorization o]; body := NoBody |}
  | listAccounts =>
      {| url := baseUrl o ++ "/accounts"; method := None;
         headers := [authorization o]; body := NoBody |}
  | rotateAccountKey accountId =>
      {| url := baseUrl o ++ "/accounts/" ++ accountId ++ "/key/rotate";
         method := Some "POST"; headers := [authorization o]; body := NoBody |}
  | revokeAccountKey accountId =>
      {| url := baseUrl o ++ "/accounts/" ++ accountId ++ "/key";
         method := Some "DELETE"; headers := [authorization o]; body := NoBody |}
  | rotateAccountKey_internal_worlds accountId =>
      {| url := baseUrl o ++ "/accounts/" ++ accountId ++ "/rotate";
         method := Some "POST"; headers := [authorization o]; body := NoBody |}
  end.

(** What a method makes of the response. *)
Definition respond (c : Call) (response : Response) : Outcome :=
  match c with
  | getWorld _ _ =>
      if status response =? 404 then ResolvedNull
      else if negb (ok response) then Thrown (status response)
      else ResolvedText (content response)
  | getAccount _ =>
      if negb (ok response) then
        if status response =? 404 then ResolvedNull
        else Thrown (status response)
      else json (content response)
  | queryWorld _ _ | createAccount _ | getWorldsByAccount _ | listAccounts
  | rotateAccountKey _ | rotateAccountKey_internal_worlds _ =>
      if negb (ok response) then Thrown (status response)
      else json (content response)
  | setWorld _ _ _ | addQuads _ _ _ | removeWorld _ | updateWorld _ _
  | updateMetadata _ _ | updateAccount _ | removeAccount _
  | revokeAccountKey _ =>
      if negb (ok response) then Thrown (status response) else ResolvedVoid
  end.

Definition run (fetch : Fetch) (o : WorldsOptions) (c : Call) : Outcome :=
  respond c (fetch (request o c)).

(** [s.endsWith(p)]: [p] is [s] or ends the rest of [s]. *)
Fixpoint endsWith (s p : string) : bool :=
  (s =? p)%string
  || match s with
     | String _ s' => endsWith s' p
     | EmptyString => false
     end.

(** The [fetch] of the SDK's test. *)
Definition mock_fetch : Fetch := fun r =>
  if endsWith (url r) "/key/rotate"
     && match method r with Some m => (m =? "POST")%string | None => false end
  then {| status := 200;
          content := Json (sdk.account_object sdk.mock_account []) |}
  else if endsWith (url r) "/key"
          && match method r with
             | Some m => (m =? "DELETE")%string
             | None => false
             end
  then {| status := 200; content := NoBody |}
  else {| status := 404; content := Text "Not Found" |}.

(** The calls that answer a missing resource with [null]. *)
Definition null_on_404 (c : Call) : bool :=
  match c with getWorld _ _ | getAccount _ => true | _ => false end.

(** The calls that read the body with [json()], and the one that reads it
    with [text()]. *)
Definition reads_json (c : Call) : bool :=
  match c with
  | queryWorld _ _ | createAccount _ | getAccount _ | getWorldsByAccount _
  | listAccounts | rotateAccountKey _ | rotateAccountKey_internal_worlds _ =>
      true
  | _ => false
  end.

Definition reads_text (c : Call) : bool :=
  match c with getWorld _ _ => true | _ => false end.

End client.

(** *** Number.prototype.toString *)

Module number.

Definition digit_char (d : Z) : ascii := ascii_of_nat (48 + Z.to_nat d).

(** The decimal digits of [n], written in front of [acc]. *)
Fixpoint to_decimal (fuel : nat) (n : Z) (acc : string) : string :=
  match fuel with
  | O => acc
  | S fuel' =>
      let acc' := String (digit_char (n mod 10)) acc in
      if n <? 10 then acc' else to_decimal fuel' (n / 10) acc'
  end.

(** [n.toString()] on an integer [n]: its decimal digits, after a minus
    sign when it is negative.  The fuel is the number of binary digits,
    which is not less than the number of decimal ones. *)
Definition toString (n : Z) : string :=
  if n <? 0
  then String "-" (to_decimal (S (Z.to_nat (Z.log2 (- n)))) (- n) "")
  else to_decimal (S (Z.to_nat (Z.log2 n))) n "".

End number.

(** Strings of decimal digits. *)
Definition is_digit (c : ascii) : bool :=
  match js.digit 10 c with Some _ => true | None => false end.

Fixpoint all_digits (s : string) : bool :=
  match s with
  | EmptyString => true
  | String c s' => is_digit c && all_digits s'
  end.

(** *** Histories of the store *)

(** [evolves db db']: the store's methods lead from [db] to [db']. *)
Inductive evolves (db : Db) : Db -> Prop :=
| ev_here : evolves db db
| ev_addStatements : forall mid qs db',
    evolves db mid -> addStatements qs mid = Ok db' -> evolves db db'
| ev_removeStatements : forall conn mid g db',
    evolves db mid -> removeStatements conn g mid = Ok db' -> evolves db db'
| ev_removeStatement : forall conn mid s db',
    evolves db mid -> removeStatement conn s mid = Ok db' -> evolves db db'.

(** No rowid is above the AUTOINCREMENT counter. *)
Definition counted (db : Db) : Prop :=
  forall r, In r (kb_statements db) ->
            0 < statementId r <= sqlite_sequence db.

(** ** JavaScript numbers *)

Module js_number.

(** A Number, as far as [parseInt] gives one: NaN, an integer that a double
    holds, or an infinity. *)
Inductive Number : Type :=
| NaN
| Finite (n : Z)
| Infinite (negative : bool).

Definition isNaN (x : Number) : bool :=
  match x with NaN => true | _ => false end.

(** The Number of an integer: the nearest double, ties to even.  Up to
    2^53 this is the integer; from 2^1024 - 2^970 on it is an infinity. *)
Definition of_integer (n : Z) : Number :=
  let a := Z.abs n in
  if a <? 2 ^ 53 then Finite n
  else
    let e := Z.log2 a - 52 in
    let q := a / 2 ^ e in
    let r := a mod 2 ^ e in
    let half := 2 ^ (e - 1) in
    let q' := if (r <? half) || ((r =? half) && Z.even q) then q else q + 1 in
    let m := q' * 2 ^ e in
    if m <? 2 ^ 1024 then Finite (Z.sgn n * m) else Infinite (n <? 0).

(** [parseInt(s)], the Number of the integer read.  (The language lets an
    implementation replace the decimal digits after the twentieth by zeros
    before it rounds; the integer is rounded as it is read here.) *)
Definition parseInt (s : string) : Number :=
  match js.parseInt s with
  | Some n => of_integer n
  | None => NaN
  end.

End js_number.

(** ** The data factory, as the store takes it *)

(** The store builds its terms with the data factory it is given, and with
    the one of oxigraph when it is given none.  A factory of RDF/JS builds
    the terms of the data model; it is free in the texts it refuses, by
    throwing, and in the way it writes a language tag. *)
Module factory.

Record DataFactory : Type := {
  iri : string -> bool;         (* the texts [namedNode] takes *)
  label : string -> bool;       (* the texts [blankNode] takes *)
  language_tag : string -> option string
                                (* the tag [literal] writes for a tag it is
                                   given; [None] when it refuses the tag *)
}.

(** [None] is a thrown exception. *)
Definition namedNode (df : DataFactory) (v : string) : option rdfjs.Term :=
  if iri df v then Some (rdfjs.NamedNode v) else None.

Definition blankNode (df : DataFactory) (v : string) : option rdfjs.Term :=
  if label df v then Some (rdfjs.BlankNode v) else None.

Definition literal (df : DataFactory) (v : string)
    (languageOrDatatype : string + rdfjs.Term) : option rdfjs.Term :=
  match languageOrDatatype with
  | inl lang =>
      match language_tag df lang with
      | Some tag => Some (rdfjs.Literal v tag rdfjs.rdf_langString)
      | None => None
      end
  | inr dt => Some (rdfjs.Literal v "" (rdfjs.value dt))
  end.

(** The factory of the data model, which refuses nothing and writes a tag
    as it is given ([rdfjs.namedNode], [rdfjs.blankNode],
    [rdfjs.literal]); the store's test builds its quads with such a one. *)
Definition data_model : DataFactory :=
  {| iri := fun _ => true; label := fun _ => true;
     language_tag := fun l => Some l |}.

Definition is_alpha (c : ascii) : bool :=
  let n := nat_of_ascii c in
  ((65 <=? n) && (n <=? 90) || (97 <=? n) && (n <=? 122))%nat.

Definition is_scheme_char (c : ascii) : bool :=
  let n := nat_of_ascii c in
  (is_alpha c || (48 <=? n) && (n <=? 57)
   || (n =? 43) || (n =? 45) || (n =? 46))%nat.

Fixpoint scheme_ends (s : string) : bool :=
  match s with
  | String c s' =>
      if Ascii.eqb c ":" then true
      else if is_scheme_char c then scheme_ends s' else false
  | EmptyString => false
  end.

(** [s] starts with the scheme of an absolute IRI: a letter, then letters,
    digits, [+], [-] or [.], then a colon. *)
Definition has_scheme (s : string) : bool :=
  match s with
  | String c s' => is_alpha c && scheme_ends s'
  | EmptyString => false
  end.

Definition lower_case (s : string) : string :=
  string_of_list_ascii (map to_lower (list_ascii_of_string s)).

(** A factory that validates: it refuses as an IRI a text without a scheme
    and as a blank-node label the empty text, and it writes language tags
    in lower case. *)
Definition validating : DataFactory :=
  {| iri := has_scheme; label := fun v => negb (v =? "")%string;
     language_tag := fun l => Some (lower_case l) |}.

End factory.

(** ** SqliteSearchStore over any data factory *)

Module store.

(** What a method of the store throws. *)
Inductive exception : Type :=
| FactoryError               (* the data factory refuses a text *)
| DriverError                (* the driver refuses a parameter *)
| SqlError (e : sql_error).

Inductive outcome (A : Type) : Type :=
| Returned (a : A)
| Threw (e : exception).

Arguments Returned {A} a.
Arguments Threw {A} e.

(** What the store is built on: its data factory, and a database driver
    that may or may not take a Number that is not finite as the parameter
    of a query. *)
Record Environment : Type := {
  df : factory.DataFactory;
  binds_non_finite : bool
}.

Notation "'do' x <- m ; k" :=
  (match m with Some x => k | None => None end)
  (at level 10, x name, m at level 100, k at level 200).

(** The row-to-quad mapping of [getStatements].  The calls of the factory
    are made in the order of the source, and the first one that throws ends
    the mapping; the right operand of [||] is evaluated when the language
    is empty only.  [quad] is given NamedNodes as subject, predicate and
    graph, and does not throw. *)
Definition decode_getStatements (df : factory.DataFactory) (row : StatementRow)
  : option rdfjs.Quad :=
  let c := cols row in
  do subject <- factory.namedNode df (subject c) ;
  do predicate <- factory.namedNode df (predicate c) ;
  do graph <- factory.namedNode df (graph c) ;
  do object <-
    (if (termType c =? "Literal")%string then
       (* literal(row.object,
                  row.objectLanguage || namedNode(row.objectDatatype)) *)
       match js.or_else (objectLanguage c) (objectDatatype c) with
       | inl language => factory.literal df (object c) (inl language)
       | inr datatype =>
           do datatype <- factory.namedNode df datatype ;
           factory.literal df (object c) (inr datatype)
       end
     else if (termType c =? "BlankNode")%string then
       do _ <- factory.namedNode df (object c) ;
       if js.startsWith (object c) "_:"
       then factory.blankNode df (js.slice (object c) 2)
       else factory.namedNode df (object c)
     else factory.namedNode df (object c)) ;
  Some (rdfjs.quad subject predicate object graph).

(** The row-to-quad mapping of [getStatement]. *)
Definition decode_getStatement (df : factory.DataFactory) (row : StatementRow)
  : option rdfjs.Quad :=
  let c := cols row in
  do subject <- factory.namedNode df (subject c) ;
  do predicate <- factory.namedNode df (predicate c) ;
  do graph <- factory.namedNode df (graph c) ;
  do object <-
    (if (termType c =? "Literal")%string then
       match js.or_else (objectLanguage c) (objectDatatype c) with
       | inl language => factory.literal df (object c) (inl language)
       | inr datatype =>
           do datatype <- factory.namedNode df datatype ;
           factory.literal df (object c) (inr datatype)
       end
     else factory.namedNode df (object c)) ;
  Some (rdfjs.quad subject predicate object graph).

(** [rows.map(decode)], which throws when [decode] throws on a row. *)
Fixpoint map_rows (decode : StatementRow -> option rdfjs.Quad)
    (rows : list StatementRow) : option (list rdfjs.Quad) :=
  match rows with
  | [] => Some []
  | row :: rows' =>
      do q <- decode row ;
      do qs <- map_rows decode rows' ;
      Some (q :: qs)
  end.

Definition getStatements (env : Environment) (graphId : string) (db : Db)
  : outcome (list rdfjs.Quad) :=
  let rows :=
    select_where (fun r => (graph (cols r) =? graphId)%string) db in
  match map_rows (decode_getStatements (df env)) rows with
  | Some quads => Returned quads
  | None => Threw FactoryError
  end.

(** Whether the driver takes [id] as the parameter of a query. *)
Definition binds (env : Environment) (id : js_number.Number) : bool :=
  match id with
  | js_number.Finite _ => true
  | _ => binds_non_finite env
  end.

(** [statement_id = id]; no rowid equals a Number that is not an integer. *)
Definition eq_statementId (id : js_number.Number) (r : StatementRow) : bool :=
  match id with
  | js_number.Finite n => has_rowid n r
  | _ => false
  end.

(** [None] is JavaScript's [null]. *)
Definition getStatement (env : Environment) (statementId : string) (db : Db)
  : outcome (option rdfjs.Quad) :=
  let id := js_number.parseInt statementId in
  if js_number.isNaN id then Returned None
  else if negb (binds env id) then Threw DriverError
  else
    let rows := firstn 1 (select_where (eq_statementId id) db) in
    match rows with
    | [] => Returned None
    | row :: _ =>
        match decode_getStatement (df env) row with
        | Some q => Returned (Some q)
        | None => Threw FactoryError
        end
    end.

Definition removeStatements (conn : Connection) (graphId : string) (db : Db)
  : outcome Db :=
  match delete_where conn (fun r => (graph (cols r) =? graphId)%string) db with
  | inr db' => Returned db'
  | inl e => Threw (SqlError e)
  end.

Definition removeStatement (env : Environment) (conn : Connection)
    (statementId : string) (db : Db) : outcome Db :=
  let id := js_number.parseInt statementId in
  if js_number.isNaN id then Returned db
  else if negb (binds env id) then Threw DriverError
  else
    match delete_where conn (eq_statementId id) db with
    | inr db' => Returned db'
    | inl e => Threw (SqlError e)
    end.

(** The factory takes the quad [q] as it stands: it takes the texts of its
    subject, predicate and graph as IRIs, and the text of a NamedNode
    object, the datatype of a literal without a language, and the language
    tag of a literal in the very form it is given. *)
Definition accepts (df : factory.DataFactory) (q : rdfjs.Quad) : bool :=
  factory.iri df (rdfjs.value (rdfjs.subject q))
  && factory.iri df (rdfjs.value (rdfjs.predicate q))
  && factory.iri df (rdfjs.value (rdfjs.graph q))
  && match rdfjs.object q with
     | rdfjs.NamedNode v => factory.iri df v
     | rdfjs.Literal _ l d =>
         if (l =? "")%string then factory.iri df d
         else match factory.language_tag df l with
              | Some tag => (tag =? l)%string
              | None => false
              end
     | _ => false
     end.

(** The object that the Literal branch of both decoders builds, and the
    object that [getStatements] builds on a row that is not a literal, with
    the calls of the factory written out. *)
Definition literal_object (df : factory.DataFactory) (c : StatementValues)
  : option rdfjs.Term :=
  if (objectLanguage c =? "")%string then
    if factory.iri df (objectDatatype c)
    then Some (rdfjs.Literal (object c) "" (objectDatatype c)) else None
  else match factory.language_tag df (objectLanguage c) with
       | Some tag => Some (rdfjs.Literal (object c) tag rdfjs.rdf_langString)
       | None => None
       end.

Definition node_object (df : factory.DataFactory) (c : StatementValues)
  : option rdfjs.Term :=
  if factory.iri df (object c) then
    if (termType c =? "BlankNode")%string && js.startsWith (object c) "_:"
    then factory.blankNode df (js.slice (object c) 2)
    else Some (rdfjs.NamedNode (object c))
  else None.

(** A store on the factory of the data model, and one on a validating
    factory, over a driver that refuses a Number that is not finite. *)
Definition plain : Environment :=
  {| df := factory.data_model; binds_non_finite := false |}.

Definition strict : Environment :=
  {| df := factory.validating; binds_non_finite := false |}.

End store.

(** *** More sample data *)

Module sample.

(** A table without blank nodes or skolem IRIs. *)
Definition plain_db : Db :=
  {| kb_statements := [example.row 1 example.test_quad;
                       example.row 2 example.g2_other];
     sqlite_sequence := 2 |}.

(** A row whose object is a blank node written with its [_:] prefix. *)
Definition prefixed_row : StatementRow :=
  {| statementId := 1;
     cols := {| subject := "s"; predicate := "p"; object := "_:b1"; graph := "g";
                termType := "BlankNode"; objectLanguage := "";
                objectDatatype := "" |} |}.

(** A quad with a typed literal, in graph g2. *)
Definition typed_quad : rdfjs.Quad :=
  rdfjs.quad (rdfjs.namedNode "S") (rdfjs.namedNode "p")
    (rdfjs.literal "42"
       (Some (inr (rdfjs.namedNode "http://www.w3.org/2001/XMLSchema#integer"))))
    (rdfjs.namedNode "g2").

(** A literal with a language tag in mixed case, and the same literal with
    the tag in lower case. *)
Definition tagged_quad : rdfjs.Quad :=
  rdfjs.quad (rdfjs.namedNode "http://example.org/s")
    (rdfjs.namedNode "http://example.org/p")
    (rdfjs.literal "Hi" (Some (inl "EN-us")))
    (rdfjs.namedNode "http://example.org/g").

Definition tagged_lower : rdfjs.Quad :=
  rdfjs.quad (rdfjs.namedNode "http://example.org/s")
    (rdfjs.namedNode "http://example.org/p")
    (rdfjs.literal "Hi" (Some (inl "en-us")))
    (rdfjs.namedNode "http://example.org/g").

Definition named_quad : rdfjs.Quad :=
  rdfjs.quad (rdfjs.namedNode "http://example.org/s")
    (rdfjs.namedNode "http://example.org/p")
    (rdfjs.namedNode "http://example.org/o")
    (rdfjs.namedNode "http://example.org/g").

Fixpoint zeros (n : nat) : string :=
  match n with
  | O => EmptyString
  | S n' => String "0" (zeros n')
  end.

(** The decimal text of 10^309, which no double holds. *)
Definition huge_id : string := String "1" (zeros 309).

(** A connection as SQLite opens it: recursive triggers are off. *)
Definition default_conn : Connection :=
  {| recursive_triggers := false; max_trigger_depth := 1000 |}.

End sample.

(** * Properties *)

Local Open Scope list_scope.

(** ** The helpers on examples *)

Example parseInt_examples :
  js.parseInt "7" = Some 7 /\ js.parseInt "  42" = Some 42
  /\ js.parseInt "12abc" = Some 12 /\ js.parseInt "-3" = Some (-3)
  /\ js.parseInt "0x1F" = Some 31 /\ js.parseInt "1e3" = Some 1
  /\ js.parseInt "" = None /\ js.parseInt "abc" = None
  /\ js.parseInt "0x" = None /\ js.parseInt "-" = None.
Proof. repeat split. Qed.

(** White space that is not ASCII is skipped, an integer above 2^53 is
    rounded to the nearest double, and the decimal text of 10^309 gives
    Infinity. *)
Example parseInt_number_examples :
  js_number.parseInt (js.bytes [194; 160; 49]%nat) = js_number.Finite 1
  /\ js_number.parseInt "9007199254740993" = js_number.Finite 9007199254740992
  /\ js_number.parseInt "9007199254740995" = js_number.Finite 9007199254740996
  /\ js_number.parseInt "-12px" = js_number.Finite (-12)
  /\ js_number.parseInt "px" = js_number.NaN
  /\ js_number.parseInt sample.huge_id = js_number.Infinite false.
Proof. repeat split; vm_compute; reflexivity. Qed.

(** The validating factory takes an absolute IRI and refuses a text without
    a scheme, the text of a blank node among them. *)
Example validating_examples :
  factory.namedNode factory.validating "http://example.org/s1"
    = Some (rdfjs.NamedNode "http://example.org/s1")
  /\ factory.namedNode factory.validating "A" = None
  /\ factory.namedNode factory.validating "" = None
  /\ factory.namedNode factory.validating "_:b1" = None
  /\ factory.literal factory.validating "Hi" (inl "EN-us")
     = Some (rdfjs.Literal "Hi" "en-us" rdfjs.rdf_langString).
Proof. repeat split. Qed.

Example trigger_when_examples :
  trigger_when (example.row 1 example.chain_1) = true
  /\ trigger_when (example.row 3 example.chain_3) = false
  /\ like_prefix "urn:uuid:" "URN:UUID:0a1b" = true
  /\ like_prefix ".well-known/genid/" ".well-known/genid" = false.
Proof. repeat split. Qed.

(** The steps of the store's test: a quad is added and read back, a graph
    is removed, a statement is removed by its id. *)
Example test_addStatement_getStatements :
  exists db, addStatement example.test_quad empty_db = Ok db /\
             getStatements "http://example.org/g1" db = [example.test_quad].
Proof. eexists. split; reflexivity. Qed.

Example test_removeStatements :
  exists db db',
    addStatements [example.test_quad; example.g1_quad] empty_db = Ok db /\
    removeStatements example.conn "http://example.org/g1" db = Ok db' /\
    getStatements "http://example.org/g1" db' = [] /\
    List.length (getStatements "g1" db') = 1%nat.
Proof. do 2 eexists. repeat split; vm_compute; reflexivity. Qed.

Example test_removeStatement_by_id :
  exists db db',
    addStatement example.test_quad empty_db = Ok db /\
    removeStatement example.conn "1" db = Ok db' /\
    getStatements "http://example.org/g1" db' = [].
Proof. do 2 eexists. repeat split; vm_compute; reflexivity. Qed.

(** A plain INSERT raises on a duplicate; the store's INSERT does not. *)
Example duplicate_insert :
  insert_values OnConflictAbort
    [statement_values example.test_quad; statement_values example.test_quad]
    empty_db = Err SQLITE_CONSTRAINT_UNIQUE
  /\ exists db,
       insert_values OnConflictDoNothing
         [statement_values example.test_quad; statement_values example.test_quad]
         empty_db = Ok db
       /\ List.length (kb_statements db) = 1%nat.
Proof. split; [reflexivity|]. eexists. split; reflexivity. Qed.

(** ** The error monad *)

Lemma bind_Ok {A B : Type} (m : result A) (k : A -> result B) (b : B) :
  bind m k = Ok b -> exists a, m = Ok a /\ k a = Ok b.
Proof. destruct m as [e | a]; simpl; [discriminate | eauto]. Qed.

Ltac inv_bind H :=
  let a := fresh "a" in
  let Ha := fresh "Ha" in
  apply bind_Ok in H; destruct H as (a & Ha & H).

Ltac inv_Ok H := unfold Ok in H; injection H as H.

(** ** Keys and rowids *)

Lemma values_eqb_eq (a b : StatementValues) : values_eqb a b = true <-> a = b.
Proof.
  unfold values_eqb. rewrite !andb_true_iff, !String.eqb_eq. split.
  - destruct a, b; simpl. intros [[[[[[-> ->] ->] ->] ->] ->] ->]. reflexivity.
  - intros ->. repeat split.
Qed.

Lemma present_iff (v : StatementValues) (tbl : list StatementRow) :
  present v tbl = true <-> exists r, In r tbl /\ cols r = v.
Proof.
  unfold present. rewrite existsb_exists.
  split; intros (r & Hr & E); exists r; split; auto; now apply values_eqb_eq.
Qed.

Lemma present_app (v : StatementValues) (l1 l2 : list StatementRow) :
  present v l1 = true -> present v (l1 ++ l2) = true.
Proof. unfold present. rewrite existsb_app. now intros ->. Qed.

Lemma max_rowid_ge (tbl : list StatementRow) (r : StatementRow) :
  In r tbl -> statementId r <= max_rowid tbl.
Proof.
  induction tbl as [|a tbl IH]; simpl; [tauto|].
  intros [-> | H]; [lia | specialize (IH H); lia].
Qed.

Lemma StronglySorted_snoc {A : Type} (R : A -> A -> Prop) (l : list A) (a : A) :
  StronglySorted R l -> Forall (fun x => R x a) l -> StronglySorted R (l ++ [a]).
Proof.
  induction 1 as [|x l Hs IH Hx]; simpl; intros Hf.
  - repeat constructor.
  - inversion Hf; subst. constructor; [auto|].
    apply Forall_app; split; [assumption | repeat constructor; assumption].
Qed.

Lemma StronglySorted_filter {A : Type} (R : A -> A -> Prop) (f : A -> bool)
    (l : list A) :
  StronglySorted R l -> StronglySorted R (filter f l).
Proof.
  induction 1 as [|x l Hs IH Hx]; simpl; [constructor|].
  destruct (f x); [constructor|]; auto.
  rewrite Forall_forall in *. intros y Hy. apply Hx.
  apply filter_In in Hy. tauto.
Qed.

Lemma filter_none {A : Type} (f : A -> bool) (l : list A) :
  (forall x, In x l -> f x = false) -> filter f l = [].
Proof.
  induction l as [|a l IH]; simpl; intros H; [reflexivity|].
  rewrite (H a) by now left. auto.
Qed.

(** In a table sorted by rowid, a rowid selects its row and no other. *)
Lemma filter_has_rowid (tbl : list StatementRow) (r : StatementRow) :
  StronglySorted rowid_lt tbl -> In r tbl ->
  filter (has_rowid (statementId r)) tbl = [r].
Proof.
  induction 1 as [|a tbl Hs IH Ha]; simpl; [tauto|].
  rewrite Forall_forall in Ha. unfold has_rowid at 1.
  intros [-> | Hin].
  - rewrite Z.eqb_refl. f_equal. apply filter_none.
    intros y Hy. specialize (Ha y Hy). unfold rowid_lt in Ha.
    unfold has_rowid. apply Z.eqb_neq. lia.
  - specialize (Ha r Hin). unfold rowid_lt in Ha.
    destruct (Z.eqb_spec (statementId a) (statementId r)); [lia | auto].
Qed.

(** ** INSERT ... ON CONFLICT DO NOTHING *)

Lemma insert_row_DoNothing (v : StatementValues) (db : Db) :
  exists db',
    insert_row OnConflictDoNothing v db = Ok db' /\
    ((present v (kb_statements db) = true /\
      kb_statements db' = kb_statements db) \/
     (present v (kb_statements db) = false /\
      exists id, max_rowid (kb_statements db) < id /\
        kb_statements db' =
          kb_statements db ++ [{| statementId := id; cols := v |}])).
Proof.
  unfold insert_row. fold (present v (kb_statements db)).
  destruct (present v (kb_statements db)); eexists; split; try reflexivity.
  - left; auto.
  - right; split; [reflexivity|]. eexists; split; [|reflexivity]. lia.
Qed.

Lemma insert_row_wf (v : StatementValues) (db db' : Db) :
  insert_row OnConflictDoNothing v db = Ok db' -> wf_db db -> wf_db db'.
Proof.
  intros H Hwf.
  destruct (insert_row_DoNothing v db) as (db1 & E & [[_ R] | [_ (id & Hid & R)]]);
    rewrite E in H; inv_Ok H; subst db1; unfold wf_db; rewrite R; [assumption|].
  apply StronglySorted_snoc; [assumption|].
  apply Forall_forall. intros r Hr. apply max_rowid_ge in Hr.
  unfold rowid_lt; simpl. lia.
Qed.

Lemma insert_row_unique (v : StatementValues) (db db' : Db) :
  insert_row OnConflictDoNothing v db = Ok db' -> unique_key db -> unique_key db'.
Proof.
  intros H Hu.
  destruct (insert_row_DoNothing v db) as (db1 & E & [[_ R] | [P (id & _ & R)]]);
    rewrite E in H; inv_Ok H; subst db1; unfold unique_key; rewrite R;
    [assumption|].
  rewrite map_app; simpl.
  apply NoDup_rev in Hu. rewrite <- (rev_involutive (_ ++ _)).
  apply NoDup_rev. rewrite rev_app_distr; simpl. constructor; [|assumption].
  rewrite <- in_rev, in_map_iff. intros (r & Hc & Hr).
  assert (present v (kb_statements db) = true) by (apply present_iff; eauto).
  congruence.
Qed.

(** A batch always goes through; it appends rows for values of the batch
    and leaves every value of the batch present. *)
Lemma insert_values_DoNothing (vs : list StatementValues) (db : Db) :
  exists db',
    insert_values OnConflictDoNothing vs db = Ok db' /\
    (exists news, kb_statements db' = kb_statements db ++ news /\
                  Forall (fun r => In (cols r) vs) news) /\
    (forall v, In v vs -> present v (kb_statements db') = true).
Proof.
  revert db. induction vs as [|v vs IH]; intros db; simpl.
  - exists db. split; [reflexivity|]. split; [|tauto].
    exists []. now rewrite app_nil_r.
  - destruct (insert_row_DoNothing v db) as (db1 & E & Hrow). rewrite E; simpl.
    destruct (IH db1) as (db' & E' & (news & Hn & Hf) & Hp).
    exists db'. split; [assumption|]. split.
    + destruct Hrow as [[_ R] | [_ (id & _ & R)]]; rewrite R in Hn.
      * exists news. split; [assumption|].
        eapply Forall_impl; [|exact Hf]. simpl; auto.
      * eexists. rewrite <- app_assoc in Hn. split; [exact Hn|].
        constructor; [simpl; auto|].
        eapply Forall_impl; [|exact Hf]. simpl; auto.
    + intros w [<- | Hw]; [|auto].
      rewrite Hn. apply present_app.
      destruct Hrow as [[P R] | [_ (id & _ & R)]]; rewrite R; [assumption|].
      apply present_iff. eexists; split; [apply in_or_app; right; left; reflexivity|].
      reflexivity.
Qed.

(** A batch whose values are all present changes no row. *)
Lemma insert_values_present (vs : list StatementValues) (db : Db) :
  (forall v, In v vs -> present v (kb_statements db) = true) ->
  exists db', insert_values OnConflictDoNothing vs db = Ok db' /\
              kb_statements db' = kb_statements db.
Proof.
  revert db. induction vs as [|v vs IH]; intros db Hp; simpl.
  - eauto.
  - destruct (insert_row_DoNothing v db) as (db1 & E & [[_ R] | [P _]]).
    + rewrite E; simpl. destruct (IH db1) as (db' & E' & R').
      * intros w Hw. rewrite R. apply Hp. now right.
      * exists db'. split; congruence.
    + rewrite Hp in P by now left. discriminate.
Qed.

Lemma insert_values_wf (vs : list StatementValues) (db db' : Db) :
  insert_values OnConflictDoNothing vs db = Ok db' -> wf_db db -> wf_db db'.
Proof.
  revert db. induction vs as [|v vs IH]; intros db H Hwf; simpl in H.
  - inv_Ok H. now subst.
  - inv_bind H. eauto using insert_row_wf.
Qed.

Lemma insert_values_unique (vs : list StatementValues) (db db' : Db) :
  insert_values OnConflictDoNothing vs db = Ok db' ->
  unique_key db -> unique_key db'.
Proof.
  revert db. induction vs as [|v vs IH]; intros db H Hu; simpl in H.
  - inv_Ok H. now subst.
  - inv_bind H. eauto using insert_row_unique.
Qed.

Lemma addStatements_insert (qs : list rdfjs.Quad) (db : Db) :
  addStatements qs db =
  insert_values OnConflictDoNothing (map statement_values qs) db.
Proof. destruct qs; reflexivity. Qed.

Lemma count_key_unique (v : StatementValues) (db : Db) :
  unique_key db -> present v (kb_statements db) = true -> count_key v db = 1%nat.
Proof.
  unfold unique_key, count_key, present.
  induction (kb_statements db) as [|a tbl IH]; simpl; [discriminate|].
  intros Hu Hp. inversion Hu as [|? ? Hn Hu']; subst.
  destruct (values_eqb (cols a) v) eqn:E; simpl.
  - f_equal. apply values_eqb_eq in E.
    rewrite filter_none; [reflexivity|]. intros r Hr.
    destruct (values_eqb (cols r) v) eqn:E'; [|reflexivity].
    apply values_eqb_eq in E'. exfalso. apply Hn.
    apply in_map_iff. exists r. split; congruence.
  - auto.
Qed.

(** ** DELETE and the cascade *)

Lemma sub_table_refl (tbl : list StatementRow) : sub_table tbl tbl.
Proof. exists (fun _ => true). symmetry. apply filter_true. Qed.

Lemma filter_filter {A : Type} (f g : A -> bool) (l : list A) :
  filter g (filter f l) = filter (fun x => f x && g x) l.
Proof.
  induction l as [|a l IH]; simpl; [reflexivity|].
  destruct (f a); simpl; [destruct (g a)|]; now rewrite IH.
Qed.

Lemma sub_table_trans (t1 t2 t3 : list StatementRow) :
  sub_table t3 t2 -> sub_table t2 t1 -> sub_table t3 t1.
Proof.
  intros [k2 ->] [k1 ->]. eexists. apply filter_filter.
Qed.

Lemma sub_table_In (out tbl : list StatementRow) (r : StatementRow) :
  sub_table out tbl -> In r out -> In r tbl.
Proof. intros [k ->] H. apply filter_In in H. tauto. Qed.

Lemma filter_length_le {A : Type} (f : A -> bool) (l : list A) :
  (List.length (filter f l) <= List.length l)%nat.
Proof. induction l as [|a l IH]; simpl; [|destruct (f a); simpl]; lia. Qed.

Lemma sub_table_length (out tbl : list StatementRow) :
  sub_table out tbl -> (List.length out <= List.length tbl)%nat.
Proof. intros [k ->]. apply filter_length_le. Qed.

Lemma sub_table_sorted (out tbl : list StatementRow) :
  sub_table out tbl -> StronglySorted rowid_lt tbl -> StronglySorted rowid_lt out.
Proof. intros [k ->]. apply StronglySorted_filter. Qed.

Lemma sub_table_delete_rowid (id : Z) (tbl : list StatementRow) :
  sub_table (delete_rowid id tbl) tbl.
Proof. eexists; reflexivity. Qed.

Lemma delete_rowid_In (id : Z) (tbl : list StatementRow) (r : StatementRow) :
  In r (delete_rowid id tbl) <-> In r tbl /\ statementId r <> id.
Proof.
  unfold delete_rowid. rewrite filter_In, negb_true_iff.
  unfold has_rowid. now rewrite Z.eqb_neq.
Qed.

Lemma delete_rowid_length (id : Z) (tbl : list StatementRow) (old : StatementRow) :
  In old tbl -> statementId old = id ->
  (List.length (delete_rowid id tbl) < List.length tbl)%nat.
Proof.
  unfold delete_rowid, has_rowid.
  induction tbl as [|a tbl IH]; simpl; [tauto|]. intros [-> | H] E.
  - rewrite E, Z.eqb_refl; simpl.
    pose proof (filter_length_le (fun r => negb (statementId r =? id)) tbl). lia.
  - specialize (IH H E). destruct (negb _); simpl; lia.
Qed.

Lemma find_has_rowid (id : Z) (tbl : list StatementRow) (old : StatementRow) :
  find (has_rowid id) tbl = Some old -> In old tbl /\ statementId old = id.
Proof.
  intros H. apply find_some in H. unfold has_rowid in H.
  now rewrite Z.eqb_eq in H.
Qed.

Lemma rowid_unique (tbl : list StatementRow) (a b : StatementRow) :
  StronglySorted rowid_lt tbl -> In a tbl -> In b tbl ->
  statementId a = statementId b -> a = b.
Proof.
  intros Hs Ha Hb E.
  pose proof (filter_has_rowid tbl a Hs Ha) as F.
  assert (In b (filter (has_rowid (statementId a)) tbl)) as Hin.
  { apply filter_In. split; [assumption|]. unfold has_rowid. now apply Z.eqb_eq. }
  rewrite F in Hin. destruct Hin as [<- | []]. reflexivity.
Qed.

Lemma rowids_where_In (cond : StatementRow -> bool) (tbl : list StatementRow)
    (r : StatementRow) :
  StronglySorted rowid_lt tbl -> In r tbl ->
  (In (statementId r) (rowids_where cond tbl) <-> cond r = true).
Proof.
  intros Hs Hr. unfold rowids_where. rewrite in_map_iff. split.
  - intros (r' & E & Hr'). apply filter_In in Hr'. destruct Hr' as [Hr' Hc].
    now rewrite <- (rowid_unique tbl r' r Hs Hr' Hr E).
  - intros Hc. exists r. split; [reflexivity|]. apply filter_In. auto.
Qed.

Section DeleteEach.

Variable after_delete : StatementRow -> list StatementRow
                        -> result (list StatementRow).

Hypothesis after_sub : forall old tbl out,
  after_delete old tbl = Ok out -> sub_table out tbl.

Lemma delete_each_sub (ids : list Z) (tbl out : list StatementRow) :
  delete_each after_delete ids tbl = Ok out -> sub_table out tbl.
Proof.
  revert tbl. induction ids as [|id ids IH]; intros tbl H; simpl in H.
  - inv_Ok H. subst. apply sub_table_refl.
  - destruct (find (has_rowid id) tbl) as [old|]; [|auto].
    inv_bind H.
    eapply sub_table_trans; [eauto|].
    eapply sub_table_trans; [eauto|]. apply sub_table_delete_rowid.
Qed.

(** Every row that goes was selected or hangs off a deleted row that
    satisfied the trigger's WHEN. *)
Hypothesis after_cause : forall old tbl out,
  StronglySorted rowid_lt tbl -> after_delete old tbl = Ok out ->
  forall r, In r tbl -> ~ In r out ->
    (trigger_when old = true /\ subject (cols r) = object (cols old))
    \/ caused tbl out r.

Lemma delete_each_cause (ids : list Z) (tbl out : list StatementRow) :
  StronglySorted rowid_lt tbl ->
  delete_each after_delete ids tbl = Ok out ->
  forall r, In r tbl -> ~ In r out ->
    In (statementId r) ids \/ caused tbl out r.
Proof.
  revert tbl. induction ids as [|id ids IH]; intros tbl Hs H r Hr Hn; simpl in H.
  - inv_Ok H. subst. contradiction.
  - destruct (find (has_rowid id) tbl) as [old|] eqn:F.
    + inv_bind H.
      apply find_has_rowid in F. destruct F as [Hold Hid].
      pose proof (sub_table_delete_rowid id tbl) as S1.
      pose proof (after_sub _ _ _ Ha) as S2.
      pose proof (delete_each_sub _ _ _ H) as S3.
      pose proof (sub_table_sorted _ _ S1 Hs) as Hs1.
      pose proof (sub_table_sorted _ _ S2 Hs1) as Hs2.
      destruct (Z.eq_dec (statementId r) id) as [E | NE]; [left; now left|].
      assert (In r (delete_rowid id tbl)) as Hr1 by (apply delete_rowid_In; auto).
      destruct (in_dec StatementRow_eq_dec r a) as [Hr2 | Hn2].
      * destruct (IH a Hs2 H r Hr2 Hn) as [Hi | (o & Ho & Hno & Ht & Hso)].
        -- left; now right.
        -- right. exists o. repeat split; eauto using sub_table_In.
      * right.
        destruct (after_cause _ _ _ Hs1 Ha r Hr1 Hn2)
          as [[Ht Hso] | (o & Ho & Hno & Ht & Hso)].
        -- exists old. repeat split; auto. intros Hin.
           apply (sub_table_In _ _ _ S3), (sub_table_In _ _ _ S2) in Hin.
           apply delete_rowid_In in Hin. tauto.
        -- exists o. repeat split; eauto using sub_table_In.
    + destruct (IH tbl Hs H r Hr Hn); [left; now right | now right].
Qed.

(** Under recursive triggers: nothing selected stays, and nothing stays
    that hangs off a deleted row satisfying the trigger's WHEN. *)
Hypothesis after_complete : forall old tbl out,
  StronglySorted rowid_lt tbl -> after_delete old tbl = Ok out ->
  (trigger_when old = true ->
   forall r, In r out -> subject (cols r) <> object (cols old))
  /\ closed tbl out.

Lemma delete_each_complete (ids : list Z) (tbl out : list StatementRow) :
  StronglySorted rowid_lt tbl ->
  delete_each after_delete ids tbl = Ok out ->
  (forall r, In r out -> ~ In (statementId r) ids) /\ closed tbl out.
Proof.
  revert tbl. induction ids as [|id ids IH]; intros tbl Hs H; simpl in H.
  - inv_Ok H. subst. split; [auto|]. intros o Ho Hno. contradiction.
  - destruct (find (has_rowid id) tbl) as [old|] eqn:F.
    + inv_bind H.
      apply find_has_rowid in F. destruct F as [Hold Hid].
      pose proof (sub_table_delete_rowid id tbl) as S1.
      pose proof (after_sub _ _ _ Ha) as S2.
      pose proof (delete_each_sub _ _ _ H) as S3.
      pose proof (sub_table_sorted _ _ S1 Hs) as Hs1.
      pose proof (sub_table_sorted _ _ S2 Hs1) as Hs2.
      destruct (IH a Hs2 H) as [IH1 IH2].
      destruct (after_complete _ _ _ Hs1 Ha) as [A1 A2].
      split.
      * intros r Hr [E | Hi]; [|now apply (IH1 r)].
        apply (sub_table_In _ _ _ S3), (sub_table_In _ _ _ S2) in Hr.
        apply delete_rowid_In in Hr. intuition congruence.
      * intros o Ho Hno Ht r Hr.
        destruct (in_dec StatementRow_eq_dec o a) as [Ho2 | Hn2];
          [now apply (IH2 o)|].
        apply (sub_table_In _ _ _ S3) in Hr.
        destruct (Z.eq_dec (statementId o) id) as [E | NE].
        -- assert (o = old) as -> by (apply (rowid_unique tbl); congruence).
           now apply A1.
        -- apply (A2 o); auto. apply delete_rowid_In; auto.
    + destruct (IH tbl Hs H) as [IH1 IH2]. split; [|assumption].
      intros r Hr [E | Hi]; [|now apply (IH1 r)].
      apply (sub_table_In _ _ _ (delete_each_sub _ _ _ H)) in Hr.
      apply (find_none _ _ F) in Hr. unfold has_rowid in Hr.
      rewrite E, Z.eqb_refl in Hr. discriminate.
Qed.

End DeleteEach.

Lemma delete_from_eq (recursive : bool) (depth : nat) (top : bool)
    (cond : StatementRow -> bool) (tbl : list StatementRow) :
  delete_from recursive depth top cond tbl =
  delete_each (trigger_program recursive depth top) (rowids_where cond tbl) tbl.
Proof. destruct depth; reflexivity. Qed.

Lemma trigger_program_sub (recursive : bool) (depth : nat) (top : bool)
    (old : StatementRow) (tbl out : list StatementRow) :
  trigger_program recursive depth top old tbl = Ok out -> sub_table out tbl.
Proof.
  revert top old tbl out. induction depth as [|d IH]; intros top old tbl out H;
    unfold trigger_program in H;
    destruct (top || recursive); try destruct (trigger_when old);
    try discriminate; try (inv_Ok H; subst; apply sub_table_refl).
  rewrite delete_from_eq in H.
  apply delete_each_sub in H; [assumption|]. intros o t u. apply IH.
Qed.

Lemma delete_from_sub (recursive : bool) (depth : nat) (top : bool)
    (cond : StatementRow -> bool) (tbl out : list StatementRow) :
  delete_from recursive depth top cond tbl = Ok out -> sub_table out tbl.
Proof.
  rewrite delete_from_eq. apply delete_each_sub.
  intros o t u. apply trigger_program_sub.
Qed.

Lemma delete_from_cause (recursive : bool) (depth : nat) (top : bool)
    (cond : StatementRow -> bool) (tbl out : list StatementRow) :
  StronglySorted rowid_lt tbl ->
  delete_from recursive depth top cond tbl = Ok out ->
  forall r, In r tbl -> ~ In r out -> cond r = true \/ caused tbl out r.
Proof.
  revert top cond tbl out.
  induction depth as [|d IH]; intros top cond tbl out Hs H r Hr Hn;
    rewrite delete_from_eq in H;
    (eapply delete_each_cause in H;
     [ destruct H as [H | H]; [left; apply (rowids_where_In cond tbl r Hs Hr), H
                              | right; exact H]
     | intros o t u; apply trigger_program_sub
     | | assumption | exact Hr | exact Hn ]);
    intros old t u Hst Hp x Hx Hnx; unfold trigger_program in Hp;
    destruct (top || recursive); try destruct (trigger_when old) eqn:Ht;
    try discriminate; try (inv_Ok Hp; subst; contradiction).
  destruct (IH _ _ _ _ Hst Hp x Hx Hnx) as [E | C]; [left | now right].
  split; [reflexivity | now apply String.eqb_eq].
Qed.

Lemma delete_from_complete (depth : nat) (top : bool)
    (cond : StatementRow -> bool) (tbl out : list StatementRow) :
  StronglySorted rowid_lt tbl ->
  delete_from true depth top cond tbl = Ok out ->
  (forall r, In r out -> cond r = false) /\ closed tbl out.
Proof.
  revert top cond tbl out.
  induction depth as [|d IH]; intros top cond tbl out Hs H;
    pose proof (delete_from_sub _ _ _ _ _ _ H) as Hsub;
    rewrite delete_from_eq in H;
    (eapply delete_each_complete in H;
     [ destruct H as [H1 H2]; split; [|exact H2];
       intros r Hr; specialize (H1 r Hr);
       apply (sub_table_In _ _ _ Hsub) in Hr;
       rewrite (rowids_where_In cond tbl r Hs Hr) in H1;
       now destruct (cond r)
     | intros o t u; apply trigger_program_sub
     | | assumption ]);
    intros old t u Hst Hp; unfold trigger_program in Hp;
    rewrite orb_true_r in Hp;
    destruct (trigger_when old) eqn:Ht;
    try discriminate;
    try (inv_Ok Hp; subst; split; [discriminate | intros o Ho Hno; contradiction]).
  destruct (IH _ _ _ _ Hst Hp) as [I1 I2]. split; [|assumption].
  intros _ r Hr. apply String.eqb_neq. now apply I1.
Qed.

Lemma delete_where_inv (conn : Connection) (cond : StatementRow -> bool)
    (db db' : Db) :
  delete_where conn cond db = Ok db' ->
  delete_from (recursive_triggers conn) (max_trigger_depth conn) true cond
    (kb_statements db) = Ok (kb_statements db')
  /\ sqlite_sequence db' = sqlite_sequence db.
Proof.
  unfold delete_where. intros H. inv_bind H. inv_Ok H. subst db'. auto.
Qed.

Lemma delete_where_wf (conn : Connection) (cond : StatementRow -> bool)
    (db db' : Db) :
  delete_where conn cond db = Ok db' -> wf_db db -> wf_db db'.
Proof.
  intros H. apply delete_where_inv in H. destruct H as [H _].
  apply delete_from_sub in H. now apply sub_table_sorted.
Qed.

(** ** Invariant of the store *)

Lemma addStatements_wf (qs : list rdfjs.Quad) (db db' : Db) :
  addStatements qs db = Ok db' -> wf_db db -> wf_db db'.
Proof. rewrite addStatements_insert. apply insert_values_wf. Qed.

Lemma removeStatement_wf (conn : Connection) (s : string) (db db' : Db) :
  removeStatement conn s db = Ok db' -> wf_db db -> wf_db db'.
Proof.
  unfold removeStatement. destruct (js.parseInt s).
  - apply delete_where_wf.
  - intros H. inv_Ok H. now subst.
Qed.

Lemma NoDup_map_filter {A B : Type} (f : A -> B) (k : A -> bool) (l : list A) :
  NoDup (map f l) -> NoDup (map f (filter k l)).
Proof.
  induction l as [|a l IH]; simpl; intros H; [constructor|].
  inversion H as [|? ? Hx Hn]; subst.
  destruct (k a); simpl; [constructor|]; auto.
  intros Hin. apply Hx. apply in_map_iff in Hin.
  destruct Hin as (b & E & Hb). apply filter_In in Hb.
  rewrite <- E. apply in_map. tauto.
Qed.

Lemma delete_where_unique (conn : Connection) (cond : StatementRow -> bool)
    (db db' : Db) :
  delete_where conn cond db = Ok db' -> unique_key db -> unique_key db'.
Proof.
  intros H. apply delete_where_inv in H. destruct H as [H _].
  apply delete_from_sub in H. destruct H as [k E].
  unfold unique_key. rewrite E. apply NoDup_map_filter.
Qed.

(** The unique constraint holds in every state of the store. *)
Lemma reachable_unique_key (db : Db) : reachable db -> unique_key db.
Proof.
  induction 1 as [|db qs db' _ IH H|conn db g db' _ IH H|conn db s db' _ IH H].
  - constructor.
  - rewrite addStatements_insert in H. eauto using insert_values_unique.
  - unfold removeStatements in H. eauto using delete_where_unique.
  - unfold removeStatement in H. destruct (js.parseInt s).
    + eauto using delete_where_unique.
    + inv_Ok H. now subst.
Qed.

Lemma reachable_wf (db : Db) : reachable db -> wf_db db.
Proof.
  induction 1.
  - constructor.
  - eauto using addStatements_wf.
  - unfold removeStatements in *. eauto using delete_where_wf.
  - eauto using removeStatement_wf.
Qed.

(** ** Encoding and decoding of terms *)

Lemma row_round_trip (q : rdfjs.Quad) (row : StatementRow) :
  faithful q = true -> cols row = statement_values q ->
  getStatements_row row = q /\ getStatement_row row = q.
Proof.
  unfold getStatements_row, getStatement_row. intros F ->.
  destruct q as [s p o g].
  destruct s, p, g; try discriminate F; destruct o; try discriminate F;
    simpl; auto.
  unfold faithful in F; simpl in F. unfold js.or_else.
  destruct (String.eqb_spec language ""); simpl in *.
  - subst. auto.
  - apply String.eqb_eq in F. subst. auto.
Qed.

(** ** The store over any data factory *)

Lemma namedNode_Some (df : factory.DataFactory) (v : string) (t : rdfjs.Term) :
  factory.namedNode df v = Some t
  <-> factory.iri df v = true /\ t = rdfjs.NamedNode v.
Proof.
  unfold factory.namedNode. destruct (factory.iri df v); split.
  - intros [= <-]. auto.
  - intros [_ ->]. reflexivity.
  - discriminate.
  - intros [H _]. discriminate H.
Qed.

Lemma namedNode_None (df : factory.DataFactory) (v : string) :
  factory.namedNode df v = None <-> factory.iri df v = false.
Proof.
  unfold factory.namedNode. destruct (factory.iri df v); split; congruence.
Qed.

Lemma decode_getStatements_eq (df : factory.DataFactory) (row : StatementRow) :
  store.decode_getStatements df row =
  let c := cols row in
  if factory.iri df (subject c) && factory.iri df (predicate c)
     && factory.iri df (graph c) then
    match (if (termType c =? "Literal")%string
           then store.literal_object df c else store.node_object df c) with
    | Some o =>
        Some (rdfjs.quad (rdfjs.NamedNode (subject c))
                (rdfjs.NamedNode (predicate c)) o (rdfjs.NamedNode (graph c)))
    | None => None
    end
  else None.
Proof.
  unfold store.decode_getStatements, store.literal_object, store.node_object,
    factory.namedNode, factory.literal, js.or_else.
  destruct (factory.iri df (subject (cols row))); [|reflexivity].
  destruct (factory.iri df (predicate (cols row))); [|reflexivity].
  destruct (factory.iri df (graph (cols row))); [|reflexivity]. simpl.
  destruct (termType (cols row) =? "Literal")%string.
  - destruct (objectLanguage (cols row) =? "")%string.
    + destruct (factory.iri df (objectDatatype (cols row))); reflexivity.
    + destruct (factory.language_tag df (objectLanguage (cols row))); reflexivity.
  - destruct (termType (cols row) =? "BlankNode")%string; simpl.
    + destruct (factory.iri df (object (cols row))); [|reflexivity].
      destruct (js.startsWith (object (cols row)) "_:"); reflexivity.
    + destruct (factory.iri df (object (cols row))); reflexivity.
Qed.

Lemma decode_getStatement_eq (df : factory.DataFactory) (row : StatementRow) :
  store.decode_getStatement df row =
  let c := cols row in
  if factory.iri df (subject c) && factory.iri df (predicate c)
     && factory.iri df (graph c) then
    match (if (termType c =? "Literal")%string
           then store.literal_object df c
           else if factory.iri df (object c)
                then Some (rdfjs.NamedNode (object c)) else None) with
    | Some o =>
        Some (rdfjs.quad (rdfjs.NamedNode (subject c))
                (rdfjs.NamedNode (predicate c)) o (rdfjs.NamedNode (graph c)))
    | None => None
    end
  else None.
Proof.
  unfold store.decode_getStatement, store.literal_object, factory.namedNode,
    factory.literal, js.or_else.
  destruct (factory.iri df (subject (cols row))); [|reflexivity].
  destruct (factory.iri df (predicate (cols row))); [|reflexivity].
  destruct (factory.iri df (graph (cols row))); [|reflexivity]. simpl.
  destruct (termType (cols row) =? "Literal")%string.
  - destruct (objectLanguage (cols row) =? "")%string.
    + destruct (factory.iri df (objectDatatype (cols row))); reflexivity.
    + destruct (factory.language_tag df (objectLanguage (cols row))); reflexivity.
  - destruct (factory.iri df (object (cols row))); reflexivity.
Qed.

(** A row decodes to the quad it was made from when the quad is of the
    kinds the row encoding keeps and the factory takes it as it stands. *)
Lemma store_row_round_trip (df : factory.DataFactory) (q : rdfjs.Quad)
    (row : StatementRow) :
  faithful q = true -> store.accepts df q = true ->
  cols row = statement_values q ->
  store.decode_getStatements df row = Some q
  /\ store.decode_getStatement df row = Some q.
Proof.
  intros F A C. rewrite decode_getStatements_eq, decode_getStatement_eq, C.
  destruct q as [s p o g]. unfold faithful in F. unfold store.accepts in A.
  destruct s, p, g; try discriminate F; destruct o; try discriminate F;
    simpl in *; unfold store.node_object, store.literal_object; simpl;
    repeat (apply andb_true_iff in A; destruct A as [A ?]);
    repeat match goal with H : factory.iri _ _ = true |- _ => rewrite H; clear H end;
    simpl; auto.
  destruct (String.eqb_spec language "").
  - subst. rewrite H. auto.
  - apply String.eqb_eq in F. subst.
    destruct (factory.language_tag df language) as [tag|]; [|discriminate].
    apply String.eqb_eq in H. subst. auto.
Qed.

Lemma substring_length (n m : nat) (s : string) :
  (String.length (substring n m s) <= m)%nat.
Proof.
  revert n m. induction s as [|c s IH]; intros [|n] [|m]; simpl; try lia.
  - specialize (IH 0%nat m). lia.
  - apply (IH n 0%nat).
  - apply (IH n (S m)).
Qed.

Lemma slice_shorter (s : string) :
  js.startsWith s "_:" = true -> js.slice s 2 <> s.
Proof.
  intros P E. pose proof (substring_length 2 (String.length s - 2) s) as L.
  unfold js.slice in E. rewrite E in L.
  destruct s as [|a s]; [discriminate P|]. simpl in L. lia.
Qed.

(** A row decodes to the quad it was made from only if the quad is of the
    kinds the row encoding keeps and the factory takes it as it stands. *)
Lemma store_row_round_trip_only (df : factory.DataFactory) (q : rdfjs.Quad)
    (row : StatementRow) :
  cols row = statement_values q ->
  store.decode_getStatements df row = Some q
  \/ store.decode_getStatement df row = Some q ->
  faithful q = true /\ store.accepts df q = true.
Proof.
  intros C. rewrite decode_getStatements_eq, decode_getStatement_eq, C.
  destruct q as [s p o g]. unfold faithful, store.accepts. simpl.
  destruct (factory.iri df (rdfjs.value s)) eqn:Is; [|intros [H | H]; discriminate H].
  destruct (factory.iri df (rdfjs.value p)) eqn:Ip; [|intros [H | H]; discriminate H].
  destruct (factory.iri df (rdfjs.value g)) eqn:Ig; [|intros [H | H]; discriminate H].
  simpl.
  assert (forall o' : option rdfjs.Term,
            match o' with
            | Some x => Some (rdfjs.quad (rdfjs.NamedNode (rdfjs.value s))
                                (rdfjs.NamedNode (rdfjs.value p)) x
                                (rdfjs.NamedNode (rdfjs.value g)))
            | None => None
            end = Some (rdfjs.quad s p o g) ->
            s = rdfjs.NamedNode (rdfjs.value s) /\ p = rdfjs.NamedNode (rdfjs.value p)
            /\ g = rdfjs.NamedNode (rdfjs.value g) /\ o' = Some o) as Inv.
  { intros [x|] H; [|discriminate]. injection H as <- <- <- <-. auto. }
  assert (forall o' : option rdfjs.Term,
            o' = Some o ->
            (match o with
             | rdfjs.NamedNode _ => true
             | rdfjs.Literal _ l d => (l =? "")%string || (d =? rdfjs.rdf_langString)%string
             | _ => false
             end = true /\
             match o with
             | rdfjs.NamedNode v => factory.iri df v
             | rdfjs.Literal _ l d =>
                 if (l =? "")%string then factory.iri df d
                 else match factory.language_tag df l with
                      | Some tag => (tag =? l)%string
                      | None => false
                      end
             | _ => false
             end = true) ->
            s = rdfjs.NamedNode (rdfjs.value s) -> p = rdfjs.NamedNode (rdfjs.value p) ->
            g = rdfjs.NamedNode (rdfjs.value g) ->
            (rdfjs.termType s =? "NamedNode")%string
            && (rdfjs.termType p =? "NamedNode")%string
            && (rdfjs.termType g =? "NamedNode")%string
            && match o with
               | rdfjs.NamedNode _ => true
               | rdfjs.Literal _ l d => (l =? "")%string || (d =? rdfjs.rdf_langString)%string
               | _ => false
               end = true /\
            true && match o with
             | rdfjs.NamedNode v => factory.iri df v
             | rdfjs.Literal _ l d =>
                 if (l =? "")%string then factory.iri df d
                 else match factory.language_tag df l with
                      | Some tag => (tag =? l)%string
                      | None => false
                      end
             | _ => false
             end = true) as Fin.
  { intros o' _ [H1 H2] -> -> ->. simpl. auto. }
  assert (forall (b : bool) (x y : rdfjs.Term),
             (if b then Some x else None) = Some y -> b = true /\ x = y) as IfS.
  { intros [] x y H; [injection H; auto | discriminate]. }
  intros [H | H]; apply Inv in H; destruct H as (Hs & Hp & Hg & Ho);
    (eapply Fin; [exact Ho | | assumption..]);
    destruct o as [v | v | v l d | ]; simpl in Ho;
    unfold store.node_object, store.literal_object in Ho; simpl in Ho.
  - apply IfS in Ho. tauto.
  - exfalso. destruct (factory.iri df v); [|discriminate].
    destruct (js.startsWith v "_:") eqn:P.
    + unfold factory.blankNode in Ho. destruct (factory.label df _); [|discriminate].
      injection Ho as Ho. now apply (slice_shorter v P).
    + discriminate.
  - destruct (String.eqb_spec l "").
    + apply IfS in Ho. destruct Ho as [Ho _]. auto.
    + destruct (factory.language_tag df l) as [tag|]; [|discriminate].
      injection Ho as -> <-. rewrite !String.eqb_refl. auto.
  - exfalso. destruct (factory.iri df ""); discriminate.
  - apply IfS in Ho. tauto.
  - exfalso. apply IfS in Ho. destruct Ho as [_ Ho]. discriminate.
  - destruct (String.eqb_spec l "").
    + apply IfS in Ho. destruct Ho as [Ho _]. auto.
    + destruct (factory.language_tag df l) as [tag|]; [|discriminate].
      injection Ho as -> <-. rewrite !String.eqb_refl. auto.
  - exfalso. apply IfS in Ho. destruct Ho as [_ Ho]. discriminate.
Qed.

Lemma map_rows_In (decode : StatementRow -> option rdfjs.Quad)
    (rows : list StatementRow) (out : list rdfjs.Quad) :
  store.map_rows decode rows = Some out ->
  forall q, In q out <-> exists r, In r rows /\ decode r = Some q.
Proof.
  revert out. induction rows as [|r rows IH]; intros out H q; simpl in H.
  - injection H as <-. simpl. split; [tauto | intros (r & [] & _)].
  - destruct (decode r) as [q0|] eqn:D; [|discriminate].
    destruct (store.map_rows decode rows) as [qs|]; [|discriminate].
    injection H as <-. simpl. rewrite (IH qs eq_refl q). split.
    + intros [<- | (x & Hx & Dx)]; eauto.
    + intros (x & [<- | Hx] & Dx); [left; congruence | eauto].
Qed.

Lemma map_rows_Some (decode : StatementRow -> option rdfjs.Quad)
    (rows : list StatementRow) :
  (forall r, In r rows -> decode r <> None) <->
  exists out, store.map_rows decode rows = Some out.
Proof.
  induction rows as [|r rows IH]; simpl.
  - split; [eauto | tauto].
  - split.
    + intros H. destruct (decode r) as [q|] eqn:D; [|now destruct (H r); auto].
      destruct (proj1 IH) as (qs & ->); [auto | eauto].
    + intros (out & H) x [<- | Hx].
      * intros D. rewrite D in H. discriminate.
      * apply IH; [|assumption].
        destruct (decode r); [|discriminate].
        destruct (store.map_rows decode rows); [eauto | discriminate].
Qed.

Lemma map_rows_map (decode : StatementRow -> option rdfjs.Quad)
    (f : StatementRow -> rdfjs.Quad) (rows : list StatementRow) :
  (forall r, In r rows -> decode r = Some (f r)) ->
  store.map_rows decode rows = Some (map f rows).
Proof.
  induction rows as [|r rows IH]; simpl; intros H; [reflexivity|].
  rewrite (H r) by now left. rewrite IH by auto. reflexivity.
Qed.

Lemma getStatement_Finite (env : store.Environment) (s : string) (id : Z)
    (db : Db) :
  js_number.parseInt s = js_number.Finite id ->
  store.getStatement env s db =
  match firstn 1 (select_where (has_rowid id) db) with
  | [] => store.Returned None
  | row :: _ =>
      match store.decode_getStatement (store.df env) row with
      | Some q => store.Returned (Some q)
      | None => store.Threw store.FactoryError
      end
  end.
Proof. unfold store.getStatement. intros ->. reflexivity. Qed.

Lemma getStatement_selects (env : store.Environment) (s : string) (db : Db)
    (row : StatementRow) :
  wf_db db -> In row (kb_statements db) ->
  js_number.parseInt s = js_number.Finite (statementId row) ->
  store.getStatement env s db =
  match store.decode_getStatement (store.df env) row with
  | Some q => store.Returned (Some q)
  | None => store.Threw store.FactoryError
  end.
Proof.
  intros Hwf Hin P. rewrite (getStatement_Finite _ _ _ _ P).
  unfold select_where. now rewrite filter_has_rowid.
Qed.

(** The subject, the predicate and the graph of a decoded quad. *)
Lemma decoded_named (df : factory.DataFactory) (row : StatementRow)
    (q : rdfjs.Quad) :
  store.decode_getStatements df row = Some q
  \/ store.decode_getStatement df row = Some q ->
  rdfjs.subject q = rdfjs.NamedNode (subject (cols row)) /\
  rdfjs.predicate q = rdfjs.NamedNode (predicate (cols row)) /\
  rdfjs.graph q = rdfjs.NamedNode (graph (cols row)).
Proof.
  rewrite decode_getStatements_eq, decode_getStatement_eq. simpl.
  destruct (_ && _ && _); [|intros [H | H]; discriminate H].
  intros [H | H];
    match type of H with
    | match ?o with _ => _ end = _ => destruct o; [|discriminate]
    end; injection H as <-; auto.
Qed.

(** *** Numbers *)

Lemma of_integer_safe (n : Z) :
  Z.abs n < 2 ^ 53 -> js_number.of_integer n = js_number.Finite n.
Proof.
  intros H. unfold js_number.of_integer.
  destruct (Z.ltb_spec (Z.abs n) (2 ^ 53)); [reflexivity | lia].
Qed.

Lemma parseInt_safe (s : string) (n : Z) :
  js.parseInt s = Some n -> Z.abs n < 2 ^ 53 ->
  js_number.parseInt s = js_number.Finite n.
Proof.
  intros P B. unfold js_number.parseInt. rewrite P. now apply of_integer_safe.
Qed.

Lemma parseInt_NaN (s : string) :
  js_number.parseInt s = js_number.NaN <-> js.parseInt s = None.
Proof.
  unfold js_number.parseInt, js_number.of_integer.
  destruct (js.parseInt s) as [n|]; [|tauto].
  split; [|discriminate].
  destruct (_ <? _); [discriminate|]. simpl.
  destruct (_ <? _); discriminate.
Qed.

(** *** The store on the factory of the data model *)

(** [getStatements], [getStatement] and [removeStatement] are the methods
    of [Module store] on the factory of the data model, for the ids that a
    Number holds exactly. *)
Lemma data_model_decode (row : StatementRow) :
  store.decode_getStatements factory.data_model row
    = Some (getStatements_row row) /\
  store.decode_getStatement factory.data_model row
    = Some (getStatement_row row).
Proof.
  rewrite decode_getStatements_eq, decode_getStatement_eq.
  unfold getStatements_row, getStatement_row, store.node_object,
    store.literal_object, js.or_else. simpl.
  destruct (termType (cols row) =? "Literal")%string.
  - destruct (objectLanguage (cols row) =? "")%string; auto.
  - destruct (termType (cols row) =? "BlankNode")%string; simpl; [|auto].
    destruct (js.startsWith (object (cols row)) "_:"); auto.
Qed.

Lemma data_model_getStatements (b : bool) (g : string) (db : Db) :
  store.getStatements
    {| store.df := factory.data_model; store.binds_non_finite := b |} g db
  = store.Returned (getStatements g db).
Proof.
  unfold store.getStatements, getStatements. simpl.
  rewrite (map_rows_map _ getStatements_row); [reflexivity|].
  intros r _. apply data_model_decode.
Qed.

Lemma data_model_getStatement (b : bool) (s : string) (n : Z) (db : Db) :
  js.parseInt s = Some n -> Z.abs n < 2 ^ 53 ->
  store.getStatement
    {| store.df := factory.data_model; store.binds_non_finite := b |} s db
  = store.Returned (getStatement s db).
Proof.
  intros P B.
  pose proof (parseInt_safe s n P B) as P'.
  rewrite (getStatement_Finite _ _ _ _ P'). unfold getStatement. rewrite P.
  cbv zeta.
  destruct (firstn 1 (select_where (has_rowid n) db)) as [|row l];
    [reflexivity|].
  cbn [store.df]. now rewrite (proj2 (data_model_decode row)).
Qed.

Lemma store_removeStatement_Finite (env : store.Environment) (conn : Connection)
    (s : string) (n : Z) (db : Db) :
  js_number.parseInt s = js_number.Finite n ->
  store.removeStatement env conn s db =
  match delete_where conn (has_rowid n) db with
  | inr db' => store.Returned db'
  | inl e => store.Threw (store.SqlError e)
  end.
Proof. unfold store.removeStatement. intros ->. reflexivity. Qed.

Lemma data_model_removeStatement (b : bool) (conn : Connection) (s : string)
    (n : Z) (db : Db) :
  js.parseInt s = Some n -> Z.abs n < 2 ^ 53 ->
  store.removeStatement
    {| store.df := factory.data_model; store.binds_non_finite := b |} conn s db
  = match removeStatement conn s db with
    | inr db' => store.Returned db'
    | inl e => store.Threw (store.SqlError e)
    end.
Proof.
  intros P B.
  pose proof (parseInt_safe s n P B) as P'.
  rewrite (store_removeStatement_Finite _ _ _ _ _ P').
  unfold removeStatement. now rewrite P.
Qed.

(** C1 (as amended).  Ingestion followed by retrieval gives back the quad
    that went in, in all four positions and with its term types, exactly
    for the quads that the row encoding keeps and that the store's data
    factory takes as they stand.  For a quad whose subject, predicate and
    graph are NamedNodes, whose object is a NamedNode or a literal (plain,
    datatyped, or language-tagged with datatype rdf:langString), and whose
    IRIs and language tag the factory takes unchanged: after [addStatements]
    the quad has a row, [getStatement] returns the quad for the id of that
    row, [getStatements] of its graph contains the quad whenever it returns,
    and it returns when the factory takes every row of the graph.
    Conversely, a row decodes to the quad it was made from only if the quad
    is of this kind. *)
Theorem round_trip (env : store.Environment) :
  (forall db qs q,
     wf_db db -> In q qs ->
     faithful q = true -> store.accepts (store.df env) q = true ->
     exists db' row,
       addStatements qs db = Ok db' /\
       In row (kb_statements db') /\ cols row = statement_values q /\
       (forall s,
          js_number.parseInt s = js_number.Finite (statementId row) ->
          store.getStatement env s db' = store.Returned (Some q)) /\
       (forall out,
          store.getStatements env (rdfjs.value (rdfjs.graph q)) db'
            = store.Returned out -> In q out) /\
       ((forall r, In r (kb_statements db') ->
           graph (cols r) = rdfjs.value (rdfjs.graph q) ->
           store.decode_getStatements (store.df env) r <> None) ->
        exists out,
          store.getStatements env (rdfjs.value (rdfjs.graph q)) db'
            = store.Returned out)) /\
  (forall q row,
     cols row = statement_values q ->
     store.decode_getStatements (store.df env) row = Some q
     \/ store.decode_getStatement (store.df env) row = Some q ->
     faithful q = true /\ store.accepts (store.df env) q = true).
Proof.
  split; [|intros q row; apply store_row_round_trip_only].
  intros db qs q Hwf Hq Hf Ha. rewrite addStatements_insert.
  destruct (insert_values_DoNothing (map statement_values qs) db)
    as (db' & E & _ & Hp).
  destruct (proj1 (present_iff _ _) (Hp _ (in_map statement_values _ _ Hq)))
    as (row & Hrow & Hc).
  destruct (store_row_round_trip _ q row Hf Ha Hc) as [R1 R2].
  assert (In row (select_where
                    (fun r => (graph (cols r) =? rdfjs.value (rdfjs.graph q))%string)
                    db')) as Hsel.
  { apply filter_In. split; [assumption|]. rewrite Hc. simpl.
    apply String.eqb_refl. }
  exists db', row. repeat split; try assumption.
  - intros s Hs.
    rewrite (getStatement_selects env s db' row); [now rewrite R2 | | assumption..].
    apply (insert_values_wf _ _ _ E Hwf).
  - intros out H. unfold store.getStatements in H.
    destruct (store.map_rows _ _) as [quads|] eqn:M; [|discriminate].
    injection H as <-. apply (map_rows_In _ _ _ M). eauto.
  - intros H. unfold store.getStatements.
    destruct (proj1 (map_rows_Some (store.decode_getStatements (store.df env))
                (select_where
                   (fun r => (graph (cols r) =? rdfjs.value (rdfjs.graph q))%string)
                   db'))) as (out & ->); [|eauto].
    intros r Hr. apply filter_In in Hr. destruct Hr as [Hr Hg].
    apply String.eqb_eq in Hg. auto.
Qed.

Lemma round_trip_witness :
  wf_db empty_db /\ In example.test_quad [example.test_quad] /\
  faithful example.test_quad = true /\
  store.accepts (store.df store.strict) example.test_quad = true /\
  exists db' row,
    addStatements [example.test_quad] empty_db = Ok db' /\
    In row (kb_statements db') /\
    (forall s,
       js_number.parseInt s = js_number.Finite (statementId row) ->
       store.getStatement store.strict s db'
         = store.Returned (Some example.test_quad)) /\
    (forall out,
       store.getStatements store.strict "http://example.org/g1" db'
         = store.Returned out -> In example.test_quad out).
Proof.
  assert (wf_db empty_db) as W by constructor.
  assert (In example.test_quad [example.test_quad]) as I by (left; reflexivity).
  assert (faithful example.test_quad = true) as F by reflexivity.
  assert (store.accepts (store.df store.strict) example.test_quad = true) as A
    by reflexivity.
  repeat split; try assumption.
  destruct (proj1 (round_trip store.strict) empty_db [example.test_quad]
              example.test_quad W I F A)
    as (db' & row & H1 & H2 & _ & H3 & H4 & _).
  exists db', row. auto.
Defined.

(** The claim as stated fails.  A quad with a blank-node subject never
    comes back, whatever the data factory: on the factory of the data model
    it comes back with NamedNodes in place of its blank nodes, and a
    validating factory throws on its row.  And a literal whose language tag
    is in mixed case comes back from a factory that writes tags in lower
    case with its tag changed. *)
Lemma round_trip_counterexample :
  addStatements [example.chain_1; example.chain_2; example.chain_3] empty_db
    = Ok example.chain_db /\
  (forall env out,
     store.getStatements env "g" example.chain_db = store.Returned out ->
     ~ In example.chain_2 out) /\
  (forall env s q,
     store.getStatement env s example.chain_db = store.Returned (Some q) ->
     q <> example.chain_2) /\
  store.getStatement store.plain "2" example.chain_db
    = store.Returned
        (Some (rdfjs.quad (rdfjs.NamedNode "b1") (rdfjs.NamedNode "q")
                 (rdfjs.NamedNode "b2") (rdfjs.NamedNode "g"))) /\
  store.getStatement store.strict "2" example.chain_db
    = store.Threw store.FactoryError /\
  faithful sample.tagged_quad = true /\
  exists db,
    addStatements [sample.tagged_quad] empty_db = Ok db /\
    store.getStatements store.strict "http://example.org/g" db
      = store.Returned [sample.tagged_lower] /\
    store.getStatement store.strict "1" db
      = store.Returned (Some sample.tagged_lower) /\
    sample.tagged_lower <> sample.tagged_quad.
Proof.
  split; [reflexivity|]. split; [|split].
  - intros env out H Hin. unfold store.getStatements in H.
    destruct (store.map_rows _ _) as [quads|] eqn:M; [|discriminate].
    injection H as <-. apply (map_rows_In _ _ _ M) in Hin.
    destruct Hin as (r & _ & D).
    destruct (decoded_named _ _ _ (or_introl D)) as [S _]. discriminate S.
  - intros env s q H ->. unfold store.getStatement in H.
    destruct (js_number.isNaN _); [discriminate|].
    destruct (negb _); [discriminate|].
    destruct (firstn 1 _) as [|row l]; [discriminate|].
    destruct (store.decode_getStatement (store.df env) row) as [q|] eqn:D; [|discriminate].
    injection H as ->.
    destruct (decoded_named _ _ _ (or_intror D)) as [S _]. discriminate S.
  - split; [vm_compute; reflexivity|]. split; [vm_compute; reflexivity|].
    split; [reflexivity|]. eexists. split; [reflexivity|].
    split; [vm_compute; reflexivity|]. split; [vm_compute; reflexivity|].
    discriminate.
Qed.

(** C5 (as amended).  On a row whose term_type is 'Literal', both decoders
    build the object as [literal(object, objectLanguage ||
    namedNode(objectDatatype))], whatever the data factory.  When
    object_language is not empty this is a language-tagged literal, with the
    tag as the factory writes it, or an exception when the factory refuses
    the tag; when it is empty it is a literal with the datatype
    NamedNode(object_datatype), or an exception when the factory refuses
    object_datatype as an IRI.  The decoders return on the rows whose texts
    the factory takes.  This is the decoding of the specification when one
    of the two columns is not empty and the factory writes the tag as it is
    stored. *)
Theorem literal_decoding (df : factory.DataFactory) (row : StatementRow) :
  termType (cols row) = "Literal" ->
  store.decode_getStatement df row = store.decode_getStatements df row /\
  (forall q, store.decode_getStatements df row = Some q ->
     if (objectLanguage (cols row) =? "")%string
     then factory.iri df (objectDatatype (cols row)) = true /\
          rdfjs.object q
            = rdfjs.Literal (object (cols row)) "" (objectDatatype (cols row))
     else exists tag,
            factory.language_tag df (objectLanguage (cols row)) = Some tag /\
            rdfjs.object q
              = rdfjs.Literal (object (cols row)) tag rdfjs.rdf_langString) /\
  (factory.iri df (subject (cols row)) = true ->
   factory.iri df (predicate (cols row)) = true ->
   factory.iri df (graph (cols row)) = true ->
   (if (objectLanguage (cols row) =? "")%string
    then factory.iri df (objectDatatype (cols row)) = true
    else factory.language_tag df (objectLanguage (cols row)) <> None) ->
   exists q, store.decode_getStatements df row = Some q) /\
  (forall q, store.decode_getStatements df row = Some q ->
     (objectLanguage (cols row) = "" -> objectDatatype (cols row) <> "") ->
     (objectLanguage (cols row) <> "" ->
      factory.language_tag df (objectLanguage (cols row))
        = Some (objectLanguage (cols row))) ->
     rdfjs.object q = decode_literal_spec (cols row)).
Proof.
  intros T. rewrite decode_getStatement_eq, decode_getStatements_eq. simpl.
  rewrite T. simpl. unfold store.literal_object, decode_literal_spec.
  split; [reflexivity|].
  destruct (factory.iri df (subject (cols row))), (factory.iri df (predicate (cols row))),
    (factory.iri df (graph (cols row))); simpl;
    try (split; [discriminate|]; split; discriminate).
  destruct (String.eqb_spec (objectLanguage (cols row)) "") as [L | L]; simpl.
  - destruct (factory.iri df (objectDatatype (cols row))).
    + split; [|split].
      * intros q [= <-]. auto.
      * eauto.
      * intros q [= <-] D _. simpl.
        destruct (String.eqb_spec (objectDatatype (cols row)) "") as [D' | D'];
          [now destruct (D L) | reflexivity].
    + split; [|split]; discriminate.
  - destruct (factory.language_tag df (objectLanguage (cols row))) as [tag|].
    + split; [|split].
      * intros q [= <-]. eauto.
      * eauto.
      * intros q [= <-] _ G. simpl. specialize (G L). injection G as G.
        now rewrite G.
    + split; [|split].
      * discriminate.
      * intros _ _ _ H. now destruct H.
      * discriminate.
Qed.

Lemma literal_decoding_witness :
  termType (cols example.typed_row) = "Literal" /\
  store.decode_getStatements factory.data_model example.typed_row
    = Some (rdfjs.quad (rdfjs.NamedNode "s") (rdfjs.NamedNode "p")
              (rdfjs.Literal "42" ""
                 "http://www.w3.org/2001/XMLSchema#integer")
              (rdfjs.NamedNode "g")) /\
  store.decode_getStatement factory.data_model example.typed_row
    = store.decode_getStatements factory.data_model example.typed_row.
Proof.
  split; [reflexivity|]. split; [reflexivity|].
  exact (proj1 (literal_decoding factory.data_model example.typed_row eq_refl)).
Defined.

(** The claim as stated fails on the row whose object_language and
    object_datatype are both empty: the decoders ask the factory for the
    NamedNode of the empty text.  A factory that refuses it throws, and one
    that takes it gives a literal whose datatype is the empty IRI; no
    factory gives the plain string literal. *)
Lemma literal_decoding_counterexample :
  termType (cols example.bare_row) = "Literal" /\
  objectLanguage (cols example.bare_row) = "" /\
  objectDatatype (cols example.bare_row) = "" /\
  decode_literal_spec (cols example.bare_row) = rdfjs.literal "o" None /\
  (forall df q,
     (store.decode_getStatements df example.bare_row = Some q
      \/ store.decode_getStatement df example.bare_row = Some q) ->
     factory.iri df "" = true /\
     rdfjs.object q = rdfjs.Literal "o" "" "" /\
     rdfjs.object q <> decode_literal_spec (cols example.bare_row)) /\
  store.decode_getStatements factory.data_model example.bare_row
    = Some (rdfjs.quad (rdfjs.NamedNode "s") (rdfjs.NamedNode "p")
              (rdfjs.Literal "o" "" "") (rdfjs.NamedNode "g")) /\
  store.decode_getStatements factory.validating example.bare_row = None /\
  store.decode_getStatement factory.validating example.bare_row = None.
Proof.
  do 4 (split; [reflexivity|]). split; [|repeat split].
  intros d q H.
  rewrite decode_getStatements_eq, decode_getStatement_eq in H. simpl in H.
  unfold store.literal_object in H. simpl in H.
  destruct (_ && _ && _); [|destruct H as [H | H]; discriminate H].
  destruct (factory.iri d ""); [|destruct H as [H | H]; discriminate H].
  split; [reflexivity|].
  destruct H as [H | H]; injection H as <-; (split; [reflexivity | discriminate]).
Qed.

(** C10.  Whatever was ingested, the quads that [getStatements] and
    [getStatement] return have a NamedNode as subject, predicate and graph.
    A row keeps the term type, language and datatype of the object only:
    the row of a quad is the row of the same quad with NamedNodes of the
    same values as subject, predicate and graph. *)
Theorem subject_predicate_graph_named (db : Db) :
  (forall g q, In q (getStatements g db) ->
     rdfjs.termType (rdfjs.subject q) = "NamedNode" /\
     rdfjs.termType (rdfjs.predicate q) = "NamedNode" /\
     rdfjs.termType (rdfjs.graph q) = "NamedNode") /\
  (forall s q, getStatement s db = Some q ->
     rdfjs.termType (rdfjs.subject q) = "NamedNode" /\
     rdfjs.termType (rdfjs.predicate q) = "NamedNode" /\
     rdfjs.termType (rdfjs.graph q) = "NamedNode") /\
  (forall q,
     statement_values q =
     statement_values
       (rdfjs.quad (rdfjs.namedNode (rdfjs.value (rdfjs.subject q)))
          (rdfjs.namedNode (rdfjs.value (rdfjs.predicate q)))
          (rdfjs.object q)
          (rdfjs.namedNode (rdfjs.value (rdfjs.graph q))))).
Proof.
  split; [|split].
  - intros g q H. unfold getStatements in H. apply in_map_iff in H.
    destruct H as (row & <- & _). repeat split.
  - intros s q H. unfold getStatement in H.
    destruct (js.parseInt s); [|discriminate].
    destruct (firstn 1 _) as [|row l]; [discriminate|].
    injection H as <-. repeat split.
  - intros q. reflexivity.
Qed.

Lemma subject_predicate_graph_named_witness :
  In (rdfjs.quad (rdfjs.NamedNode "b1") (rdfjs.NamedNode "q")
        (rdfjs.NamedNode "b2") (rdfjs.NamedNode "g"))
     (getStatements "g" example.chain_db) /\
  rdfjs.termType
    (rdfjs.subject
       (rdfjs.quad (rdfjs.NamedNode "b1") (rdfjs.NamedNode "q")
          (rdfjs.NamedNode "b2") (rdfjs.NamedNode "g"))) = "NamedNode".
Proof.
  assert (In (rdfjs.quad (rdfjs.NamedNode "b1") (rdfjs.NamedNode "q")
                (rdfjs.NamedNode "b2") (rdfjs.NamedNode "g"))
            (getStatements "g" example.chain_db)) as I
    by (right; left; reflexivity).
  split; [exact I|].
  exact (proj1 (proj1 (subject_predicate_graph_named example.chain_db) _ _ I)).
Defined.

(** ** Ingestion *)

(** C4.  Ingestion is idempotent and a duplicate never raises an error:
    [addStatements] always returns, also when the whole batch is already
    stored or repeats a statement; applied a second time to the same batch
    it returns again and leaves the table as the first application left it;
    and in a table that satisfies the unique constraint every statement of
    the batch is then stored in exactly one row. *)
Theorem addStatements_idempotent (db : Db) (qs : list rdfjs.Quad) :
  exists db1,
    addStatements qs db = Ok db1 /\
    exists db2,
      addStatements qs db1 = Ok db2 /\
      kb_statements db2 = kb_statements db1 /\
      (unique_key db ->
       forall q, In q qs -> count_key (statement_values q) db2 = 1%nat).
Proof.
  rewrite addStatements_insert.
  destruct (insert_values_DoNothing (map statement_values qs) db)
    as (db1 & E1 & _ & Hp).
  exists db1. split; [assumption|]. rewrite addStatements_insert.
  destruct (insert_values_present _ _ Hp) as (db2 & E2 & R).
  exists db2. split; [assumption|]. split; [assumption|].
  intros Hu q Hq. apply count_key_unique.
  - eauto using insert_values_unique.
  - rewrite R. apply Hp. now apply in_map.
Qed.

Lemma addStatements_idempotent_witness :
  unique_key empty_db /\
  exists db1,
    addStatements [example.test_quad; example.test_quad] empty_db = Ok db1 /\
    exists db2,
      addStatements [example.test_quad; example.test_quad] db1 = Ok db2 /\
      kb_statements db2 = kb_statements db1 /\
      count_key (statement_values example.test_quad) db2 = 1%nat.
Proof.
  assert (unique_key empty_db) as U by constructor.
  split; [exact U|].
  destruct (addStatements_idempotent empty_db
              [example.test_quad; example.test_quad])
    as (db1 & E1 & db2 & E2 & R & C).
  exists db1. split; [exact E1|]. exists db2. split; [exact E2|].
  split; [exact R|]. apply (C U). left; reflexivity.
Defined.

(** ** Lookup and removal by id *)




(** C9.  When [parseInt] gives NaN on the id, [removeStatement] returns
    without an error and without running a DELETE: the table and the
    counter are what they were. *)
Theorem removeStatement_NaN (conn : Connection) (db : Db) (s : string) :
  js.parseInt s = None -> removeStatement conn s db = Ok db.
Proof. unfold removeStatement. intros ->. reflexivity. Qed.

Lemma removeStatement_NaN_witness :
  js.parseInt "abc" = None /\
  removeStatement example.conn "abc" example.chain_db = Ok example.chain_db.
Proof.
  split; [reflexivity|].
  exact (removeStatement_NaN example.conn example.chain_db "abc" eq_refl).
Defined.

(** ** Retrieval by graph *)

Lemma chain_db_reachable : reachable example.chain_db.
Proof.
  apply (reach_addStatements empty_db
           [example.chain_1; example.chain_2; example.chain_3]).
  - constructor.
  - reflexivity.
Qed.

(** C7.  In every state of the store, [getStatements] returns the quads of
    the rows of the graph in ascending order of statement_id: the rows it
    decodes, one quad per row and in this order, have strictly increasing
    statement ids. *)
Theorem getStatements_ordered (db : Db) (g : string) :
  reachable db ->
  let rows := select_where (fun r => (graph (cols r) =? g)%string) db in
  getStatements g db = map getStatements_row rows /\
  StronglySorted rowid_lt rows /\
  (forall r, In r rows <-> In r (kb_statements db) /\ graph (cols r) = g).
Proof.
  intros H rows. split; [reflexivity|]. split.
  - apply StronglySorted_filter. now apply reachable_wf.
  - intros r. unfold rows, select_where. rewrite filter_In, String.eqb_eq.
    reflexivity.
Qed.

Lemma getStatements_ordered_witness :
  reachable example.chain_db /\
  StronglySorted rowid_lt
    (select_where (fun r => (graph (cols r) =? "g")%string) example.chain_db).
Proof.
  split; [exact chain_db_reachable|].
  exact (proj1 (proj2 (getStatements_ordered example.chain_db "g"
                         chain_db_reachable))).
Defined.

(** ** Graphs and the cascade *)

Lemma closed_refl (tbl : list StatementRow) : closed tbl tbl.
Proof. intros old Ho Hn. contradiction. Qed.




(** C3 (as amended).  The cascade is complete where the connection has
    recursive triggers.  On the chain (A, p, _b1), (_b1, q, _b2),
    (_b2, r, "leaf"), removing the first statement on such a connection
    leaves no statement at all.  In general, on a connection with
    [PRAGMA recursive_triggers] on, whenever [removeStatement] or
    [removeStatements] returns, the rows it addressed are gone and no row is
    left whose subject is the object of a deleted row that satisfied the
    trigger's WHEN (a blank node met as a deleted object). *)
Theorem cascade_complete :
  (exists db,
     addStatements [example.chain_1; example.chain_2; example.chain_3] empty_db
       = Ok db /\
     List.length (kb_statements db) = 3%nat /\
     exists db', removeStatement example.conn "1" db = Ok db'
                 /\ kb_statements db' = []) /\
  (forall conn db db',
     recursive_triggers conn = true -> wf_db db ->
     (forall s, removeStatement conn s db = Ok db' ->
        (forall id, js.parseInt s = Some id ->
           forall r, In r (kb_statements db') -> statementId r <> id) /\
        closed (kb_statements db) (kb_statements db')) /\
     (forall g, removeStatements conn g db = Ok db' ->
        (forall r, In r (kb_statements db') -> graph (cols r) <> g) /\
        closed (kb_statements db) (kb_statements db'))).
Proof.
  split.
  - eexists. split; [reflexivity|]. split; [reflexivity|].
    eexists. split; [vm_compute; reflexivity | reflexivity].
  - intros conn db db' Hrec Hwf. split.
    + intros s E. unfold removeStatement in E.
      destruct (js.parseInt s) as [id|].
      * apply delete_where_inv in E. destruct E as [E _]. rewrite Hrec in E.
        destruct (delete_from_complete _ _ _ _ _ Hwf E) as [C1 C2].
        split; [|assumption].
        intros id' [= <-] r Hr. apply Z.eqb_neq. now apply C1.
      * inv_Ok E. subst db'. split; [discriminate|]. apply closed_refl.
    + intros g E. unfold removeStatements in E.
      apply delete_where_inv in E. destruct E as [E _]. rewrite Hrec in E.
      destruct (delete_from_complete _ _ _ _ _ Hwf E) as [C1 C2].
      split; [|assumption].
      intros r Hr. apply String.eqb_neq. now apply (C1 r).
Qed.

Lemma cascade_complete_witness :
  recursive_triggers example.conn = true /\ wf_db example.chain_db /\
  removeStatement example.conn "1" example.chain_db
    = Ok {| kb_statements := []; sqlite_sequence := 3 |} /\
  closed (kb_statements example.chain_db) [].
Proof.
  assert (wf_db example.chain_db) as W by (repeat constructor).
  assert (removeStatement example.conn "1" example.chain_db
          = Ok {| kb_statements := []; sqlite_sequence := 3 |}) as E
    by (vm_compute; reflexivity).
  split; [reflexivity|]. split; [exact W|]. split; [exact E|].
  exact (proj2 (proj1 (proj2 cascade_complete example.conn example.chain_db _
                         eq_refl W) "1" E)).
Defined.

(** The claim as stated fails on a connection as SQLite opens it, which is
    the one the store is given: without [PRAGMA recursive_triggers] the
    trigger does not fire on the rows it deletes itself.  Removing the
    first statement of the chain removes (_b1, q, _b2) with it and leaves
    (_b2, r, "leaf"), though _b2 was the object of a deleted row. *)
Lemma cascade_complete_counterexample :
  recursive_triggers sample.default_conn = false /\
  addStatements [example.chain_1; example.chain_2; example.chain_3] empty_db
    = Ok example.chain_db /\
  removeStatement sample.default_conn "1" example.chain_db
    = Ok {| kb_statements := [example.row 3 example.chain_3];
            sqlite_sequence := 3 |} /\
  cols (example.row 3 example.chain_3) = statement_values example.chain_3 /\
  ~ closed (kb_statements example.chain_db) [example.row 3 example.chain_3].
Proof.
  split; [reflexivity|]. split; [reflexivity|].
  split; [vm_compute; reflexivity|]. split; [reflexivity|].
  intros C.
  apply (C (example.row 2 example.chain_2)) with (r := example.row 3 example.chain_3).
  - right; left; reflexivity.
  - simpl. intros [H | []]. discriminate H.
  - reflexivity.
  - left; reflexivity.
  - reflexivity.
Qed.

(** A blank node that points back to an ancestor does not keep the cascade
    going: each row is gone before the trigger runs for it. *)
Example cascade_on_a_cycle :
  exists db,
    addStatements
      [example.chain_1; example.chain_2;
       rdfjs.quad (rdfjs.blankNode "b2") (rdfjs.namedNode "r")
         (rdfjs.blankNode "b1") (rdfjs.namedNode "g")] empty_db = Ok db /\
    List.length (kb_statements db) = 3%nat /\
    removeStatement example.conn "1" db
    = Ok {| kb_statements := []; sqlite_sequence := 3 |}.
Proof. eexists. repeat split; vm_compute; reflexivity. Qed.

(** ** Reciprocal Rank Fusion *)

Section SumIf.

Context {A : Type}.
Variables (p : A -> bool) (f : A -> Q).

Lemma sum_if_app (l1 l2 : list A) :
  (sum_if p f (l1 ++ l2) == sum_if p f l1 + sum_if p f l2)%Q.
Proof.
  induction l1 as [|a l1 IH]; simpl.
  - ring.
  - rewrite IH. ring.
Qed.

Lemma sum_if_none (l : list A) :
  (forall a, In a l -> p a = false) -> (sum_if p f l == 0)%Q.
Proof.
  induction l as [|a l IH]; simpl; intros H.
  - reflexivity.
  - rewrite (H a) by now left. rewrite IH by auto. ring.
Qed.

Lemma sum_if_filter (l : list A) :
  (sum_if p f l == sum_if (fun _ => true) f (filter p l))%Q.
Proof.
  induction l as [|a l IH]; simpl.
  - reflexivity.
  - destruct (p a); simpl; rewrite IH; ring.
Qed.

End SumIf.

Lemma sum_if_map {A B : Type} (g : A -> B) (p : B -> bool) (f : B -> Q)
    (l : list A) :
  sum_if p f (map g l) = sum_if (fun a => p (g a)) (fun a => f (g a)) l.
Proof. induction l as [|a l IH]; simpl; [|rewrite IH]; reflexivity. Qed.

Lemma NoDup_map_eq {A B : Type} (f : A -> B) (l : list A) (a b : A) :
  NoDup (map f l) -> In a l -> In b l -> f a = f b -> a = b.
Proof.
  induction l as [|x l IH]; simpl; [tauto|].
  intros Hn Ha Hb E. inversion Hn as [|? ? Hx Hn']; subst.
  destruct Ha as [-> | Ha], Hb as [-> | Hb]; auto.
  - exfalso. apply Hx. rewrite E. now apply in_map.
  - exfalso. apply Hx. rewrite <- E. now apply in_map.
Qed.

(** In a list without duplicate keys, a key selects one element. *)
Lemma filter_key {A : Type} (key : A -> Z) (l : list A) (a : A) :
  NoDup (map key l) -> In a l ->
  filter (fun b => key b =? key a) l = [a].
Proof.
  induction l as [|x l IH]; simpl; [tauto|].
  intros Hn Ha. inversion Hn as [|? ? Hx Hn']; subst.
  destruct Ha as [-> | Ha].
  - rewrite Z.eqb_refl. f_equal. apply filter_none.
    intros b Hb. apply Z.eqb_neq. intros E. apply Hx. rewrite <- E.
    now apply in_map.
  - destruct (Z.eqb_spec (key x) (key a)) as [E | NE]; [|auto].
    exfalso. apply Hx. rewrite E. now apply in_map.
Qed.

Module rrf_facts.

Import rrf.
Local Open Scope Q_scope.

(** *** Grouping *)

Lemma add_to_group_ids (sc : ScoreRow * Chunk) (gs : list RankedResult) (x : Z) :
  In x (map r_id (add_to_group sc gs)) <->
  x = id (snd sc) \/ In x (map r_id gs).
Proof.
  destruct sc as [s c]. induction gs as [|g gs IH]; simpl.
  - intuition.
  - destruct (Z.eqb_spec (r_id g) (id c)) as [E | NE]; simpl.
    + intuition congruence.
    + rewrite IH. simpl. tauto.
Qed.

Lemma add_to_group_NoDup (sc : ScoreRow * Chunk) (gs : list RankedResult) :
  NoDup (map r_id gs) -> NoDup (map r_id (add_to_group sc gs)).
Proof.
  destruct sc as [s c]. induction gs as [|g gs IH]; simpl; intros Hn.
  - repeat constructor. simpl. tauto.
  - inversion Hn as [|? ? Hx Hn']; subst.
    destruct (Z.eqb_spec (r_id g) (id c)) as [E | NE]; simpl.
    + now constructor.
    + constructor; [|auto]. rewrite add_to_group_ids. simpl.
      intros [E | H]; [congruence | contradiction].
Qed.

Lemma add_to_group_score (sc : ScoreRow * Chunk) (gs : list RankedResult)
    (x : Z) :
  sum_if (fun g => r_id g =? x)%Z rrf_score (add_to_group sc gs) ==
  sum_if (fun g => r_id g =? x)%Z rrf_score gs
  + (if (id (snd sc) =? x)%Z then score (fst sc) else 0).
Proof.
  destruct sc as [s c]. induction gs as [|g gs IH]; simpl.
  - ring.
  - destruct (Z.eqb_spec (r_id g) (id c)) as [E | NE]; simpl.
    + rewrite <- E. destruct (r_id g =? x)%Z; ring.
    + simpl in IH. rewrite IH. ring.
Qed.

Lemma group_by_id_fold (joined : list (ScoreRow * Chunk))
    (acc : list RankedResult) (x : Z) :
  NoDup (map r_id acc) ->
  let gs := fold_left (fun groups sc => add_to_group sc groups) joined acc in
  NoDup (map r_id gs) /\
  (In x (map r_id gs) <->
   In x (map r_id acc) \/ exists sc, In sc joined /\ id (snd sc) = x) /\
  sum_if (fun g => r_id g =? x)%Z rrf_score gs ==
  sum_if (fun g => r_id g =? x)%Z rrf_score acc
  + sum_if (fun sc => id (snd sc) =? x)%Z (fun sc => score (fst sc)) joined.
Proof.
  revert acc. induction joined as [|sc joined IH]; intros acc Hn; simpl.
  - split; [assumption|]. split; [|ring].
    split; [auto|]. intros [H | (sc & [] & _)]. assumption.
  - destruct (IH (add_to_group sc acc) (add_to_group_NoDup sc acc Hn))
      as (I1 & I2 & I3).
    split; [assumption|]. split.
    + rewrite I2, add_to_group_ids. split.
      * intros [[E | H] | (sc' & H & E)]; eauto.
      * intros [H | (sc' & [<- | H] & E)]; eauto.
    + rewrite I3, add_to_group_score. ring.
Qed.

Lemma group_score (gs : list RankedResult) (r : RankedResult) :
  NoDup (map r_id gs) -> In r gs ->
  sum_if (fun g => r_id g =? r_id r)%Z rrf_score gs == rrf_score r.
Proof.
  intros Hn Hr. rewrite sum_if_filter, (filter_key r_id gs r Hn Hr).
  simpl. ring.
Qed.

(** *** The join and the rank lists *)

Lemma join_score (ss : list ScoreRow) (chunks : list Chunk) (x : Z) :
  NoDup (map id chunks) -> In x (map id chunks) ->
  sum_if (fun sc => id (snd sc) =? x)%Z (fun sc => score (fst sc))
    (join ss chunks)
  == sum_if (fun s => rowid s =? x)%Z score ss.
Proof.
  intros Hn Hx. apply in_map_iff in Hx. destruct Hx as (c & <- & Hc).
  unfold join. induction ss as [|s ss IH]; simpl; [reflexivity|].
  rewrite sum_if_app, IH, sum_if_map. simpl.
  apply Qplus_inj_r.
  destruct (Z.eqb_spec (rowid s) (id c)) as [E | NE].
  - rewrite E, (filter_key id chunks c Hn Hc). simpl.
    rewrite Z.eqb_refl. ring.
  - rewrite sum_if_none; [ring|]. intros b Hb.
    apply filter_In in Hb. destruct Hb as [_ Hb]. apply Z.eqb_eq in Hb.
    apply Z.eqb_neq. congruence.
Qed.

Lemma rank_list_score (k : Z) (l : RankList) (x : Z) :
  NoDup (map fst l) ->
  sum_if (fun e => fst e =? x)%Z (fun e => reciprocal k (snd e)) l
  == contribution k l x.
Proof.
  unfold contribution. induction l as [|e l IH]; simpl; intros Hn.
  - reflexivity.
  - inversion Hn as [|? ? Hx Hn']; subst.
    destruct (Z.eqb_spec (fst e) x) as [E | NE]; [|rewrite IH by assumption; ring].
    rewrite sum_if_none; [ring|].
    intros b Hb. apply Z.eqb_neq. intros E'. apply Hx. rewrite E, <- E'.
    now apply in_map.
Qed.

Lemma combined_score (k : Z) (fts vec : RankList) (x : Z) :
  NoDup (map fst fts) -> NoDup (map fst vec) ->
  sum_if (fun s => rowid s =? x)%Z score (combined_scores k fts vec)
  == contribution k fts x + contribution k vec x.
Proof.
  intros Hf Hv. unfold combined_scores. rewrite sum_if_map; simpl.
  rewrite sum_if_app, !rank_list_score by assumption. reflexivity.
Qed.

(** Each chunk of either rank list has one group, scored by the sum of
    what the lists contribute. *)
Lemma grouped_spec (k : Z) (fts vec : RankList) (chunks : list Chunk) :
  NoDup (map fst fts) -> NoDup (map fst vec) -> NoDup (map id chunks) ->
  NoDup (map r_id (grouped k fts vec chunks)) /\
  forall x, In x (map id chunks) ->
    In x (map fst fts) \/ In x (map fst vec) ->
    exists r, In r (grouped k fts vec chunks) /\ r_id r = x /\
              rrf_score r == contribution k fts x + contribution k vec x.
Proof.
  intros Hf Hv Hc. unfold grouped, group_by_id.
  split.
  - apply (group_by_id_fold _ [] 0%Z). constructor.
  - intros x Hx Hl.
    destruct (group_by_id_fold (join (combined_scores k fts vec) chunks) [] x)
      as (G1 & G2 & G3); [constructor|].
    assert (In x (map r_id
              (fold_left (fun groups sc => add_to_group sc groups)
                 (join (combined_scores k fts vec) chunks) []))) as Hin.
    { apply G2. right.
      assert (In x (map fst (fts ++ vec))) as Hl'
        by (rewrite map_app; apply in_or_app; exact Hl).
      apply in_map_iff in Hl'. destruct Hl' as (e & He & Hin).
      apply in_map_iff in Hx. destruct Hx as (c & Hcx & Hcin).
      exists ({| rowid := fst e; score := reciprocal k (snd e) |}, c).
      split; [|assumption].
      unfold join. apply in_flat_map. eexists. split.
      - unfold combined_scores. apply in_map. exact Hin.
      - apply in_map. apply filter_In. split; [assumption|].
        simpl. apply Z.eqb_eq. congruence. }
    apply in_map_iff in Hin. destruct Hin as (r & Hr & Hin).
    exists r. split; [assumption|]. split; [assumption|].
    rewrite <- (group_score _ r G1 Hin), Hr, G3. simpl.
    rewrite join_score, combined_score by assumption. ring.
Qed.

(** *** ORDER BY *)

Lemma insert_desc_perm (r : RankedResult) (l : list RankedResult) :
  Permutation (r :: l) (insert_desc r l).
Proof.
  induction l as [|x l IH]; simpl; [reflexivity|].
  destruct (Qle_bool (rrf_score x) (rrf_score r)); [reflexivity|].
  rewrite perm_swap. now constructor.
Qed.

Lemma insert_desc_sorted (r : RankedResult) (l : list RankedResult) :
  StronglySorted score_desc l -> StronglySorted score_desc (insert_desc r l).
Proof.
  induction 1 as [|x l Hs IH Hx]; simpl.
  - repeat constructor.
  - destruct (Qle_bool (rrf_score x) (rrf_score r)) eqn:E.
    + apply Qle_bool_iff in E. constructor; [now constructor|].
      constructor; [exact E|].
      eapply Forall_impl; [|exact Hx]. unfold score_desc. intros a Ha.
      eapply Qle_trans; eassumption.
    + constructor; [assumption|].
      rewrite <- (insert_desc_perm r l). constructor; [|assumption].
      unfold score_desc. apply Qlt_le_weak, Qnot_le_lt.
      intros H. apply Qle_bool_iff in H. congruence.
Qed.

Lemma order_by_score_desc_spec (l : list RankedResult) :
  Permutation l (order_by_score_desc l)
  /\ StronglySorted score_desc (order_by_score_desc l).
Proof.
  induction l as [|r l [IH1 IH2]]; simpl.
  - split; constructor.
  - split; [|now apply insert_desc_sorted].
    rewrite <- insert_desc_perm. now constructor.
Qed.

(** Where all scores differ, the order is determined. *)
Lemma sorted_unique (l1 l2 : list RankedResult) :
  StronglySorted (fun a b => rrf_score b < rrf_score a) l1 ->
  StronglySorted score_desc l2 -> Permutation l1 l2 -> l1 = l2.
Proof.
  intros H1. revert l2. induction H1 as [|a l1 Hs IH Ha]; intros l2 H2 P.
  - apply Permutation_nil in P. now subst.
  - destruct l2 as [|b l2]; [apply Permutation_sym, Permutation_nil in P; discriminate|].
    inversion H2 as [|? ? Hs2 Hb]; subst.
    assert (a = b) as ->.
    { assert (In a (b :: l2)) as Ia by (eapply Permutation_in; [exact P | now left]).
      assert (In b (a :: l1)) as Ib
        by (eapply Permutation_in; [symmetry; exact P | now left]).
      destruct Ia as [-> | Ia]; [reflexivity|].
      destruct Ib as [-> | Ib]; [reflexivity|].
      rewrite Forall_forall in Ha, Hb.
      specialize (Ha b Ib). specialize (Hb a Ia). unfold score_desc in Hb.
      exfalso. eapply Qlt_not_le; eassumption. }
    f_equal. apply IH; [assumption|]. eapply Permutation_cons_inv; exact P.
Qed.

End rrf_facts.

Ltac nodup_tac :=
  repeat (constructor; [simpl; intuition discriminate|]); constructor.

(** C8 (as amended).  The hybrid search gives each chunk of either rank list
    one result, scored by the sum of 1/(k + rank) over the lists in which
    the chunk appears (a list without the chunk contributes 0), and returns
    the results in descending order of score; the query has no second sort
    key, so it does not fix the order of results with equal scores.  With
    the full-text ranks {X:1, Y:2}, the vector ranks {Y:1, Z:2} and k = 60,
    score(Y) = 1/62 + 1/61 = 123/3782, score(X) = 1/61, score(Z) = 1/62 and
    the order is Y, X, Z. *)
Theorem rrf_fusion :
  (forall k fts vec chunks,
     NoDup (map fst fts) -> NoDup (map fst vec) -> NoDup (map rrf.id chunks) ->
     rrf.query_result k fts vec chunks (rrf.search k fts vec chunks) /\
     forall out, rrf.query_result k fts vec chunks out ->
       StronglySorted rrf.score_desc out /\
       forall x, In x (map rrf.id chunks) ->
         In x (map fst fts) \/ In x (map fst vec) ->
         exists r, In r out /\ rrf.r_id r = x /\
           (rrf.rrf_score r
            == rrf.contribution k fts x + rrf.contribution k vec x)%Q /\
           forall r', In r' out -> rrf.r_id r' = x -> r' = r) /\
  (forall out,
     rrf.query_result 60 example.fts_ranks example.vec_ranks
       [example.chunk_X; example.chunk_Y; example.chunk_Z] out ->
     out = [example.ranked example.chunk_Y (123 # 3782);
            example.ranked example.chunk_X (1 # 61);
            example.ranked example.chunk_Z (1 # 62)]) /\
  (123 # 3782 == 1 / 62 + 1 / 61)%Q.
Proof.
  split; [|split].
  - intros k fts vec chunks Hf Hv Hc.
    destruct (rrf_facts.grouped_spec k fts vec chunks Hf Hv Hc) as [Gn Gs].
    split.
    + unfold rrf.query_result, rrf.search.
      apply rrf_facts.order_by_score_desc_spec.
    + intros out [P S]. split; [assumption|]. intros x Hx Hl.
      destruct (Gs x Hx Hl) as (r & Hr & Hid & Hsc).
      exists r. split; [eapply Permutation_in; eassumption|].
      split; [assumption|]. split; [assumption|].
      intros r' Hr' Hid'.
      apply (NoDup_map_eq rrf.r_id out); try congruence.
      * eapply Permutation_NoDup; [|exact Gn]. now apply Permutation_map.
      * eapply Permutation_in; eassumption.
  - intros out [P S].
    assert (rrf.grouped 60 example.fts_ranks example.vec_ranks
              [example.chunk_X; example.chunk_Y; example.chunk_Z]
            = [example.ranked example.chunk_X (1 # 61);
               example.ranked example.chunk_Y (123 # 3782);
               example.ranked example.chunk_Z (1 # 62)]) as G
      by (vm_compute; reflexivity).
    rewrite G in P. symmetry. apply rrf_facts.sorted_unique; [|assumption|].
    + repeat constructor.
    + apply perm_trans with (2 := P). apply perm_swap.
  - reflexivity.
Qed.

Lemma rrf_fusion_witness :
  NoDup (map fst example.fts_ranks) /\ NoDup (map fst example.vec_ranks) /\
  NoDup (map rrf.id [example.chunk_X; example.chunk_Y; example.chunk_Z]) /\
  rrf.query_result 60 example.fts_ranks example.vec_ranks
    [example.chunk_X; example.chunk_Y; example.chunk_Z]
    (rrf.search 60 example.fts_ranks example.vec_ranks
       [example.chunk_X; example.chunk_Y; example.chunk_Z]).
Proof.
  assert (NoDup (map fst example.fts_ranks)) as Nf by nodup_tac.
  assert (NoDup (map fst example.vec_ranks)) as Nv by nodup_tac.
  assert (NoDup (map rrf.id [example.chunk_X; example.chunk_Y; example.chunk_Z])) as Nc
    by nodup_tac.
  split; [exact Nf|]. split; [exact Nv|]. split; [exact Nc|].
  exact (proj1 (proj1 rrf_fusion 60 example.fts_ranks example.vec_ranks
                  [example.chunk_X; example.chunk_Y; example.chunk_Z] Nf Nv Nc)).
Defined.

(** The claim as stated fails twice.  In its own example Y has rank 2 in the
    full-text list, so its score is 1/62 + 1/61 and not 2/61.  And among
    equal scores the query may return the larger chunk id first: with Y
    alone in the full-text list and X alone in the vector list, both score
    1/61 and the result Y, X is one the query allows (it is the one [search]
    computes). *)
Lemma rrf_fusion_counterexample :
  (exists r,
     In r (rrf.search 60 example.fts_ranks example.vec_ranks
             [example.chunk_X; example.chunk_Y; example.chunk_Z]) /\
     rrf.r_id r = rrf.id example.chunk_Y /\
     (rrf.rrf_score r == 1 / 62 + 1 / 61)%Q /\
     ~ (rrf.rrf_score r == 2 / 61)%Q) /\
  rrf.search 60 [(2, 1)] [(1, 1)] [example.chunk_X; example.chunk_Y]
    = [example.ranked example.chunk_Y (1 # 61); example.ranked example.chunk_X (1 # 61)] /\
  rrf.query_result 60 [(2, 1)] [(1, 1)] [example.chunk_X; example.chunk_Y]
    [example.ranked example.chunk_Y (1 # 61); example.ranked example.chunk_X (1 # 61)] /\
  ~ StronglySorted rrf.spec_order
      [example.ranked example.chunk_Y (1 # 61); example.ranked example.chunk_X (1 # 61)].
Proof.
  split; [|split; [|split]].
  - exists (example.ranked example.chunk_Y (123 # 3782)).
    split; [left; reflexivity|]. split; [reflexivity|].
    split; [reflexivity|]. discriminate.
  - reflexivity.
  - split; [apply Permutation_refl|].
    repeat constructor; discriminate.
  - intros H. inversion H as [|? ? _ F]; subst.
    inversion F as [|? ? O _]; subst.
    destruct O as [O | [_ O]]; discriminate O.
Qed.

(** * Further properties of the store *)

(** ** The two decoders *)

(** X1.  [getStatement] and [getStatements] decode a row alike, to the same
    quad or both by throwing, whatever the data factory, except on a row of
    term type 'BlankNode' whose object starts with [_:] and that
    [getStatement] decodes.  There [getStatement] gives a NamedNode of the
    whole text, and [getStatements], which first asks the factory for that
    NamedNode as well, gives the blank node named by the rest of the text,
    or throws. *)
Theorem decoders_agree (df : factory.DataFactory) (row : StatementRow) :
  (store.decode_getStatement df row = store.decode_getStatements df row <->
   ~ (termType (cols row) = "BlankNode"
      /\ js.startsWith (object (cols row)) "_:" = true
      /\ store.decode_getStatement df row <> None)) /\
  (termType (cols row) = "BlankNode" ->
   js.startsWith (object (cols row)) "_:" = true ->
   (forall q, store.decode_getStatement df row = Some q ->
      rdfjs.object q = rdfjs.NamedNode (object (cols row))) /\
   (forall q, store.decode_getStatements df row = Some q ->
      rdfjs.object q = rdfjs.BlankNode (js.slice (object (cols row)) 2)
      /\ factory.iri df (object (cols row)) = true)).
Proof.
  rewrite decode_getStatement_eq, decode_getStatements_eq. simpl.
  unfold store.node_object.
  destruct (factory.iri df (subject (cols row)) && factory.iri df (predicate (cols row))
            && factory.iri df (graph (cols row))).
  2:{ split; [split; [intros _ (_ & _ & H); now apply H | reflexivity]|].
      intros _ _. split; discriminate. }
  destruct (String.eqb_spec (termType (cols row)) "Literal") as [L | NL].
  { split.
    - split; [|reflexivity]. intros _ (B & _). rewrite L in B. discriminate B.
    - intros B. rewrite L in B. discriminate B. }
  destruct (String.eqb_spec (termType (cols row)) "BlankNode") as [B | NB];
    simpl.
  2:{ split; [|contradiction]. split; [|reflexivity]. intros _ (B & _).
      contradiction. }
  destruct (factory.iri df (object (cols row))).
  2:{ split; [split; [intros _ (_ & _ & H); now apply H | reflexivity]|].
      intros _ _. split; discriminate. }
  destruct (js.startsWith (object (cols row)) "_:").
  - split.
    + split.
      * intros H. exfalso. unfold factory.blankNode in H.
        destruct (factory.label df (js.slice (object (cols row)) 2)); discriminate H.
      * intros H. exfalso. apply H.
        split; [assumption|]. split; [reflexivity | discriminate].
    + intros _ _. split.
      * intros q [= <-]. reflexivity.
      * intros q H. unfold factory.blankNode in H.
        destruct (factory.label df (js.slice (object (cols row)) 2)); [|discriminate].
        injection H as <-. auto.
  - split; [|discriminate]. split; [|reflexivity].
    intros _ (_ & H & _). discriminate H.
Qed.

Lemma decoders_agree_witness :
  termType (cols sample.prefixed_row) = "BlankNode" /\
  js.startsWith (object (cols sample.prefixed_row)) "_:" = true /\
  store.decode_getStatement factory.data_model sample.prefixed_row
    = Some (rdfjs.quad (rdfjs.NamedNode "s") (rdfjs.NamedNode "p")
              (rdfjs.NamedNode "_:b1") (rdfjs.NamedNode "g")) /\
  forall q,
    store.decode_getStatements factory.data_model sample.prefixed_row = Some q ->
    rdfjs.object q = rdfjs.BlankNode "b1".
Proof.
  split; [reflexivity|]. split; [reflexivity|]. split; [reflexivity|].
  intros q H.
  exact (proj1 (proj2 (proj2 (decoders_agree factory.data_model
                                sample.prefixed_row) eq_refl eq_refl) q H)).
Defined.

Lemma faithful_rows_differ (q1 q2 : rdfjs.Quad) :
  faithful q1 = true -> faithful q2 = true ->
  statement_values q1 = statement_values q2 -> q1 = q2.
Proof.
  intros F1 F2 E.
  destruct (row_round_trip q1 (example.row 1 q1) F1 eq_refl) as [R1 _].
  destruct (row_round_trip q2 (example.row 1 q1) F2 E) as [R2 _].
  congruence.
Qed.

(** X2.  Two quads that the row encoding keeps and that have the same row
    are the same quad: distinct such quads never meet on the unique key. *)
Theorem statement_values_injective (q1 q2 : rdfjs.Quad) :
  faithful q1 = true -> faithful q2 = true ->
  statement_values q1 = statement_values q2 -> q1 = q2.
Proof.
  apply faithful_rows_differ.
Qed.

Lemma statement_values_injective_witness :
  faithful example.test_quad = true /\
  statement_values example.test_quad = statement_values example.test_quad /\
  example.test_quad = example.test_quad.
Proof.
  split; [reflexivity|]. split; [reflexivity|].
  exact (statement_values_injective example.test_quad example.test_quad
           eq_refl eq_refl eq_refl).
Defined.

(** ** Removal *)

Section DeleteEachGone.

Variable after_delete : StatementRow -> list StatementRow
                        -> result (list StatementRow).

Hypothesis after_sub : forall old tbl out,
  after_delete old tbl = Ok out -> sub_table out tbl.

(** No visited rowid is left, whatever the triggers did. *)
Lemma delete_each_gone (ids : list Z) (tbl out : list StatementRow) :
  delete_each after_delete ids tbl = Ok out ->
  forall r, In r out -> ~ In (statementId r) ids.
Proof.
  revert tbl. induction ids as [|id ids IH]; intros tbl H r Hr; simpl in H.
  - simpl. tauto.
  - destruct (find (has_rowid id) tbl) as [old|] eqn:F.
    + inv_bind H. intros [E | Hi]; [|now apply (IH a H r)].
      apply (sub_table_In _ _ _ (delete_each_sub _ after_sub _ _ _ H)) in Hr.
      apply (sub_table_In _ _ _ (after_sub _ _ _ Ha)) in Hr.
      apply delete_rowid_In in Hr. intuition congruence.
    + intros [E | Hi]; [|now apply (IH tbl H r)].
      apply (sub_table_In _ _ _ (delete_each_sub _ after_sub _ _ _ H)) in Hr.
      apply (find_none _ _ F) in Hr. unfold has_rowid in Hr.
      rewrite E, Z.eqb_refl in Hr. discriminate.
Qed.

End DeleteEachGone.

Lemma delete_from_gone (recursive : bool) (depth : nat) (top : bool)
    (cond : StatementRow -> bool) (tbl out : list StatementRow) :
  delete_from recursive depth top cond tbl = Ok out ->
  forall r, In r out -> cond r = false.
Proof.
  intros H r Hr. pose proof (delete_from_sub _ _ _ _ _ _ H) as S.
  rewrite delete_from_eq in H.
  eapply delete_each_gone in H;
    [| intros o t u; apply trigger_program_sub | exact Hr].
  destruct (cond r) eqn:C; [|reflexivity]. exfalso. apply H.
  unfold rowids_where. apply in_map. apply filter_In.
  split; [eapply sub_table_In; eassumption | assumption].
Qed.

(** A DELETE that selects no row changes nothing and needs no depth. *)
Lemma delete_where_nothing (conn : Connection) (cond : StatementRow -> bool)
    (db : Db) :
  (forall r, In r (kb_statements db) -> cond r = false) ->
  delete_where conn cond db = Ok db.
Proof.
  intros H. unfold delete_where. rewrite delete_from_eq.
  unfold rowids_where. rewrite (filter_none cond _ H). simpl.
  destruct db; reflexivity.
Qed.

(** X3.  After [removeStatements] of a graph has returned, [getStatements]
    of that graph is empty, and removing the graph again returns and
    changes nothing.  This holds on every connection. *)
Theorem removeStatements_clears (conn : Connection) (g : string) (db db' : Db) :
  removeStatements conn g db = Ok db' ->
  getStatements g db' = [] /\ removeStatements conn g db' = Ok db'.
Proof.
  intros H. unfold removeStatements in H.
  apply delete_where_inv in H. destruct H as [H _].
  pose proof (delete_from_gone _ _ _ _ _ _ H) as G. split.
  - unfold getStatements, select_where. now rewrite (filter_none _ _ G).
  - now apply delete_where_nothing.
Qed.

Lemma removeStatements_clears_witness :
  removeStatements sample.default_conn "g1" example.two_graphs_db
    = Ok {| kb_statements := [example.row 3 example.g2_other];
            sqlite_sequence := 3 |} /\
  getStatements "g1" {| kb_statements := [example.row 3 example.g2_other];
                        sqlite_sequence := 3 |} = [].
Proof.
  assert (removeStatements sample.default_conn "g1" example.two_graphs_db
          = Ok {| kb_statements := [example.row 3 example.g2_other];
                  sqlite_sequence := 3 |}) as E by (vm_compute; reflexivity).
  split; [exact E|].
  exact (proj1 (removeStatements_clears _ _ _ _ E)).
Defined.

(** X4.  After [removeStatement] of an id has returned, [getStatement] of
    that id is [null], and removing the id again returns and changes
    nothing.  This holds on every connection and for every id string. *)
Theorem removeStatement_clears (conn : Connection) (s : string) (db db' : Db) :
  removeStatement conn s db = Ok db' ->
  getStatement s db' = None /\ removeStatement conn s db' = Ok db'.
Proof.
  unfold removeStatement, getStatement, select_where.
  destruct (js.parseInt s) as [id|]; [|auto].
  intros H. apply delete_where_inv in H. destruct H as [H _].
  pose proof (delete_from_gone _ _ _ _ _ _ H) as G. split.
  - now rewrite (filter_none _ _ G).
  - now apply delete_where_nothing.
Qed.

Lemma removeStatement_clears_witness :
  removeStatement sample.default_conn "2" example.chain_db
    = Ok {| kb_statements := [example.row 1 example.chain_1];
            sqlite_sequence := 3 |} /\
  getStatement "2" {| kb_statements := [example.row 1 example.chain_1];
                      sqlite_sequence := 3 |} = None.
Proof.
  assert (removeStatement sample.default_conn "2" example.chain_db
          = Ok {| kb_statements := [example.row 1 example.chain_1];
                  sqlite_sequence := 3 |}) as E by (vm_compute; reflexivity).
  split; [exact E|].
  exact (proj1 (removeStatement_clears _ _ _ _ E)).
Defined.



(** Where no row satisfies the trigger's WHEN, the loop deletes the visited
    rowids and nothing else. *)
Lemma delete_each_no_trigger (recursive : bool) (depth : nat) (top : bool)
    (ids : list Z) (tbl out : list StatementRow) :
  (forall r, In r tbl -> trigger_when r = false) ->
  delete_each (trigger_program recursive depth top) ids tbl = Ok out ->
  out = filter (fun r => negb (existsb (Z.eqb (statementId r)) ids)) tbl.
Proof.
  revert tbl. induction ids as [|id ids IH]; intros tbl H E; simpl in E.
  - inv_Ok E. subst. simpl. now rewrite filter_true.
  - simpl. destruct (find (has_rowid id) tbl) as [old|] eqn:F.
    + apply find_some in F. destruct F as [Hold _].
      inv_bind E.
      assert (a = delete_rowid id tbl) as ->.
      { unfold trigger_program in Ha. rewrite (H old Hold) in Ha.
        destruct (top || recursive); [destruct depth; [discriminate|]|];
          now inv_Ok Ha. }
      rewrite (IH _ (fun r Hr => H r (proj1 (proj1 (delete_rowid_In _ _ _) Hr))) E).
      unfold delete_rowid. rewrite filter_filter.
      apply filter_ext. intros r. unfold has_rowid.
      now rewrite negb_orb.
    + rewrite (IH _ H E). apply filter_ext_in.
      intros r Hr. apply (find_none _ _ F) in Hr. unfold has_rowid in Hr.
      now rewrite Hr.
Qed.

(** X6.  In a table where no row satisfies the trigger's WHEN (no
    blank-node object, no skolem IRI), a removal that returns is exact, on
    every connection: [removeStatements] has deleted the rows of the graph,
    [removeStatement] the row of the id, and all other rows are there, in
    their order, with the counter as it was. *)
Theorem removal_without_cascade (conn : Connection) (db : Db) :
  wf_db db ->
  (forall r, In r (kb_statements db) -> trigger_when r = false) ->
  (forall g db', removeStatements conn g db = Ok db' ->
     db' = {| kb_statements :=
                filter (fun r => negb (graph (cols r) =? g)%string)
                  (kb_statements db);
              sqlite_sequence := sqlite_sequence db |}) /\
  (forall s id db', js.parseInt s = Some id ->
     removeStatement conn s db = Ok db' ->
     db' = {| kb_statements :=
                filter (fun r => negb (statementId r =? id)) (kb_statements db);
              sqlite_sequence := sqlite_sequence db |}).
Proof.
  intros Hwf H.
  assert (forall cond db',
            delete_where conn cond db = Ok db' ->
            db' = {| kb_statements :=
                       filter (fun r => negb (cond r)) (kb_statements db);
                     sqlite_sequence := sqlite_sequence db |}) as D.
  { intros cond db' E. apply delete_where_inv in E. destruct E as [E Hseq].
    rewrite delete_from_eq in E.
    apply (delete_each_no_trigger _ _ _ _ _ _ H) in E.
    destruct db' as [tbl' seq']. simpl in *. subst seq'. f_equal.
    rewrite E. apply filter_ext_in. intros r Hr. f_equal.
    apply eq_true_iff_eq. rewrite existsb_exists.
    rewrite <- (rowids_where_In cond _ r Hwf Hr). split.
    - intros (x & Hx & Ex). apply Z.eqb_eq in Ex. now subst.
    - intros Hin. exists (statementId r). split; [assumption | apply Z.eqb_refl]. }
  split.
  - intros g db'. unfold removeStatements. apply D.
  - intros s id db' P. unfold removeStatement. rewrite P. apply D.
Qed.

Lemma removal_without_cascade_witness :
  wf_db sample.plain_db /\
  (forall r, In r (kb_statements sample.plain_db) -> trigger_when r = false) /\
  removeStatements sample.default_conn "g2" sample.plain_db
    = Ok {| kb_statements := [example.row 1 example.test_quad];
            sqlite_sequence := 2 |} /\
  {| kb_statements := [example.row 1 example.test_quad]; sqlite_sequence := 2 |}
    = {| kb_statements :=
           filter (fun r => negb (graph (cols r) =? "g2")%string)
             (kb_statements sample.plain_db);
         sqlite_sequence := sqlite_sequence sample.plain_db |}.
Proof.
  assert (wf_db sample.plain_db) as W by (repeat constructor).
  assert (forall r, In r (kb_statements sample.plain_db)
                    -> trigger_when r = false) as T
    by (simpl; intros r [<- | [<- | []]]; reflexivity).
  assert (removeStatements sample.default_conn "g2" sample.plain_db
          = Ok {| kb_statements := [example.row 1 example.test_quad];
                  sqlite_sequence := 2 |}) as E by (vm_compute; reflexivity).
  split; [exact W|]. split; [exact T|]. split; [exact E|].
  exact (proj1 (removal_without_cascade sample.default_conn sample.plain_db W T)
           "g2" _ E).
Defined.

(** X7.  The first level of the cascade does not depend on
    [PRAGMA recursive_triggers]: when [removeStatement] removes a row that
    satisfies the trigger's WHEN, no row is left whose subject is the
    object of that row, on every connection. *)
Theorem direct_children_removed (conn : Connection) (db db' : Db)
    (s : string) (old : StatementRow) :
  wf_db db -> In old (kb_statements db) ->
  js.parseInt s = Some (statementId old) -> trigger_when old = true ->
  removeStatement conn s db = Ok db' ->
  ~ In old (kb_statements db') /\
  forall r, In r (kb_statements db') -> subject (cols r) <> object (cols old).
Proof.
  intros Hwf Hold P T H. unfold removeStatement in H. rewrite P in H.
  apply delete_where_inv in H. destruct H as [H _].
  split.
  - intros Hin. apply (delete_from_gone _ _ _ _ _ _ H) in Hin.
    unfold has_rowid in Hin. now rewrite Z.eqb_refl in Hin.
  - rewrite delete_from_eq in H. unfold rowids_where in H.
    rewrite (filter_has_rowid _ old Hwf Hold) in H. simpl in H.
    destruct (find (has_rowid (statementId old)) (kb_statements db))
      as [o|] eqn:F.
    + apply find_has_rowid in F. destruct F as [Ho Hid].
      assert (o = old) as -> by (apply (rowid_unique (kb_statements db)); auto).
      inv_bind H. inv_Ok H. subst a.
      unfold trigger_program in Ha. simpl in Ha.
      destruct (max_trigger_depth conn) as [|d]; [discriminate|].
      rewrite T in Ha.
      intros r Hr. apply String.eqb_neq.
      apply (delete_from_gone _ _ _ _ _ _ Ha r Hr).
    + apply (find_none _ _ F) in Hold. unfold has_rowid in Hold.
      now rewrite Z.eqb_refl in Hold.
Qed.

Lemma direct_children_removed_witness :
  wf_db example.chain_db /\
  In (example.row 1 example.chain_1) (kb_statements example.chain_db) /\
  trigger_when (example.row 1 example.chain_1) = true /\
  forall db',
    removeStatement sample.default_conn "1" example.chain_db = Ok db' ->
    forall r, In r (kb_statements db') -> subject (cols r) <> "b1".
Proof.
  assert (wf_db example.chain_db) as W by (repeat constructor).
  assert (In (example.row 1 example.chain_1) (kb_statements example.chain_db))
    as I by (left; reflexivity).
  split; [exact W|]. split; [exact I|]. split; [reflexivity|].
  intros db' E.
  exact (proj2 (direct_children_removed sample.default_conn example.chain_db db'
                  "1" (example.row 1 example.chain_1) W I eq_refl eq_refl E)).
Defined.

(** ** Statement ids and keys *)

Lemma insert_row_seq (v : StatementValues) (db db' : Db) :
  insert_row OnConflictDoNothing v db = Ok db' ->
  sqlite_sequence db < sqlite_sequence db' /\
  forall r, In r (kb_statements db') ->
    In r (kb_statements db) \/ statementId r = sqlite_sequence db'.
Proof.
  unfold insert_row.
  destruct (existsb _ _); intros H; inv_Ok H; subst db'; simpl.
  - split; [lia | auto].
  - split; [lia|]. intros r Hr. apply in_app_or in Hr.
    destruct Hr as [Hr | [<- | []]]; auto.
Qed.

Lemma insert_values_seq (vs : list StatementValues) (db db' : Db) :
  insert_values OnConflictDoNothing vs db = Ok db' ->
  sqlite_sequence db <= sqlite_sequence db' /\
  forall r, In r (kb_statements db') ->
    In r (kb_statements db)
    \/ sqlite_sequence db < statementId r <= sqlite_sequence db'.
Proof.
  revert db. induction vs as [|v vs IH]; intros db H; simpl in H.
  - inv_Ok H. subst. split; [lia | auto].
  - inv_bind H. apply insert_row_seq in Ha. destruct Ha as [S1 R1].
    destruct (IH _ H) as [S2 R2]. split; [lia|].
    intros r Hr. destruct (R2 r Hr) as [Hin | Hb]; [|right; lia].
    destruct (R1 r Hin) as [Hin' | E]; [auto | right; lia].
Qed.

Lemma evolves_step (db db' : Db) :
  evolves db db' ->
  sqlite_sequence db <= sqlite_sequence db' /\
  forall r, In r (kb_statements db') ->
    In r (kb_statements db)
    \/ sqlite_sequence db < statementId r <= sqlite_sequence db'.
Proof.
  assert (forall conn cond mid out,
            delete_where conn cond mid = Ok out ->
            sqlite_sequence out = sqlite_sequence mid /\
            forall r, In r (kb_statements out) -> In r (kb_statements mid)) as D.
  { intros conn cond mid out H. apply delete_where_inv in H.
    destruct H as [H E]. split; [assumption|].
    intros r. apply sub_table_In. eapply delete_from_sub; eassumption. }
  induction 1 as [|mid qs db' _ [S R] H|conn mid g db' _ [S R] H
                  |conn mid s db' _ [S R] H].
  - split; [lia | auto].
  - rewrite addStatements_insert in H. apply insert_values_seq in H.
    destruct H as [S' R']. split; [lia|].
    intros r Hr. destruct (R' r Hr) as [Hin | Hb]; [|right; lia].
    destruct (R r Hin); [auto | right; lia].
  - apply D in H. destruct H as [E I]. split; [lia|].
    intros r Hr. rewrite E. auto.
  - unfold removeStatement in H. destruct (js.parseInt s).
    + apply D in H. destruct H as [E I]. split; [lia|].
      intros r Hr. rewrite E. auto.
    + inv_Ok H. subst. auto.
Qed.

Lemma reachable_evolves (db : Db) : reachable db <-> evolves empty_db db.
Proof.
  split; induction 1; eauto using evolves, reachable.
Qed.

Lemma reachable_counted (db : Db) : reachable db -> counted db.
Proof.
  intros H. apply reachable_evolves, evolves_step in H. destruct H as [_ R].
  intros r Hr. destruct (R r Hr) as [[] | B]. simpl in B. lia.
Qed.

(** X8.  Statement ids are never reused.  In every state of the store the
    ids are positive and not above the AUTOINCREMENT counter; and when the
    store goes on from a state, whatever is added and removed, a row of the
    later state that bears the id of a row of the earlier state is that very
    row: a removed statement's id is not given to another statement. *)
Theorem statement_ids_never_reused (db db' : Db) :
  reachable db -> evolves db db' ->
  counted db' /\
  forall r r', In r (kb_statements db) -> In r' (kb_statements db') ->
    statementId r' = statementId r -> r' = r.
Proof.
  intros Hr He. split.
  - apply reachable_counted. apply reachable_evolves.
    apply reachable_evolves in Hr. clear - Hr He.
    induction He; eauto using evolves.
  - intros r r' Hin Hin' E.
    destruct (proj2 (evolves_step _ _ He) r' Hin') as [Hold | B].
    + apply (rowid_unique (kb_statements db)); try assumption.
      now apply reachable_wf.
    + pose proof (reachable_counted db Hr r Hin). lia.
Qed.

Lemma statement_ids_never_reused_witness :
  reachable example.chain_db /\
  exists db',
    evolves example.chain_db db' /\
    kb_statements db' = [example.row 4 example.test_quad] /\
    counted db'.
Proof.
  assert (evolves example.chain_db
            {| kb_statements := [example.row 4 example.test_quad];
               sqlite_sequence := 4 |}) as E.
  { apply (ev_addStatements _ {| kb_statements := []; sqlite_sequence := 3 |}
             [example.test_quad]); [|reflexivity].
    apply (ev_removeStatement _ example.conn example.chain_db "1");
      [constructor | vm_compute; reflexivity]. }
  split; [exact chain_db_reachable|].
  eexists. split; [exact E|]. split; [reflexivity|].
  exact (proj1 (statement_ids_never_reused _ _ chain_db_reachable E)).
Defined.

(** X9.  The unique constraint holds in every state of the store: two rows
    with the same subject, predicate, object, graph, term type, language
    and datatype are one row. *)
Theorem unique_key_invariant (db : Db) (r1 r2 : StatementRow) :
  reachable db ->
  In r1 (kb_statements db) -> In r2 (kb_statements db) ->
  cols r1 = cols r2 -> r1 = r2.
Proof.
  intros H. apply (NoDup_map_eq cols). now apply reachable_unique_key.
Qed.

Lemma unique_key_invariant_witness :
  reachable example.chain_db /\
  In (example.row 2 example.chain_2) (kb_statements example.chain_db) /\
  example.row 2 example.chain_2 = example.row 2 example.chain_2.
Proof.
  assert (In (example.row 2 example.chain_2) (kb_statements example.chain_db))
    as I by (right; left; reflexivity).
  split; [exact chain_db_reachable|]. split; [exact I|].
  exact (unique_key_invariant example.chain_db _ _ chain_db_reachable I I
           eq_refl).
Defined.

(** ** A batch, written and read *)

Lemma insert_values_fresh (vs : list StatementValues) (db : Db) :
  NoDup vs ->
  (forall v, In v vs -> present v (kb_statements db) = false) ->
  exists db' news,
    insert_values OnConflictDoNothing vs db = Ok db' /\
    kb_statements db' = kb_statements db ++ news /\ map cols news = vs.
Proof.
  revert db. induction vs as [|v vs IH]; intros db Hn Hp; simpl.
  - exists db, []. now rewrite app_nil_r.
  - inversion Hn as [|? ? Hv Hn']; subst.
    destruct (insert_row_DoNothing v db) as (db1 & E & [[P _] | [_ (id & _ & R)]]).
    + rewrite Hp in P by now left. discriminate.
    + rewrite E; simpl.
      destruct (IH db1 Hn') as (db' & news & E' & R' & M).
      * intros w Hw. rewrite R. unfold present. rewrite existsb_app.
        fold (present w (kb_statements db)). rewrite Hp by now right.
        simpl. rewrite orb_false_r.
        destruct (values_eqb v w) eqn:Q; [|reflexivity].
        apply values_eqb_eq in Q. subst. contradiction.
      * exists db', ({| statementId := id; cols := v |} :: news).
        split; [assumption|]. rewrite R', R, <- app_assoc. simpl.
        split; [reflexivity | now rewrite M].
Qed.

Lemma decode_rows (df : factory.DataFactory) (qs : list rdfjs.Quad)
    (news : list StatementRow) :
  (forall q, In q qs -> faithful q = true /\ store.accepts df q = true) ->
  map cols news = map statement_values qs ->
  store.map_rows (store.decode_getStatements df) news = Some qs.
Proof.
  revert news. induction qs as [|q qs IH]; intros [|r news] F M;
    try discriminate; [reflexivity|].
  simpl in M. injection M as Mr Mt. simpl.
  destruct (F q (or_introl eq_refl)) as [Fq Aq].
  rewrite (proj1 (store_row_round_trip df q r Fq Aq Mr)).
  rewrite (IH news); [reflexivity | | assumption].
  intros x Hx. apply F. now right.
Qed.



(** ** Ids as the test writes them *)

Lemma digit_digit_char (d : Z) :
  0 <= d < 10 -> js.digit 10 (number.digit_char d) = Some d.
Proof.
  intros H.
  assert (d = 0 \/ d = 1 \/ d = 2 \/ d = 3 \/ d = 4 \/ d = 5 \/ d = 6
          \/ d = 7 \/ d = 8 \/ d = 9) as C by lia.
  repeat (destruct C as [-> | C]; [reflexivity|]). subst. reflexivity.
Qed.

Lemma is_digit_digit_char (d : Z) :
  0 <= d < 10 -> is_digit (number.digit_char d) = true.
Proof. intros H. unfold is_digit. now rewrite digit_digit_char. Qed.

Lemma to_decimal_S (fuel : nat) (n : Z) (acc : string) :
  number.to_decimal (S fuel) n acc =
  if n <? 10 then String (number.digit_char (n mod 10)) acc
  else number.to_decimal fuel (n / 10) (String (number.digit_char (n mod 10)) acc).
Proof. reflexivity. Qed.

Lemma digits_cons (radix : Z) (a : option Z) (c : ascii) (s : string) :
  js.digits radix a (String c s) =
  match js.digit radix c with
  | Some d =>
      js.digits radix
        (Some (match a with Some x => x * radix + d | None => d end)) s
  | None => a
  end.
Proof. reflexivity. Qed.

Lemma to_decimal_value (fuel : nat) (n : Z) (acc : string) (a : option Z) :
  0 <= n < 2 ^ Z.of_nat (S fuel) -> a = None \/ a = Some 0 ->
  js.digits 10 a (number.to_decimal (S fuel) n acc) = js.digits 10 (Some n) acc.
Proof.
  revert n acc a. induction fuel as [|fuel IH]; intros n acc a Hn Ha;
    rewrite to_decimal_S; destruct (Z.ltb_spec n 10) as [L | L].
  - rewrite digits_cons, Z.mod_small, digit_digit_char by lia.
    destruct Ha as [-> | ->]; reflexivity.
  - exfalso. change (2 ^ Z.of_nat 1) with 2 in Hn. lia.
  - rewrite digits_cons, Z.mod_small, digit_digit_char by lia.
    destruct Ha as [-> | ->]; reflexivity.
  - rewrite IH; [| | assumption].
    + rewrite digits_cons, digit_digit_char by (apply Z.mod_pos_bound; lia).
      do 2 f_equal. pose proof (Z.div_mod n 10). lia.
    + split; [apply Z.div_pos; lia|].
      apply Z.div_lt_upper_bound; [lia|].
      replace (Z.of_nat (S (S fuel))) with (Z.succ (Z.of_nat (S fuel))) in Hn
        by lia.
      rewrite Z.pow_succ_r in Hn by lia. lia.
Qed.

Lemma all_digits_cons (c : ascii) (s : string) :
  all_digits (String c s) = is_digit c && all_digits s.
Proof. reflexivity. Qed.

Lemma to_decimal_digits (fuel : nat) (n : Z) (acc : string) :
  all_digits acc = true ->
  all_digits (number.to_decimal (S fuel) n acc) = true
  /\ number.to_decimal (S fuel) n acc <> "".
Proof.
  assert (forall m rest, all_digits rest = true ->
            all_digits (String (number.digit_char (m mod 10)) rest) = true) as C.
  { intros m rest Hr. rewrite all_digits_cons, is_digit_digit_char, Hr;
      [reflexivity | apply Z.mod_pos_bound; lia]. }
  revert n acc. induction fuel as [|fuel IH]; intros n acc Ha;
    rewrite to_decimal_S; destruct (n <? 10);
    try (split; [now apply C | discriminate]).
  apply IH. now apply C.
Qed.

Ltac each_ascii c :=
  destruct c as [[] [] [] [] [] [] [] []].

(** [parseInt] on digits, and on digits after a minus sign. *)
Lemma parseInt_digits (s : string) :
  s <> "" -> all_digits s = true ->
  js.parseInt s = js.digits 10 None s
  /\ js.parseInt (String "-" s)
     = match js.digits 10 None s with Some n => Some (- n) | None => None end.
Proof.
  assert (forall o : option Z,
            match o with Some n => Some (1 * n) | None => None end = o) as One
    by (intros [n|]; [now destruct n | reflexivity]).
  assert (forall o : option Z,
            match o with Some n => Some (-1 * n) | None => None end
            = match o with Some n => Some (- n) | None => None end) as Neg
    by (intros [n|]; [now destruct n | reflexivity]).
  intros Hs Hd. destruct s as [|c s]; [contradiction|]. clear Hs.
  each_ascii c; try discriminate Hd;
    try (split; unfold js.parseInt; cbn -[js.digits Z.mul];
         [apply One | apply Neg]).
  destruct s as [|c2 s].
  - split; reflexivity.
  - cbn in Hd. each_ascii c2; try discriminate Hd;
      (split; unfold js.parseInt; cbn -[js.digits Z.mul];
       [apply One | apply Neg]).
Qed.

Lemma parseInt_toString (n : Z) : js.parseInt (number.toString n) = Some n.
Proof.
  assert (forall m, 0 <= m -> m < 2 ^ Z.of_nat (S (Z.to_nat (Z.log2 m)))) as B.
  { intros m Hm. rewrite Nat2Z.inj_succ, Z2Nat.id by apply Z.log2_nonneg.
    destruct (Z.eq_dec m 0) as [-> | NZ]; [reflexivity|].
    apply Z.log2_spec. lia. }
  unfold number.toString. destruct (Z.ltb_spec n 0) as [L | L].
  - destruct (to_decimal_digits (Z.to_nat (Z.log2 (- n))) (- n) "" eq_refl)
      as [D NE].
    rewrite (proj2 (parseInt_digits _ NE D)).
    rewrite to_decimal_value; [| split; [lia | apply B; lia] | now left].
    simpl. f_equal. lia.
  - destruct (to_decimal_digits (Z.to_nat (Z.log2 n)) n "" eq_refl) as [D NE].
    rewrite (proj1 (parseInt_digits _ NE D)).
    rewrite to_decimal_value; [reflexivity | split; [lia | apply B; lia] | now left].
Qed.

Lemma parseInt_number_toString (n : Z) :
  Z.abs n < 2 ^ 53 ->
  js_number.parseInt (number.toString n) = js_number.Finite n.
Proof. intros H. apply parseInt_safe; [apply parseInt_toString | assumption]. Qed.

(** X11.  A statement is selected and removed under its id written in
    decimal, as [id.toString()] writes it.  For a row of the table whose id
    is a safe integer, [getStatement] of that text decodes that row: it
    returns its quad, or throws if the data factory refuses a text of the
    row; and after [removeStatement] of that text has returned, the row is
    gone and [getStatement] returns [null]. *)
Theorem statement_by_decimal_id (env : store.Environment) (conn : Connection)
    (db : Db) (row : StatementRow) :
  wf_db db -> In row (kb_statements db) -> Z.abs (statementId row) < 2 ^ 53 ->
  store.getStatement env (number.toString (statementId row)) db
    = match store.decode_getStatement (store.df env) row with
      | Some q => store.Returned (Some q)
      | None => store.Threw store.FactoryError
      end /\
  forall db',
    store.removeStatement env conn (number.toString (statementId row)) db
      = store.Returned db' ->
    ~ In row (kb_statements db') /\
    store.getStatement env (number.toString (statementId row)) db'
      = store.Returned None.
Proof.
  intros Hwf Hin B.
  pose proof (parseInt_number_toString _ B) as P. split.
  - now apply getStatement_selects.
  - intros db' H. rewrite (store_removeStatement_Finite _ _ _ _ _ P) in H.
    destruct (delete_where conn _ db) as [e | db1] eqn:E; [discriminate|].
    injection H as ->. apply delete_where_inv in E. destruct E as [E _].
    pose proof (delete_from_gone _ _ _ _ _ _ E) as G. split.
    + intros Hin'. apply G in Hin'.
      unfold has_rowid in Hin'. now rewrite Z.eqb_refl in Hin'.
    + rewrite (getStatement_Finite _ _ _ _ P). unfold select_where.
      now rewrite (filter_none _ _ G).
Qed.

Lemma statement_by_decimal_id_witness :
  wf_db example.two_graphs_db /\
  In (example.row 3 example.g2_other) (kb_statements example.two_graphs_db) /\
  number.toString 3 = "3" /\
  store.getStatement store.plain "3" example.two_graphs_db
    = store.Returned (Some example.g2_other) /\
  store.getStatement store.strict "3" example.two_graphs_db
    = store.Threw store.FactoryError.
Proof.
  assert (wf_db example.two_graphs_db) as W by (repeat constructor).
  assert (In (example.row 3 example.g2_other)
            (kb_statements example.two_graphs_db))
    as I by (right; right; left; reflexivity).
  assert (Z.abs (statementId (example.row 3 example.g2_other)) < 2 ^ 53) as B
    by (simpl; lia).
  split; [exact W|]. split; [exact I|]. split; [reflexivity|]. split.
  - exact (proj1 (statement_by_decimal_id store.plain example.conn
                    example.two_graphs_db _ W I B)).
  - exact (proj1 (statement_by_decimal_id store.strict example.conn
                    example.two_graphs_db _ W I B)).
Defined.

Example toString_examples :
  number.toString 0 = "0" /\ number.toString 7 = "7"
  /\ number.toString 1234567890 = "1234567890"
  /\ number.toString (-56) = "-56".
Proof. repeat split. Qed.

(** ** The guard isAccount *)

Module sdk_facts.

Import sdk.

Lemma typeof_string (v : JsValue) :
  (typeof v =? "string")%string = true -> exists s, v = JsString s.
Proof. destruct v; try discriminate. eauto. Qed.

Lemma typeof_object (v : JsValue) :
  (typeof v =? "object")%string = true -> is_null v = false ->
  typeof v = "object" /\ v <> JsNull.
Proof. destruct v; try discriminate; split; auto; discriminate. Qed.

Lemma all_strings (items : list JsValue) :
  existsb (fun w => negb (typeof w =? "string")%string) items = false ->
  exists ws, items = map JsString ws.
Proof.
  induction items as [|v items IH]; simpl; intros H.
  - now exists [].
  - apply orb_false_elim in H. destruct H as [Hv Hi].
    apply negb_false_iff, typeof_string in Hv. destruct Hv as (s & ->).
    destruct (IH Hi) as (ws & ->). now exists (s :: ws).
Qed.

Lemma strings_pass (ws : list string) :
  existsb (fun w => negb (typeof w =? "string")%string) (map JsString ws) = false.
Proof. induction ws as [|w ws IH]; simpl; auto. Qed.

Lemma plan_cases (v : JsValue) :
  differs_from v "free_plan" && differs_from v "pro_plan" = false ->
  exists p, v = JsString (plan_name p).
Proof.
  destruct v; try discriminate. simpl. intros H.
  apply andb_false_elim in H.
  destruct H as [H | H]; apply negb_false_iff, String.eqb_eq in H; subst.
  - now exists free_plan.
  - now exists pro_plan.
Qed.

Lemma represents_isAccount (v : JsValue) (a : Account) :
  represents v a -> isAccount v = true.
Proof.
  intros (T & N & I & K & D & P & T' & N' & props & W). unfold isAccount.
  rewrite T, I, K, D, P, T', W. simpl.
  assert (is_null v = false) as -> by (destruct v; auto; contradiction).
  assert (is_null (get v "accessControl") = false) as ->
    by (destruct (get v "accessControl"); auto; contradiction).
  rewrite strings_pass. now destruct (plan a).
Qed.

Lemma own_app (key : string) (l1 l2 : list (string * JsValue)) :
  own key (l1 ++ l2) =
  match own key l2 with Some w => Some w | None => own key l1 end.
Proof.
  induction l1 as [|[k v] l1 IH]; simpl.
  - now destruct (own key l2).
  - rewrite IH. now destruct (own key l2).
Qed.

(** Properties written after those of an account leave them as they are
    when they are not named like them. *)
Lemma get_account_object (a : Account) (more : list (string * JsValue))
    (key : string) :
  own key more = None ->
  get (account_object a more) key = get (account_object a []) key.
Proof.
  intros H. unfold account_object, get, lookup.
  now rewrite !own_app, H.
Qed.

Lemma isAccount_represents (v : JsValue) :
  isAccount v = true -> exists a, represents v a.
Proof.
  unfold isAccount.
  destruct (negb (typeof v =? "object")%string || is_null v) eqn:E1;
    [discriminate|].
  destruct (negb (typeof (get v "id") =? "string")%string) eqn:E2;
    [discriminate|].
  destruct (negb (typeof (get v "apiKey") =? "string")%string) eqn:E3;
    [discriminate|].
  destruct (negb (typeof (get v "description") =? "string")%string) eqn:E4;
    [discriminate|].
  destruct (differs_from (get v "plan") "free_plan"
            && differs_from (get v "plan") "pro_plan") eqn:E5; [discriminate|].
  destruct (negb (typeof (get v "accessControl") =? "object")%string
            || is_null (get v "accessControl")) eqn:E6; [discriminate|].
  destruct (negb (isArray (get (get v "accessControl") "worlds"))) eqn:E7;
    [discriminate|].
  destruct (some _ (get (get v "accessControl") "worlds")) eqn:E8;
    [discriminate|].
  intros _.
  apply orb_false_elim in E1. destruct E1 as [T N].
  apply negb_false_iff in T. destruct (typeof_object v T N) as [T1 N1].
  apply negb_false_iff, typeof_string in E2. destruct E2 as (i & I).
  apply negb_false_iff, typeof_string in E3. destruct E3 as (k & K).
  apply negb_false_iff, typeof_string in E4. destruct E4 as (d & D).
  apply plan_cases in E5. destruct E5 as (p & P).
  apply orb_false_elim in E6. destruct E6 as [T' N'].
  apply negb_false_iff in T'.
  destruct (typeof_object _ T' N') as [T1' N1'].
  apply negb_false_iff in E7.
  destruct (get (get v "accessControl") "worlds") as [| | | | |items props|]
    eqn:W; try discriminate.
  simpl in E8. apply all_strings in E8. destruct E8 as (ws & ->).
  exists {| id := i; apiKey := k; description := d; plan := p;
            accessControl := {| worlds := ws |} |}.
  repeat split; try assumption. now exists props.
Qed.

End sdk_facts.

(** X12.  [isAccount] accepts exactly the values that have the shape of an
    Account: a non-null object whose [id], [apiKey] and [description] are
    strings, whose [plan] is "free_plan" or "pro_plan", and whose
    [accessControl] is a non-null object with an array of strings as
    [worlds].  So it accepts the object of every account, with whatever
    further properties that are not named like those of an account, and it
    rejects [null], [undefined] and primitive values.  It does not ask
    whether the value is an array: an array that carries the properties of
    an account is accepted. *)
Theorem isAccount_correct :
  (forall v, sdk.isAccount v = true <-> exists a, sdk.represents v a) /\
  (forall a more,
     (forall k, In k sdk.account_keys -> sdk.own k more = None) ->
     sdk.isAccount (sdk.account_object a more) = true) /\
  (forall v, sdk.isAccount v = true ->
     (exists props, v = sdk.JsObject props)
     \/ exists items props, v = sdk.JsArray items props) /\
  (forall a items, sdk.isAccount (sdk.JsArray items (sdk.account_props a)) = true).
Proof.
  split; [|split; [|split]].
  - intros v. split.
    + apply sdk_facts.isAccount_represents.
    + intros (a & R). eapply sdk_facts.represents_isAccount; eassumption.
  - intros a more H. apply (sdk_facts.represents_isAccount _ a).
    unfold sdk.represents.
    rewrite !(sdk_facts.get_account_object a more)
      by (apply H; simpl; tauto).
    repeat split; try discriminate. now exists [].
  - intros v H.
    destruct v; try (now eauto); unfold sdk.isAccount in H; simpl in H;
      discriminate H.
  - intros a items. apply (sdk_facts.represents_isAccount _ a).
    repeat split; try discriminate. now exists [].
Qed.

Lemma isAccount_correct_witness :
  (forall k, In k sdk.account_keys ->
     sdk.own k [("createdAt", sdk.JsNumber 0)] = None) /\
  sdk.isAccount
    (sdk.account_object sdk.mock_account [("createdAt", sdk.JsNumber 0)])
  = true.
Proof.
  assert (forall k, In k sdk.account_keys ->
            sdk.own k [("createdAt", sdk.JsNumber 0)] = None) as H
    by (simpl; intros k [<- | [<- | [<- | [<- | [<- | []]]]]]; reflexivity).
  split; [exact H|].
  exact (proj1 (proj2 isAccount_correct) sdk.mock_account _ H).
Defined.

(** A property written after those of the account, under one of their
    names, replaces it: such an object can fail the guard. *)
Example isAccount_overwritten :
  sdk.isAccount
    (sdk.account_object sdk.mock_account [("plan", sdk.JsString "gold")])
  = false.
Proof. reflexivity. Qed.

(** ** The full-text index *)

Module chunks_facts.

Import chunks.

Lemma document_eqb_eq (a b : Document) : document_eqb a b = true <-> a = b.
Proof.
  destruct a as [i [x|]], b as [j [y|]]; unfold document_eqb; simpl;
    rewrite andb_true_iff, Z.eqb_eq; try rewrite String.eqb_eq;
    split; try (intros [-> H]; congruence); intros [= -> ]; subst; auto.
Qed.

Lemma fts_delete_In (d : Document) (idx : list Document) :
  In d idx ->
  exists idx', fts_delete d idx = Some idx' /\ Permutation idx (d :: idx').
Proof.
  induction idx as [|x idx IH]; simpl; [tauto|]. intros H.
  destruct (document_eqb x d) eqn:E.
  - apply document_eqb_eq in E. subst. eauto.
  - destruct H as [-> | H].
    + rewrite (proj2 (document_eqb_eq d d) eq_refl) in E. discriminate.
    + destruct (IH H) as (rest & -> & P). eexists. split; [reflexivity|].
      rewrite P. apply perm_swap.
Qed.

Lemma split_row (l : list ChunkRow) (a : ChunkRow) :
  NoDup (map chunk_id l) -> In a l ->
  Permutation l (a :: filter (fun r => negb (has_id (chunk_id a) r)) l).
Proof.
  unfold has_id. induction l as [|x l IH]; simpl; [tauto|].
  intros Hn Ha. inversion Hn as [|? ? Hx Hn']; subst.
  destruct Ha as [-> | Ha].
  - rewrite Z.eqb_refl. simpl. constructor.
    rewrite forallb_filter_id; [reflexivity|].
    apply forallb_forall. intros r Hr. apply negb_true_iff, Z.eqb_neq.
    intros E. apply Hx. rewrite <- E. now apply in_map.
  - destruct (Z.eqb_spec (chunk_id x) (chunk_id a)) as [E | NE]; simpl.
    + exfalso. apply Hx. rewrite E. now apply in_map.
    + rewrite perm_swap. constructor. now apply IH.
Qed.

Lemma find_has_id (id : Z) (l : list ChunkRow) (old : ChunkRow) :
  find (has_id id) l = Some old -> In old l /\ chunk_id old = id.
Proof.
  intros H. apply find_some in H. unfold has_id in H.
  now rewrite Z.eqb_eq in H.
Qed.

Lemma max_id_ge (l : list ChunkRow) (r : ChunkRow) :
  In r l -> chunk_id r <= max_id l.
Proof.
  induction l as [|a l IH]; simpl; [tauto|].
  intros [-> | H]; [lia | specialize (IH H); lia].
Qed.

Lemma insert_row_sync sid c e (db : ChunkDb) :
  in_sync db ->
  exists db' id,
    insert_row sid c e db = Some db' /\ in_sync db' /\
    (forall r, In r (kb_chunks db) -> chunk_id r < id) /\
    kb_chunks db' =
      kb_chunks db ++ [{| chunk_id := id; statement_id := sid; content := c;
                          embedding := e |}].
Proof.
  intros [P N]. unfold insert_row, kb_chunks_ai. do 2 eexists.
  split; [reflexivity|].
  assert (forall r, In r (kb_chunks db) ->
            chunk_id r < Z.max (chunk_sequence db) (max_id (kb_chunks db)) + 1)
    as B by (intros r Hr; apply max_id_ge in Hr; lia).
  split; [|split; [exact B | reflexivity]].
  split; simpl.
  - rewrite map_app. unfold fts_insert. simpl. now apply Permutation_app_tail.
  - rewrite map_app. simpl.
    apply NoDup_rev in N. rewrite <- (rev_involutive (_ ++ _)).
    apply NoDup_rev. rewrite rev_app_distr. simpl. constructor; [|assumption].
    rewrite <- in_rev, in_map_iff. intros (r & E & Hr).
    specialize (B r Hr). lia.
Qed.

Lemma delete_row_sync (id : Z) (db : ChunkDb) :
  in_sync db ->
  exists db',
    delete_row id db = Some db' /\ in_sync db' /\
    kb_chunks db' = filter (fun r => negb (has_id id r)) (kb_chunks db).
Proof.
  intros [P N]. unfold delete_row.
  destruct (find (has_id id) (kb_chunks db)) as [old|] eqn:F.
  - apply find_has_id in F. destruct F as [Hin <-].
    unfold kb_chunks_ad.
    destruct (fts_delete_In (document old) (kb_chunks_fts db)) as (idx & -> & Q).
    { eapply Permutation_in; [exact P|]. now apply in_map. }
    eexists. split; [reflexivity|]. split; [|reflexivity].
    split; simpl; [|now apply NoDup_map_filter].
    apply (Permutation_cons_inv (a := document old)).
    rewrite <- Q, <- P.
    change (document old :: map document ?l) with (map document (old :: l)).
    apply Permutation_map. symmetry. now apply split_row.
  - exists db. split; [reflexivity|]. split; [now split|].
    symmetry. apply forallb_filter_id. apply forallb_forall.
    intros r Hr. now rewrite (find_none _ _ F r Hr).
Qed.

Lemma update_row_sync (set : SetClause) (id : Z) (db : ChunkDb) :
  in_sync db ->
  exists db',
    update_row set id db = Some db' /\ in_sync db' /\
    kb_chunks db' =
      map (fun r => if has_id id r then updated set r else r) (kb_chunks db).
Proof.
  intros [P N]. unfold update_row.
  destruct (find (has_id id) (kb_chunks db)) as [old|] eqn:F.
  - apply find_has_id in F. destruct F as [Hin <-].
    unfold kb_chunks_au.
    destruct (fts_delete_In (document old) (kb_chunks_fts db)) as (idx & -> & Q).
    { eapply Permutation_in; [exact P|]. now apply in_map. }
    assert (forall r, In r (kb_chunks db) ->
              has_id (chunk_id old) r = true -> r = old) as U.
    { intros r Hr E. apply Z.eqb_eq in E.
      now apply (NoDup_map_eq chunk_id (kb_chunks db)). }
    assert (map (fun r => if has_id (chunk_id old) r then updated set old else r)
              (kb_chunks db)
            = map (fun r => if has_id (chunk_id old) r then updated set r else r)
                (kb_chunks db)) as M.
    { apply map_ext_in. intros r Hr.
      destruct (has_id (chunk_id old) r) eqn:E; [|reflexivity].
      now rewrite (U r Hr E). }
    eexists. split; [reflexivity|]. split; [|exact M].
    split; simpl.
    + unfold fts_insert. rewrite <- Permutation_cons_append.
      pose proof (split_row _ old N Hin) as S.
      rewrite (Permutation_map document
                 (Permutation_map
                    (fun r => if has_id (chunk_id old) r
                              then updated set old else r) S)).
      simpl. unfold has_id at 1. rewrite Z.eqb_refl. constructor.
      rewrite map_map.
      rewrite (map_ext_in _ document).
      * apply (Permutation_cons_inv (a := document old)).
        rewrite <- Q, <- P.
        change (document old :: map document ?l) with (map document (old :: l)).
        apply Permutation_map. now symmetry.
      * intros r Hr. apply filter_In in Hr. destruct Hr as [_ Hr].
        apply negb_true_iff in Hr. now rewrite Hr.
    + rewrite map_map. rewrite (map_ext _ chunk_id); [assumption|].
      intros r. destruct (has_id (chunk_id old) r) eqn:E; [|reflexivity].
      apply Z.eqb_eq in E. simpl. congruence.
  - exists db. split; [reflexivity|]. split; [now split|].
    rewrite (map_ext_in _ (fun r => r)); [now rewrite map_id|].
    intros r Hr. now rewrite (find_none _ _ F r Hr).
Qed.

Lemma ids_where_mem (cond : ChunkRow -> bool) (db : ChunkDb) (r : ChunkRow) :
  NoDup (map chunk_id (kb_chunks db)) -> In r (kb_chunks db) ->
  existsb (Z.eqb (chunk_id r)) (ids_where cond db) = cond r.
Proof.
  intros N Hr. apply eq_true_iff_eq. rewrite existsb_exists.
  unfold ids_where. split.
  - intros (x & Hx & E). apply Z.eqb_eq in E. subst x.
    apply in_map_iff in Hx. destruct Hx as (r' & E & Hr').
    apply filter_In in Hr'. destruct Hr' as [Hr' C].
    now rewrite <- (NoDup_map_eq chunk_id _ r' r N Hr' Hr E).
  - intros C. exists (chunk_id r). split; [|apply Z.eqb_refl].
    apply in_map. apply filter_In. auto.
Qed.

Lemma delete_chunks_sync (cond : ChunkRow -> bool) (db : ChunkDb) :
  in_sync db ->
  exists db',
    delete_chunks cond db = inr db' /\ in_sync db' /\
    kb_chunks db' = filter (fun r => negb (cond r)) (kb_chunks db).
Proof.
  intros S. unfold delete_chunks.
  assert (forall ids d, in_sync d ->
            exists d', each_row delete_row ids d = Some d' /\ in_sync d' /\
              kb_chunks d' =
                filter (fun r => negb (existsb (Z.eqb (chunk_id r)) ids))
                  (kb_chunks d)) as L.
  { induction ids as [|id ids IH]; intros d Sd; simpl.
    - exists d. split; [reflexivity|]. split; [assumption|].
      now rewrite filter_true.
    - destruct (delete_row_sync id d Sd) as (d1 & -> & S1 & R1).
      destruct (IH d1 S1) as (d' & E & S' & R').
      exists d'. split; [assumption|]. split; [assumption|].
      rewrite R', R1, filter_filter. apply filter_ext.
      intros r. unfold has_id. now rewrite negb_orb. }
  destruct (L (ids_where cond db) db S) as (db' & E & S' & R).
  exists db'. split; [now rewrite E|]. split; [assumption|].
  rewrite R. apply filter_ext_in. intros r Hr.
  now rewrite (ids_where_mem cond db r (proj2 S) Hr).
Qed.

Lemma update_rows_sync (cond : ChunkRow -> bool) (set : SetClause)
    (db : ChunkDb) :
  in_sync db ->
  exists db',
    each_row (update_row set) (ids_where cond db) db = Some db' /\
    in_sync db' /\
    kb_chunks db' =
      map (fun r => if cond r then updated set r else r) (kb_chunks db).
Proof.
  intros S.
  assert (forall ids d, NoDup ids -> in_sync d ->
            exists d', each_row (update_row set) ids d = Some d' /\ in_sync d' /\
              kb_chunks d' =
                map (fun r => if existsb (Z.eqb (chunk_id r)) ids
                              then updated set r else r) (kb_chunks d)) as L.
  { induction ids as [|id ids IH]; intros d Hn Sd; simpl.
    - exists d. split; [reflexivity|]. split; [assumption|].
      now rewrite map_id.
    - inversion Hn as [|? ? Hx Hn']; subst.
      destruct (update_row_sync set id d Sd) as (d1 & -> & S1 & R1).
      destruct (IH d1 Hn' S1) as (d' & E & S' & R').
      exists d'. split; [assumption|]. split; [assumption|].
      rewrite R', R1, map_map. apply map_ext. intros r.
      unfold has_id. destruct (Z.eqb_spec (chunk_id r) id) as [Q | Q]; simpl.
      + rewrite Q.
        destruct (existsb (Z.eqb id) ids) eqn:X; [|reflexivity].
        apply existsb_exists in X. destruct X as (x & Hin & Q').
        apply Z.eqb_eq in Q'. subst x. contradiction.
      + reflexivity. }
  destruct (L (ids_where cond db) db) as (db' & E & S' & R); [|assumption|].
  - unfold ids_where. apply NoDup_map_filter. exact (proj2 S).
  - exists db'. split; [assumption|]. split; [assumption|].
    rewrite R. apply map_ext_in. intros r Hr.
    now rewrite (ids_where_mem cond db r (proj2 S) Hr).
Qed.

(** The 'delete' command of a trigger names a document the index holds. *)
Lemma trigger_delete_held (db : ChunkDb) (old : ChunkRow) :
  in_sync db -> In old (kb_chunks db) ->
  kb_chunks_ad old (kb_chunks_fts db) <> None /\
  forall new, kb_chunks_au old new (kb_chunks_fts db) <> None.
Proof.
  intros [P _] Hin. unfold kb_chunks_ad, kb_chunks_au.
  destruct (fts_delete_In (document old) (kb_chunks_fts db)) as (idx & -> & _).
  - eapply Permutation_in; [exact P|]. now apply in_map.
  - split; [|intros new]; discriminate.
Qed.

End chunks_facts.



(** The statements of the witness go through. *)
Example fts_statements :
  chunks.insert_chunk chunks.enforcing (Some 2) (Some "hot") None
    chunks.two_chunks
  = inr {| chunks.kb_chunks :=
             chunks.kb_chunks chunks.two_chunks
             ++ [{| chunks.chunk_id := 3; chunks.statement_id := Some 2;
                    chunks.content := Some "hot"; chunks.embedding := None |}];
           chunks.kb_chunks_fts :=
             [(1, Some "spicy"); (2, None); (3, Some "hot")];
           chunks.chunk_sequence := 3 |} /\
  chunks.on_delete_cascade chunks.enforcing [1] chunks.two_chunks
  = inr {| chunks.kb_chunks :=
             [{| chunks.chunk_id := 2; chunks.statement_id := None;
                 chunks.content := None; chunks.embedding := None |}];
           chunks.kb_chunks_fts := [(2, None)];
           chunks.chunk_sequence := 2 |}.
Proof. split; reflexivity. Qed.

(** ** What the hybrid search returns *)

Module rrf_more.

Import rrf.

Lemma join_In (ss : list ScoreRow) (chunks : list Chunk) (s : ScoreRow)
    (c : Chunk) :
  In (s, c) (join ss chunks) <-> In s ss /\ In c chunks /\ id c = rowid s.
Proof.
  unfold join. rewrite in_flat_map. split.
  - intros (s' & Hs & H). apply in_map_iff in H.
    destruct H as (c' & [= -> ->] & Hc). apply filter_In in Hc.
    destruct Hc as [Hc E]. apply Z.eqb_eq in E. auto.
  - intros (Hs & Hc & E). exists s. split; [assumption|].
    apply in_map. apply filter_In. split; [assumption|]. now apply Z.eqb_eq.
Qed.

(** A group keeps the id, term_id and text of the joined row that opened
    it. *)
Lemma add_to_group_Forall (R : Z -> option Z -> string -> Prop)
    (sc : ScoreRow * Chunk) (gs : list RankedResult) :
  R (id (snd sc)) (term_id (snd sc)) (text (snd sc)) ->
  Forall (fun g => R (r_id g) (r_term_id g) (r_text g)) gs ->
  Forall (fun g => R (r_id g) (r_term_id g) (r_text g)) (add_to_group sc gs).
Proof.
  destruct sc as [s c]. simpl. intros Hn.
  induction 1 as [|g gs Hg Hgs IH]; simpl.
  - repeat constructor. assumption.
  - destruct (r_id g =? id c); constructor; auto.
Qed.

Lemma group_by_id_Forall (R : Z -> option Z -> string -> Prop)
    (joined : list (ScoreRow * Chunk)) :
  (forall sc, In sc joined -> R (id (snd sc)) (term_id (snd sc)) (text (snd sc))) ->
  Forall (fun g => R (r_id g) (r_term_id g) (r_text g)) (group_by_id joined).
Proof.
  unfold group_by_id.
  assert (forall acc,
            (forall sc, In sc joined ->
               R (id (snd sc)) (term_id (snd sc)) (text (snd sc))) ->
            Forall (fun g => R (r_id g) (r_term_id g) (r_text g)) acc ->
            Forall (fun g => R (r_id g) (r_term_id g) (r_text g))
              (fold_left (fun groups sc => add_to_group sc groups) joined acc))
    as L.
  { induction joined as [|sc joined IH]; intros acc Hj Ha; simpl; [assumption|].
    apply IH; [intros x Hx; apply Hj; now right|].
    apply add_to_group_Forall; [apply Hj; now left | assumption]. }
  intros H. apply L; [assumption | constructor].
Qed.

End rrf_more.

(** X14.  The hybrid search returns nothing of its own making.  Whatever
    result the query gives, no chunk id comes twice, and every entry is a
    chunk of kb_chunks, with that chunk's term_id and text, whose id is in
    the full-text or in the vector rank list: an id of a rank list that is
    not in kb_chunks is dropped by the join. *)
Theorem search_results_are_chunks (k : Z) (fts vec : rrf.RankList)
    (chunks : list rrf.Chunk) (out : list rrf.RankedResult) :
  rrf.query_result k fts vec chunks out ->
  NoDup (map rrf.r_id out) /\
  forall r, In r out ->
    (exists c, In c chunks /\ rrf.r_id r = rrf.id c
               /\ rrf.r_term_id r = rrf.term_id c /\ rrf.r_text r = rrf.text c)
    /\ (In (rrf.r_id r) (map fst fts) \/ In (rrf.r_id r) (map fst vec)).
Proof.
  intros [P S]. split.
  - eapply Permutation_NoDup; [apply Permutation_map; exact P|].
    apply (rrf_facts.group_by_id_fold _ [] 0). constructor.
  - intros r Hr. apply Permutation_sym in P.
    apply (Permutation_in _ P) in Hr. revert r Hr. apply Forall_forall.
    apply (rrf_more.group_by_id_Forall
             (fun i t x =>
                (exists c, In c chunks /\ i = rrf.id c
                           /\ t = rrf.term_id c /\ x = rrf.text c)
                /\ (In i (map fst fts) \/ In i (map fst vec)))).
    intros [s c] H. apply rrf_more.join_In in H. destruct H as (Hs & Hc & E).
    simpl. split; [exists c; auto|].
    unfold rrf.combined_scores in Hs. apply in_map_iff in Hs.
    destruct Hs as (e & <- & He). simpl in E. rewrite E.
    apply in_app_or. rewrite <- map_app. now apply in_map.
Qed.

Lemma search_results_are_chunks_witness :
  rrf.query_result 60 [(1, 1); (9, 2)] [(9, 1)] [example.chunk_X]
    (rrf.search 60 [(1, 1); (9, 2)] [(9, 1)] [example.chunk_X]) /\
  map rrf.r_id (rrf.search 60 [(1, 1); (9, 2)] [(9, 1)] [example.chunk_X]) = [1] /\
  NoDup (map rrf.r_id (rrf.search 60 [(1, 1); (9, 2)] [(9, 1)] [example.chunk_X])).
Proof.
  assert (rrf.query_result 60 [(1, 1); (9, 2)] [(9, 1)] [example.chunk_X]
            (rrf.search 60 [(1, 1); (9, 2)] [(9, 1)] [example.chunk_X])) as Q
    by (apply rrf_facts.order_by_score_desc_spec).
  split; [exact Q|]. split; [reflexivity|].
  exact (proj1 (search_results_are_chunks _ _ _ _ _ Q)).
Defined.

(** ** The HTTP client *)

Module client_facts.

Import client.

Lemma prefix_append (a b : string) : String.prefix a (a ++ b) = true.
Proof.
  induction a as [|c a IH]; simpl; [now destruct b|].
  destruct (ascii_dec c c); [assumption | contradiction].
Qed.

Lemma length_append (a b : string) :
  String.length (a ++ b) = (String.length a + String.length b)%nat.
Proof. induction a as [|c a IH]; simpl; [|rewrite IH]; reflexivity. Qed.

Lemma append_assoc (a b c : string) : ((a ++ b) ++ c = a ++ (b ++ c))%string.
Proof. induction a as [|x a IH]; simpl; [|rewrite IH]; reflexivity. Qed.

Lemma eqb_append_r (a b t : string) :
  ((a ++ t) =? (b ++ t))%string = (a =? b)%string.
Proof.
  revert b. induction a as [|c a IH]; intros [|d b]; cbn [append].
  - apply String.eqb_refl.
  - apply String.eqb_neq. intros E. apply (f_equal String.length) in E.
    simpl in E. rewrite length_append in E. lia.
  - apply String.eqb_neq. intros E. apply (f_equal String.length) in E.
    simpl in E. rewrite length_append in E. lia.
  - cbn [String.eqb]. destruct (Ascii.eqb c d); [apply IH | reflexivity].
Qed.

Lemma endsWith_append (x p : string) : endsWith (x ++ p) p = true.
Proof.
  induction x as [|c x IH]; cbn [append].
  - destruct p; cbn [endsWith]; now rewrite String.eqb_refl.
  - cbn [endsWith]. rewrite IH. apply orb_true_r.
Qed.

Lemma endsWith_rotate (x : string) :
  endsWith (x ++ "/rotate") "/key/rotate" = endsWith x "/key".
Proof.
  induction x as [|c x IH]; [reflexivity|].
  change (endsWith (String c x ++ "/rotate") "/key/rotate")
    with (((String c x ++ "/rotate") =? ("/key" ++ "/rotate"))%string
          || endsWith (x ++ "/rotate") "/key/rotate").
  rewrite eqb_append_r, IH. reflexivity.
Qed.

Lemma endsWith_key_not_rotate (x : string) :
  endsWith (x ++ "/key") "/key/rotate" = false.
Proof.
  induction x as [|c x IH]; [reflexivity|].
  change (endsWith (String c x ++ "/key") "/key/rotate")
    with (((String c x ++ "/key") =? "/key/rotate")%string
          || endsWith (x ++ "/key") "/key/rotate").
  rewrite IH, orb_false_r. apply String.eqb_neq. intros E.
  assert (endsWith (String c x ++ "/key") "/key" = true) as A
    by apply endsWith_append.
  rewrite E in A. discriminate A.
Qed.

End client_facts.

(** X15.  What every method of the client sends, and what it does with
    the status of the response.  The request goes to a URL under [baseUrl]
    and carries the header [Authorization: Bearer <apiKey>].  On a status
    from 200 to 299 the method does not throw the HTTP error: [getWorld]
    resolves with the text of the body, the methods that read the body
    with [json()] end as [json()] ends on it, and the others resolve with
    nothing.  On any other status the method throws the error with that
    status, except that [getWorld] and [getAccount] resolve with [null] on
    404. *)
Theorem client_contract (fetch : client.Fetch) (o : client.WorldsOptions)
    (c : client.Call) :
  String.prefix (client.baseUrl o) (client.url (client.request o c)) = true /\
  In (client.authorization o) (client.headers (client.request o c)) /\
  (client.ok (fetch (client.request o c)) = true ->
   client.run fetch o c =
   if client.reads_json c
   then client.json (client.content (fetch (client.request o c)))
   else if client.reads_text c
        then client.ResolvedText (client.content (fetch (client.request o c)))
        else client.ResolvedVoid) /\
  (client.ok (fetch (client.request o c)) = false ->
   client.run fetch o c =
   if (client.status (fetch (client.request o c)) =? 404)
      && client.null_on_404 c
   then client.ResolvedNull
   else client.Thrown (client.status (fetch (client.request o c)))).
Proof.
  split; [destruct c; apply client_facts.prefix_append|].
  split; [destruct c; left; reflexivity|].
  unfold client.run. generalize (fetch (client.request o c)). intros r.
  assert (client.status r = 404 -> client.ok r = false) as N
    by (intros E; unfold client.ok; rewrite E; reflexivity).
  split; intros K.
  - destruct c; simpl; rewrite ?K; simpl; try reflexivity.
    destruct (Z.eqb_spec (client.status r) 404) as [E | _];
      [rewrite (N E) in K; discriminate | reflexivity].
  - destruct c; simpl; rewrite ?K, ?andb_false_r; simpl; try reflexivity;
      now destruct (client.status r =? 404).
Qed.

Lemma client_contract_witness :
  client.ok (client.mock_fetch
               (client.request {| client.baseUrl := "http://localhost:8000";
                                  client.apiKey := "sk_admin" |}
                  (client.getAccount "acc_123"))) = false /\
  client.run client.mock_fetch
    {| client.baseUrl := "http://localhost:8000"; client.apiKey := "sk_admin" |}
    (client.getAccount "acc_123") = client.ResolvedNull.
Proof.
  split; [reflexivity|].
  exact (proj2 (proj2 (proj2 (client_contract client.mock_fetch
                                {| client.baseUrl := "http://localhost:8000";
                                   client.apiKey := "sk_admin" |}
                                (client.getAccount "acc_123")))) eq_refl).
Defined.

(** A status from 200 to 299 does not make a call resolve: [json()] throws
    on a body that is not JSON text, and gives [null] on the text [null]. *)
Example client_json :
  client.run (fun _ => {| client.status := 200; client.content := client.NoBody |})
    {| client.baseUrl := "http://localhost:8000"; client.apiKey := "sk_admin" |}
    client.listAccounts = client.ThrownSyntaxError /\
  client.run (fun _ => {| client.status := 200;
                          client.content := client.Json sdk.JsNull |})
    {| client.baseUrl := "http://localhost:8000"; client.apiKey := "sk_admin" |}
    (client.getAccount "acc_123")
  = client.ResolvedJson (client.Json sdk.JsNull).
Proof. split; reflexivity. Qed.

(** X16.  The SDK's test, for every base URL, key and account id.  Against
    the test's [fetch], [rotateAccountKey] of sdk.ts resolves with the
    account whose [apiKey] is "sk_new_key" and [revokeAccountKey] resolves;
    [rotateAccountKey] of sdk/internal-worlds.ts asks for [.../rotate]
    instead of [.../key/rotate], and throws the error with status 404
    unless the text before [/rotate] happens to end in [/key]. *)
Theorem sdk_test (o : client.WorldsOptions) (accountId : string) :
  client.run client.mock_fetch o (client.rotateAccountKey accountId)
    = client.ResolvedJson
        (client.Json (sdk.account_object sdk.mock_account [])) /\
  sdk.get (sdk.account_object sdk.mock_account []) "apiKey"
    = sdk.JsString "sk_new_key" /\
  client.run client.mock_fetch o (client.revokeAccountKey accountId)
    = client.ResolvedVoid /\
  client.run client.mock_fetch o
    (client.rotateAccountKey_internal_worlds accountId)
    = if client.endsWith (client.baseUrl o ++ "/accounts/" ++ accountId) "/key"
      then client.ResolvedJson
             (client.Json (sdk.account_object sdk.mock_account []))
      else client.Thrown 404.
Proof.
  assert (forall t, (client.baseUrl o ++ "/accounts/" ++ accountId ++ t
                     = (client.baseUrl o ++ "/accounts/" ++ accountId) ++ t)%string)
    as A by (intros t; now rewrite !client_facts.append_assoc).
  unfold client.run, client.mock_fetch.
  split; [|split; [reflexivity|split]].
  - cbn [client.request client.url client.method].
    rewrite A, client_facts.endsWith_append. reflexivity.
  - cbn [client.request client.url client.method].
    rewrite A, client_facts.endsWith_key_not_rotate,
      client_facts.endsWith_append. reflexivity.
  - cbn [client.request client.url client.method].
    rewrite A, client_facts.endsWith_rotate.
    destruct (client.endsWith (client.baseUrl o ++ "/accounts/" ++ accountId)
                "/key"); [reflexivity|].
    destruct (client.endsWith _ "/key"); reflexivity.
Qed.

Example sdk_test_internal_worlds :
  client.run client.mock_fetch
    {| client.baseUrl := "http://localhost:8000"; client.apiKey := "sk_admin" |}
    (client.rotateAccountKey_internal_worlds "acc_123") = client.Thrown 404.
Proof. reflexivity. Qed.

(** ** The trigger depth *)

(** With recursive triggers the program of the trigger is entered for each
    of the three rows of the chain, the last one included: with two levels
    the removal fails and nothing is removed, with three it goes through. *)
Example removal_fails_for_depth :
  removeStatement {| recursive_triggers := true; max_trigger_depth := 2 |}
    "1" example.chain_db = Err SQLITE_TRIGGER_DEPTH
  /\ removeStatement {| recursive_triggers := true; max_trigger_depth := 3 |}
       "1" example.chain_db
     = Ok {| kb_statements := []; sqlite_sequence := 3 |}
  /\ removeStatement {| recursive_triggers := false; max_trigger_depth := 0 |}
       "3" example.chain_db = Err SQLITE_TRIGGER_DEPTH.
Proof. repeat split; vm_compute; reflexivity. Qed.
